(** * glottolog3: the classification-tree reconciliation script

    A shallow embedding of [glottolog3/scripts/compute_tree_changes.py]:
    the parser of Harald's classification format ([split_families],
    [parse_families]), the instruction constructor ([languoid]), the node
    matcher ([match_nodes]) and the instruction compiler ([main]).

    Conventions of the model.
    - A Python unicode string is a [string]; a character stands for a code
      point below 256.
    - A plain [dict] is a [gmap]; where the script iterates over a plain
      dict the model iterates in the order of [map_to_list].
    - An [OrderedDict] is the pair of its key order and its mapping.
    - A Python exception is a value of [res]. *)

From Stdlib Require Import Ascii String ZArith List Lia.
From stdpp Require Import base option list gmap strings sorting.

Local Open Scope Z_scope.

(** ** Exceptions *)

Inductive exn : Type :=
  | AssertionError
  | KeyError
  | IndexError
  | ValueError
  | TypeError.

Inductive res (A : Type) : Type :=
  | Ok (a : A)
  | Raise (e : exn).
Arguments Ok {A} a.
Arguments Raise {A} e.

Global Instance res_ret : MRet res := λ A a, Ok a.
Global Instance res_bind : MBind res := λ A B k m,
  match m with
  | Ok a => k a
  | Raise e => Raise e
  end.

(** Whether a run returned, and what it returned. *)
Definition is_ok {A : Type} (r : res A) : bool :=
  match r with Ok _ => true | Raise _ => false end.

Definition from_ok {A : Type} (d : A) (r : res A) : A :=
  match r with Ok a => a | Raise _ => d end.

Definition assert (b : bool) : res unit :=
  if b then Ok tt else Raise AssertionError.

Definition getitem {K V : Type} `{Countable K} (m : gmap K V) (k : K) : res V :=
  match m !! k with
  | Some v => Ok v
  | None => Raise KeyError
  end.

Fixpoint foldM {A S : Type} (f : S → A → res S) (l : list A) (s : S) : res S :=
  match l with
  | [] => Ok s
  | x :: l' => s' ← f s x; foldM f l' s'
  end.

Fixpoint mapM {A B : Type} (f : A → res B) (l : list A) : res (list B) :=
  match l with
  | [] => Ok []
  | x :: l' => y ← f x; ys ← mapM f l'; Ok (y :: ys)
  end.

(** ** Python string methods *)

Module PyStr.

(** [unicode.isspace] on the code points below 256. *)
Definition isspace (c : ascii) : bool :=
  let n := N_of_ascii c in
  ((9 <=? n) && (n <=? 13) || (28 <=? n) && (n <=? 32)
   || (n =? 133) || (n =? 160))%N.

Fixpoint lstrip (s : string) : string :=
  match s with
  | EmptyString => EmptyString
  | String c s' => if isspace c then lstrip s' else s
  end.

Fixpoint rstrip (s : string) : string :=
  match s with
  | EmptyString => EmptyString
  | String c s' =>
      match rstrip s' with
      | EmptyString => if isspace c then EmptyString else String c EmptyString
      | r => String c r
      end
  end.

Definition strip (s : string) : string := rstrip (lstrip s).

Definition startswith (s p : string) : bool := String.prefix p s.

Fixpoint drop (n : nat) (s : string) : string :=
  match n, s with
  | O, _ => s
  | S n', String _ s' => drop n' s'
  | S _, EmptyString => EmptyString
  end.

(** [s.split(c)] for a one-character separator: the pieces between the
    separators, never an empty list. *)
Fixpoint split (c : ascii) (s : string) : list string :=
  match s with
  | EmptyString => [EmptyString]
  | String a s' =>
      if Ascii.eqb a c then EmptyString :: split c s'
      else match split c s' with
           | [] => [String a EmptyString]
           | w :: ws => String a w :: ws
           end
  end.

(** [s.replace(old, new)] for a non-empty [old]: occurrences are replaced
    from the left and do not overlap.  [skip] counts the characters of
    the occurrence just replaced that are still to be passed over. *)
Fixpoint replace_go (old new : string) (skip : nat) (s : string) : string :=
  match s with
  | EmptyString => EmptyString
  | String a s' =>
      match skip with
      | S k => replace_go old new k s'
      | O =>
          if String.prefix old s
          then new +:+ replace_go old new (String.length old - 1) s'
          else String a (replace_go old new 0 s')
      end
  end.

Definition replace (old new s : string) : string := replace_go old new 0 s.

Definition lower_char (c : ascii) : ascii :=
  let n := N_of_ascii c in
  if ((65 <=? n) && (n <=? 90)
      || (192 <=? n) && (n <=? 222) && negb (n =? 215))%N
  then ascii_of_N (n + 32) else c.

Fixpoint lower (s : string) : string :=
  match s with
  | EmptyString => EmptyString
  | String c s' => String (lower_char c) (lower s')
  end.

Fixpoint join (sep : string) (l : list string) : string :=
  match l with
  | [] => EmptyString
  | [x] => x
  | x :: l' => x +:+ sep +:+ join sep l'
  end.

Definition nonempty (s : string) : bool :=
  match s with EmptyString => false | _ => true end.

Fixpoint all_chars (p : ascii → bool) (s : string) : bool :=
  match s with
  | EmptyString => true
  | String c s' => p c && all_chars p s'
  end.

End PyStr.

(** The quote characters stripped from a code. *)
Definition dquote : string := String "034"%char EmptyString.
Definition squote : string := String "039"%char EmptyString.
Definition backslash : string := String "092"%char EmptyString.
Definition newline : ascii := "010"%char.

(** ** [NOCODE_PATTERN] *)

(** The character class [[a-zA-Z\-\_]]. *)
Definition nocode_char (c : ascii) : bool :=
  let n := N_of_ascii c in
  ((97 <=? n) && (n <=? 122) || (65 <=? n) && (n <=? 90)
   || (n =? 45) || (n =? 95))%N.

(** One or more characters of the class up to the end of the string; the
    [$] of the pattern also stands before a newline that ends the string. *)
Fixpoint nocode_tail (seen : bool) (s : string) : bool :=
  match s with
  | EmptyString => seen
  | String c s' =>
      if nocode_char c then nocode_tail true s'
      else seen && Ascii.eqb c newline
           && match s' with EmptyString => true | _ => false end
  end.

(** [NOCODE_PATTERN.match(code)], as a truth value. *)
Definition NOCODE_PATTERN_match (code : string) : bool :=
  PyStr.startswith code "NOCODE_" && nocode_tail false (PyStr.drop 7 code).

(** ** Ordered dictionaries *)

Record odict (K V : Type) `{Countable K} : Type := OD {
  od_keys : list K;
  od_map : gmap K V
}.
Arguments OD {K V _ _} od_keys od_map.
Arguments od_keys {K V _ _} o.
Arguments od_map {K V _ _} o.

Section odict_ops.
Context {K V : Type} `{Countable K}.

Definition od_empty : odict K V := OD [] ∅.

Definition od_get (d : odict K V) (k : K) : option V := od_map d !! k.

Definition od_mem (d : odict K V) (k : K) : bool :=
  bool_decide (is_Some (od_map d !! k)).

(** [d[k] = v]: a new key goes to the end, an old one keeps its place. *)
Definition od_set (d : odict K V) (k : K) (v : V) : odict K V :=
  OD (if od_mem d k then od_keys d else od_keys d ++ [k])
     (<[k := v]> (od_map d)).

(** [del d[k]] for a key that is present. *)
Definition od_del (d : odict K V) (k : K) : odict K V :=
  OD (filter (λ k', k' ≠ k) (od_keys d)) (delete k (od_map d)).

Definition od_getitem (d : odict K V) (k : K) : res V :=
  getitem (od_map d) k.
End odict_ops.

(** ** The parser *)

(** A branch header as [normalized_branch] returns it: the branch, the
    status and the classification comment. *)
Definition header : Type := list string * string * string.

(** What [split_families] yields: a header and the leafs below it. *)
Definition family : Type := header * gmap string string.

(** A value of [languages]: the list [[branch, status, name, comment]]. *)
Record language : Type := Language {
  l_branch : option (list string);
  l_status : string;
  l_name : string;
  l_comment : string
}.

Global Instance language_eq_dec : EqDecision language.
Proof. solve_decision. Defined.

Definition name_map : gmap string string :=
  list_to_map
    [("Deaf Sign Language", "Sign Languages");
     ("Unclassifiable", "Unclassified");
     ("Artificial Language", "Artificial Language");
     ("Mixed Language", "Mixed Language");
     ("Pidgin", "Pidgin")].

Definition str_in (s : string) (l : list string) : bool :=
  bool_decide (s ∈ l).

Definition str_eqb (a b : string) : bool := bool_decide (a = b).

Section Script.

(** Code of the repository that is not part of the sources at hand:
    [glottolog3.lib.bibtex.unescape]; [glottolog3.lib.util.glottocode],
    which draws a fresh identifier and updates the session and its cache;
    and Python's [float] on the text of a coordinate. *)
Variable unescape : string → string.
Context {session : Type}.
Variable glottocode : string → session → string * session.
Context {float : Type}.
Variable parse_float : string → res float.

Definition normalized_branch (line : string) : res header :=
  let branch :=
    map (λ n, unescape (PyStr.replace "_" " " (PyStr.strip n)))
        (PyStr.split "," line) in
  match branch with
  | [] => Raise IndexError
  | b0 :: rest =>
      match name_map !! b0 with
      | Some mapped =>
          Ok ([mapped],
              if negb (str_eqb b0 "Unattested")
              then "established" else "unattested",
              PyStr.join ", " rest)
      | None =>
          if str_in b0 ["Spurious"; "Speech Register"; "Unattested"] then
            let status :=
              if str_eqb b0 "Speech Register"
              then "established" else PyStr.lower b0 in
            let branch :=
              if str_eqb b0 "Unattested" && (length branch =? 1)%nat
              then "Unclassified" :: rest
              else rest in
            match branch with
            | b1 :: rest1 =>
                if str_in b1 ["Retired"]
                then Ok (rest1, status +:+ " retired", EmptyString)
                else Ok (branch, status, EmptyString)
            | [] => Ok (branch, status, EmptyString)
            end
          else Ok (branch, "established", EmptyString)
      end
  end.

(** The code of a leaf line, from the text after the opening bracket. *)
Definition leaf_code (raw : string) : string :=
  let code := hd EmptyString (PyStr.split "]" raw) in
  let code :=
    PyStr.replace squote EmptyString
      (PyStr.replace dquote EmptyString
         (PyStr.replace backslash EmptyString code)) in
  PyStr.replace "NOCODE-" "NOCODE_" code.

(** The second assertion on a code. *)
Definition code_shape (code : string) : bool :=
  (String.length code =? 3)%nat || NOCODE_PATTERN_match code.

(** One leaf line: the code and the name it binds. *)
Definition leaf_line (line : string) : res (string * string) :=
  match PyStr.split "[" (PyStr.strip line) with
  | [name; raw] =>
      let code := leaf_code raw in
      _ ← assert (PyStr.nonempty code);
      _ ← assert (code_shape code);
      Ok (code, unescape (PyStr.replace "_" " " (PyStr.strip name)))
  | _ => Raise ValueError
  end.

(** The generator's state: the family being filled and what was yielded. *)
Definition split_state : Type := option family * list (option family).

Definition split_step (st : split_state) (line : string) : res split_state :=
  let '(fam, out) := st in
  if negb (PyStr.nonempty (PyStr.strip line)) then Ok st
  else if PyStr.startswith line "  " then
    '(code, name) ← leaf_line line;
    match fam with
    | None => Raise TypeError
    | Some (h, leafs) => Ok (Some (h, <[code := name]> leafs), out)
    end
  else
    h ← normalized_branch line;
    Ok (Some (h, ∅),
        match fam with Some f => out ++ [Some f] | None => out end).

(** The families in the order the generator yields them; the last one is
    [None] when the text has no header. *)
Definition split_families (fp : string) : res (list (option family)) :=
  '(fam, out) ← foldM split_step (PyStr.split newline fp) (None, []);
  Ok (out ++ [fam]).

Definition families_t : Type := odict (list string) (gmap string string).
Definition languages_t : Type := odict string language.

Definition record_leafs (h : header) (leafs : gmap string string)
    (languages : languages_t) : languages_t :=
  let '(branch, status, comment) := h in
  foldl (λ ls cn, od_set ls cn.1 (Language (Some branch) status cn.2 comment))
        languages (map_to_list leafs).

Definition add_prefix (leafs : gmap string string) (branch : list string)
    (families : families_t) (i : nat) : families_t :=
  let p := take (S i) branch in
  match od_get families p with
  | Some old => od_set families p (leafs ∪ old)
  | None => od_set families p leafs
  end.

Definition parse_family (st : families_t * languages_t) (f : option family)
    : res (families_t * languages_t) :=
  match f with
  | None => Raise TypeError
  | Some (h, leafs) =>
      Ok (foldl (add_prefix leafs h.1.1) st.1 (seq 0 (length h.1.1)),
          record_leafs h leafs st.2)
  end.

(** [parse_families], on the text of the file. *)
Definition parse_families (fp : string) (families : families_t)
    (languages : languages_t) : res (families_t * languages_t) :=
  fams ← split_families fp;
  foldM parse_family fams (families, languages).


(** ** Instructions *)

(** The values an instruction holds; the output is dumped as JSON. *)
Inductive value : Type :=
  | VNone
  | VBool (b : bool)
  | VInt (n : Z)
  | VStr (s : string)
  | VFloat (x : float).

(** [d.update(kw)]: the entries of [kw] win. *)
Definition dict_update {K V : Type} `{Countable K} (d kw : gmap K V)
    : gmap K V := kw ∪ d.

(** [languoid(pk, level, **kw)].  A call whose keywords repeat [pk] or
    [level] is refused by Python before the body runs; no caller does. *)
Definition languoid (pk : value) (level : string) (kw : gmap string value)
    : gmap string value :=
  let d : gmap string value :=
    list_to_map
      [("pk", pk); ("level", VStr level); ("active", VBool true);
       ("father_pk", VNone); ("status", VStr "established")] in
  dict_update d kw.

(** [comment or None] *)
Definition str_or_none (s : string) : value :=
  if PyStr.nonempty s then VStr s else VNone.

(** ** The matcher *)

(** A node of the old classification: [(pk, level, name, father_pk)]. *)
Definition node : Type := Z * option string * string * option Z.
Definition n_pk (n : node) : Z := n.1.1.1.
Definition n_name (n : node) : string := n.1.2.
Definition n_father (n : node) : option Z := n.2.

(** [Migration(pk, hid, **kw)]; the keywords in use are [rename] and
    [pointer], an attribute that was not given is [None] here. *)
Record Migration : Type := Mig {
  m_pk : Z;
  m_hid : option (list string);
  m_rename : option bool;
  m_pointer : option (list string)
}.

(** What the script prints. *)
Inductive event : Type :=
  | PrintNew (attrs : gmap string value)
  | PrintMissed (n : node) (leafs : list string)
  | PrintPointer (name : string) (pointer : string)
  | PrintNoMatch (name : string)
  | PrintCount (n : Z) (what : string).

(** [tuple(sorted(...))] on strings. *)
Definition sorted_strings (l : list string) : list string :=
  merge_sort String.le l.

Definition sorted_tuple (s : gset string) : list string :=
  sorted_strings (elements s).

(** Truth value of a tuple. *)
Definition truthy {A : Type} (l : list A) : bool :=
  match l with [] => false | _ => true end.

Definition truthy_opt {A : Type} (o : option (list A)) : bool :=
  match o with Some l => truthy l | None => false end.

(** The two tests on a candidate of the scan for a 90% match. *)
Definition approx_ok (leafs : list string) (leafset nleafset : gset string)
    : bool :=
  let allowed_distance := Z.of_nat (size nleafset) `div` 10 in
  (Z.abs (Z.of_nat (length leafs) - Z.of_nat (size nleafset))
     <=? allowed_distance)
  && ((Z.of_nat (size (leafset ∖ nleafset)) <=? allowed_distance)
      || (Z.of_nat (size (nleafset ∖ leafset)) <=? allowed_distance)).

(** The first leafset of the new classification that holds [leafset]. *)
Definition smallest_superset (leafset : gset string)
    (leafsets : list (gset string)) : option (gset string) :=
  List.find (λ nleafset, bool_decide (leafset ⊆ nleafset)) leafsets.

(** The loop for the biggest intersection, from [set([])]. *)
Definition biggest_intersection (leafset : gset string)
    (leafsets : list (gset string)) : gset string :=
  foldl (λ max_intersection nleafset,
           if (size (leafset ∩ max_intersection)
               <? size (nleafset ∩ leafset))%nat
           then nleafset else max_intersection)
        ∅ leafsets.

Definition set_truthy (o : option (gset string)) : bool :=
  match o with
  | Some s => negb (bool_decide (s = ∅))
  | None => false
  end.

(** The body of the last loop of [match_nodes] for a node whose name does
    not single out a family: by leafset. *)
Definition match_by_leafset (leafs : list string) (leafset : gset string)
    (rnodes : gmap (list string) (list string))
    (leafsets : list (gset string))
    (n : node) : res (Migration * list event) :=
  let mleafset := smallest_superset leafset leafsets in
  let mleafset :=
    if set_truthy mleafset then mleafset
    else
      let max_intersection := biggest_intersection leafset leafsets in
      if set_truthy (Some max_intersection)
      then Some max_intersection else mleafset in
  match mleafset with
  | Some m =>
      if set_truthy mleafset then
        cp ← getitem rnodes (sorted_tuple m);
        Ok (Mig (n_pk n) None None (Some cp), [])
      else Ok (Mig (n_pk n) None None None, [PrintMissed n leafs])
  | None => Ok (Mig (n_pk n) None None None, [PrintMissed n leafs])
  end.

(** The body of the last loop of [match_nodes], for one node. *)
Definition match_fallback (leafs : list string) (leafset : gset string)
    (rnodes : gmap (list string) (list string))
    (leafsets : list (gset string))
    (names : gmap string (list (list string)))
    (n : node) : res (Migration * list event) :=
  match names !! n_name n with
  | Some [b] => Ok (Mig (n_pk n) None None (Some b), [])
  | _ => match_by_leafset leafs leafset rnodes leafsets n
  end.

(** The case of a leafset that two branches of the new classification
    share; [None] stands for falling through to the common case. *)
Definition match_unclassified (cp ucp : list string) (nodes : list node)
    : res (option (list Migration)) :=
  _ ← assert (length nodes <=? 2)%nat;
  match nodes with
  | [n1; n2] =>
      let '(unode, nd) :=
        if negb (bool_decide (n_father n1 = Some (n_pk n2)))
        then (n2, n1) else (n1, n2) in
      _ ← assert (bool_decide (n_father unode = Some (n_pk nd)));
      Ok (Some [Mig (n_pk nd) (Some cp) None None;
                Mig (n_pk unode) (Some ucp) None None])
  | _ => Ok None
  end.

Definition match_exact (cp : list string) (nodes : list node)
    : res (list Migration) :=
  match nodes with
  | [] => Raise IndexError
  | n0 :: others =>
      Ok (Mig (n_pk n0) (Some cp) (Some (1 <? length nodes)%nat) None
          :: map (λ n, Mig (n_pk n) None None (Some cp)) others)
  end.

Definition match_nodes (leafs : list string) (nodes : list node)
    (rnodes urnodes : gmap (list string) (list string))
    (leafsets : list (gset string))
    (names : gmap string (list (list string)))
    : res (list Migration * list event) :=
  match rnodes !! leafs with
  | Some cp =>
      special ← match urnodes !! leafs with
                | Some ucp => match_unclassified cp ucp nodes
                | None => Ok None
                end;
      match special with
      | Some todo => Ok (todo, [])
      | None => todo ← match_exact cp nodes; Ok (todo, [])
      end
  | None =>
      let leafset : gset string := list_to_set leafs in
      match
        (if (10 <? length leafs)%nat
         then List.find (approx_ok leafs leafset) leafsets else None)
      with
      | Some nleafset =>
          cp ← getitem rnodes (sorted_tuple nleafset);
          Ok (map (λ n, Mig (n_pk n) None None (Some cp)) nodes, [])
      | None =>
          rs ← mapM (match_fallback leafs leafset rnodes leafsets names) nodes;
          Ok (map fst rs, concat (map snd rs))
      end
  end.

(** ** The instruction compiler: [main] *)

(** [sorted(families.keys(), key=lambda b: (len(b), b))]: tuples of strings
    compare item by item, a proper prefix comes first. *)
Fixpoint tuple_leb (a b : list string) : bool :=
  match a, b with
  | [], _ => true
  | _ :: _, [] => false
  | x :: a', y :: b' =>
      match String.compare x y with
      | Lt => true
      | Gt => false
      | Eq => tuple_leb a' b'
      end
  end.

Definition branch_leb (a b : list string) : bool :=
  (length a <? length b)%nat
  || ((length a =? length b)%nat && tuple_leb a b).

Definition branch_le (a b : list string) : Prop := Is_true (branch_leb a b).

Global Instance branch_le_dec : RelDecision branch_le.
Proof. intros a b. unfold branch_le. apply _. Defined.

Definition sorted_branches (l : list (list string)) : list (list string) :=
  merge_sort branch_le l.

(** [sorted(rnodes.keys(), key=lambda s: len(s))] *)
Definition shorter (s t : list string) : Prop := (length s ≤ length t)%nat.

Global Instance shorter_dec : RelDecision shorter.
Proof. intros s t. unfold shorter. apply _. Defined.

Definition sorted_by_len (l : list (list string)) : list (list string) :=
  merge_sort shorter l.

(** [t[-1]] and [t[0]] on a tuple. *)
Definition last_item {A : Type} (l : list A) : res A :=
  match last l with
  | Some x => Ok x
  | None => Raise IndexError
  end.

Definition first_item {A : Type} (l : list A) : res A :=
  match l with
  | x :: _ => Ok x
  | [] => Raise IndexError
  end.

(** [[n for n in branch if n.startswith('Unclassified')]], as a truth
    value. *)
Definition has_unclassified (branch : list string) : bool :=
  truthy (List.filter (λ n, PyStr.startswith n "Unclassified") branch).

(** What the script reads from the database and from its data files. *)
Record inputs : Type := Inputs {
  in_all : bool;
  in_coords : gmap string (list string);
  in_codes : gmap string Z;
  in_maxid : Z;
  in_lnames : gmap Z string;
  in_lff : string;
  in_lof : string;
  (* rows [(pk, name, level, father_pk)] of the query chosen by
     [active_only] *)
  in_family_rows : bool → list (Z * string * option string * option Z);
  (* the codes below a node, by the closure table *)
  in_closure : Z → list string;
  (* rows [(pk, hid, name)] with a private code *)
  in_nocode_rows : list (Z * string * string);
  in_session : session
}.

(** *** Collapsing families with exactly one leaf *)

Record collapsed : Type := Collapsed {
  co_families : families_t;
  co_languages : languages_t;
  co_isolate_names : gmap string string;
  co_collapsed_names : gmap string string
}.

Definition set_branch (l : language) (b : option (list string)) : language :=
  Language b (l_status l) (l_name l) (l_comment l).

(** [d.keys()[0]] *)
Definition first_key (d : gmap string string) : res string :=
  first_item (map fst (map_to_list d)).

Definition collapse_step (st : collapsed) (key : list string) : res collapsed :=
  leafs ← od_getitem (co_families st) key;
  if (size leafs =? 1)%nat then
    code ← first_key leafs;
    lang ← od_getitem (co_languages st) code;
    if (length key =? 1)%nat then
      k0 ← first_item key;
      Ok (Collapsed (od_del (co_families st) key)
            (od_set (co_languages st) code (set_branch lang None))
            (<[k0 := code]> (co_isolate_names st))
            (co_collapsed_names st))
    else
      kl ← last_item key;
      Ok (Collapsed (od_del (co_families st) key)
            (od_set (co_languages st) code
               (set_branch lang (Some (removelast key))))
            (co_isolate_names st)
            (<[kl := code]> (co_collapsed_names st)))
  else Ok st.

(** *** Families by name *)

Definition names_step (names : gmap string (list (list string)))
    (branch : list string) : res (gmap string (list (list string))) :=
  name ← last_item branch;
  match names !! name with
  | Some bs => Ok (<[name := bs ++ [branch]]> names)
  | None => Ok (<[name := [branch]]> names)
  end.

(** *** New languages *)

Record new_langs : Type := NewLangs {
  nl_maxid : Z;
  nl_ncodes : gmap string Z;
  nl_languoids : list (gmap string value);
  nl_session : session;
  nl_log : list event
}.

Definition with_coords (coords : gmap string (list string)) (code : string)
    (attrs : gmap string value) : res (gmap string value) :=
  match coords !! code with
  | Some (c :: cs) =>
      fl ← mapM parse_float (c :: cs);
      match fl with
      | [lon; lat] =>
          Ok (<["latitude" := VFloat lat]> (<["longitude" := VFloat lon]> attrs))
      | _ => Raise ValueError
      end
  | _ => Ok attrs
  end.

Definition new_language_step (inp : inputs) (languages : languages_t)
    (st : new_langs) (code : string) : res new_langs :=
  if bool_decide (is_Some (in_codes inp !! code)) then Ok st
  else
    let maxid := nl_maxid st + 1 in
    lang ← od_getitem languages code;
    let '(id, sess) := glottocode (l_name lang) (nl_session st) in
    let attrs :=
      languoid (VInt maxid) "language"
        (list_to_map
           [("hid", VStr code); ("id", VStr id);
            ("name", VStr (l_name lang)); ("hname", VStr (l_name lang));
            ("status", VStr (l_status lang));
            ("globalclassificationcomment", str_or_none (l_comment lang))]) in
    attrs' ← with_coords (in_coords inp) code attrs;
    Ok (NewLangs maxid (<[code := maxid]> (nl_ncodes st))
          (nl_languoids st ++ [attrs']) sess
          (nl_log st ++ [PrintNew attrs])).

(** *** [rnodes] and [urnodes] *)

Definition rnodes_step (inp : inputs) (families : families_t)
    (st : gmap (list string) (list string) * gmap (list string) (list string))
    (fam : list string)
    : res (gmap (list string) (list string) * gmap (list string) (list string)) :=
  all ← od_getitem families fam;
  f0 ← first_item fam;
  _ ← assert (negb (str_in f0 ["Speech Register"; "Spurious"]));
  let leafs :=
    sorted_strings
      (List.filter (λ code, bool_decide (is_Some (in_codes inp !! code)))
         (map fst (map_to_list all))) in
  _ ← assert (truthy leafs);
  match st.1 !! leafs with
  | Some r =>
      _ ← assert (has_unclassified fam);
      _ ← assert (bool_decide
                    ((list_to_set r : gset string) ⊆ list_to_set fam));
      _ ← assert (negb (bool_decide (is_Some (st.2 !! leafs))));
      Ok (st.1, <[leafs := fam]> st.2)
  | None => Ok (<[leafs := fam]> st.1, st.2)
  end.

Definition leafsets_of (rnodes : gmap (list string) (list string))
    : list (gset string) :=
  map list_to_set (sorted_by_len (map fst (map_to_list rnodes))).

(** *** The old classification *)

Definition load_step (inp : inputs)
    (names : gmap string (list (list string)))
    (st : gmap node (list string) * list Migration)
    (row : Z * string * option string * option Z)
    : gmap node (list string) * list Migration :=
  let '(pk, name, level, father) := row in
  let leafs := in_closure inp pk in
  if truthy leafs
  then (<[(pk, level, name, father) := sorted_strings leafs]> st.1, st.2)
  else
    match names !! name with
    | Some [b] => (st.1, st.2 ++ [Mig pk None None (Some b)])
    | _ => (st.1, st.2 ++ [Mig pk None None None])
    end.

Definition rglnodes_step (rglnodes : gmap (list string) (list node))
    (nl : node * list string) : gmap (list string) (list node) :=
  match rglnodes !! nl.2 with
  | Some ns => <[nl.2 := ns ++ [nl.1]]> rglnodes
  | None => <[nl.2 := [nl.1]]> rglnodes
  end.

Definition match_step (rnodes urnodes : gmap (list string) (list string))
    (leafsets : list (gset string))
    (names : gmap string (list (list string)))
    (st : list Migration * list event) (ln : list string * list node)
    : res (list Migration * list event) :=
  _ ← assert (truthy ln.1);
  _ ← assert (truthy ln.2);
  r ← match_nodes ln.1 ln.2 rnodes urnodes leafsets names;
  Ok (st.1 ++ r.1, st.2 ++ r.2).

(** *** The mapping for exact matches *)

Definition branch_to_pk_step (branch_to_pk : gmap (list string) Z)
    (m : Migration) : res (gmap (list string) Z) :=
  match m_hid m with
  | Some hid =>
      if truthy hid then
        _ ← assert (negb (bool_decide (is_Some (branch_to_pk !! hid))));
        Ok (<[hid := m_pk m]> branch_to_pk)
      else Ok branch_to_pk
  | None => Ok branch_to_pk
  end.

(** *** New family nodes *)

Record new_fams : Type := NewFams {
  nf_maxid : Z;
  nf_branch_to_pk : gmap (list string) Z;
  nf_lnames : gmap Z string;
  nf_session : session;
  (* the instructions appended by the loop, each with its branch *)
  nf_languoids : list (list string * gmap string value);
  nf_log : list event;
  nf_new : Z
}.

(** The pks [[m.pk for m in todo if m.hid]]. *)
Definition matched_pks (todo : list Migration) : list Z :=
  map m_pk (List.filter (λ m, truthy_opt (m_hid m)) todo).

Definition unclassified_check (rglnodes : gmap (list string) (list node))
    (todo : list Migration) (hnode t : list string) : res unit :=
  match rglnodes !! t with
  | Some nodes =>
      _ ← assert (has_unclassified hnode);
      n0 ← first_item nodes;
      assert (bool_decide (n_pk n0 ∈ matched_pks todo))
  | None => Ok tt
  end.

Definition new_family_step (families : families_t)
    (rglnodes : gmap (list string) (list node)) (todo : list Migration)
    (st : new_fams) (hnode : list string) : res new_fams :=
  if bool_decide (is_Some (nf_branch_to_pk st !! hnode)) then Ok st
  else
    leafs ← od_getitem families hnode;
    let t := sorted_strings (map fst (map_to_list leafs)) in
    _ ← unclassified_check rglnodes todo hnode t;
    let maxid := nf_maxid st + 1 in
    name ← last_item hnode;
    let '(id, sess) := glottocode name (nf_session st) in
    let attrs :=
      languoid (VInt maxid) "family"
        (list_to_map
           [("id", VStr id); ("name", VStr name); ("hname", VStr name)]) in
    let branch_to_pk := <[hnode := maxid]> (nf_branch_to_pk st) in
    attrs' ← (if (1 <? length hnode)%nat then
                father ← getitem branch_to_pk (removelast hnode);
                _ ← assert (negb (father =? 0));
                Ok (<["father_pk" := VInt father]> attrs)
              else Ok attrs);
    Ok (NewFams maxid branch_to_pk (<[maxid := name]> (nf_lnames st)) sess
          (nf_languoids st ++ [(hnode, attrs')])
          (nf_log st ++ [PrintNew attrs'])
          (nf_new st + 1)).

(** *** Updates for the families of the old classification *)

Record updates : Type := Updates {
  up_languoids : list (gmap string value);
  up_log : list event;
  up_matches : Z;
  up_migrations : Z;
  up_nomatches : Z
}.

Definition update_step (branch_to_pk : gmap (list string) Z)
    (lnames : gmap Z string) (st : updates) (m : Migration) : res updates :=
  name ← getitem lnames (m_pk m);
  let attrs :=
    languoid (VInt (m_pk m)) "family" (list_to_map [("name", VStr name)]) in
  if truthy_opt (m_hid m) then
    let hid := default [] (m_hid m) in
    attrs ← (if (1 <? length hid)%nat then
               father ← getitem branch_to_pk (removelast hid);
               Ok (<["father_pk" := VInt father]> attrs)
             else Ok attrs);
    hl ← last_item hid;
    let attrs :=
      if default false (m_rename m)
      then <["name" := VStr hl]> attrs else attrs in
    Ok (Updates (up_languoids st ++ [<["hname" := VStr hl]> attrs])
          (up_log st) (up_matches st + 1) (up_migrations st)
          (up_nomatches st))
  else
    let attrs := <["active" := VBool false]> attrs in
    if truthy_opt (m_pointer m) then
      let pointer := default [] (m_pointer m) in
      replacement ← getitem branch_to_pk pointer;
      Ok (Updates
            (up_languoids st ++ [<["replacement" := VInt replacement]> attrs])
            (up_log st ++ [PrintPointer name (PyStr.join ", " pointer)])
            (up_matches st) (up_migrations st + 1) (up_nomatches st))
    else
      Ok (Updates (up_languoids st ++ [attrs])
            (up_log st ++ [PrintNoMatch name])
            (up_matches st) (up_migrations st) (up_nomatches st + 1)).

(** *** Updates for the languages *)

(** [dict(zip(d.values(), d.keys()))] *)
Definition reversed_dict (d : gmap string string) : gmap string string :=
  foldl (λ r kv, <[kv.2 := kv.1]> r) ∅ (map_to_list d).

(** [codes.get(l, ncodes.get(l))] *)
Definition language_pk (codes ncodes : gmap string Z) (l : string) : value :=
  match codes !! l with
  | Some pk => VInt pk
  | None => match ncodes !! l with
            | Some pk => VInt pk
            | None => VNone
            end
  end.

Definition language_step (codes ncodes : gmap string Z)
    (branch_to_pk : gmap (list string) Z)
    (risolate_names rcollapsed_names : gmap string string)
    (languages : languages_t)
    (out : list (gmap string value)) (l : string)
    : res (list (gmap string value)) :=
  lang ← od_getitem languages l;
  let attrs :=
    languoid (language_pk codes ncodes l) "language"
      (list_to_map [("status", VStr (l_status lang))]) in
  attrs ← (if truthy_opt (l_branch lang) then
             father ← getitem branch_to_pk (default [] (l_branch lang));
             Ok (<["father_pk" := VInt father]> attrs)
           else Ok attrs);
  let attrs :=
    <["globalclassificationcomment" := str_or_none (l_comment lang)]> attrs in
  let attrs :=
    match risolate_names !! l with
    | Some n => <["hname" := VStr n]> attrs
    | None => attrs
    end in
  let attrs :=
    match rcollapsed_names !! l with
    | Some n => <["hname" := VStr n]> attrs
    | None => attrs
    end in
  Ok (out ++ [attrs]).

(** *** Private codes that are no longer in use *)

Definition retired_step (languages : languages_t)
    (out : list (gmap string value)) (row : Z * string * string)
    : list (gmap string value) :=
  if od_mem languages row.1.2 then out
  else
    out ++ [languoid (VInt row.1.1) "language"
              (list_to_map
                 [("status", VStr "retired"); ("active", VBool false);
                  ("father_pk", VNone)])].

(** *** The run *)

(** The parts of the output list, in the order they are appended, with the
    final [branch_to_pk] and the matcher's [todo]. *)
Record report : Type := Report {
  r_new_languages : list (gmap string value);
  r_new_families : list (list string * gmap string value);
  r_family_updates : list (gmap string value);
  r_language_updates : list (gmap string value);
  r_retired : list (gmap string value);
  r_branch_to_pk : gmap (list string) Z;
  r_todo : list Migration;
  r_log : list event
}.

Definition run (inp : inputs) : res report :=
  let active_only := negb (in_all inp) in
  '(families, languages) ← parse_families (in_lff inp) od_empty od_empty;
  co ← foldM collapse_step (od_keys families)
         (Collapsed families languages ∅ ∅);
  names ← foldM names_step (od_keys (co_families co)) ∅;
  '(families, languages) ←
    parse_families (in_lof inp) (co_families co) (co_languages co);
  nl ← foldM (new_language_step inp languages) (od_keys languages)
         (NewLangs (in_maxid inp) ∅ [] (in_session inp) []);
  '(rnodes, urnodes) ←
    foldM (rnodes_step inp families) (od_keys families) (∅, ∅);
  let leafsets := leafsets_of rnodes in
  let '(glnodes, todo) :=
    foldl (load_step inp names) (∅, []) (in_family_rows inp active_only) in
  let rglnodes := foldl rglnodes_step ∅ (map_to_list glnodes) in
  '(todo, log) ←
    foldM (match_step rnodes urnodes leafsets names) (map_to_list rglnodes)
      (todo, nl_log nl);
  branch_to_pk ← foldM branch_to_pk_step todo ∅;
  nf ← foldM (new_family_step families rglnodes todo)
         (sorted_branches (od_keys families))
         (NewFams (nl_maxid nl) branch_to_pk (in_lnames inp)
            (nl_session nl) [] log 0);
  up ← foldM (update_step (nf_branch_to_pk nf) (nf_lnames nf)) todo
         (Updates [] (nf_log nf) 0 0 0);
  let log :=
    up_log up ++
      [PrintCount (up_matches up) "matches";
       PrintCount (up_migrations up) "migrations";
       PrintCount (up_nomatches up) "nomatches";
       PrintCount (nf_new nf) "new nodes"] in
  let risolate_names := reversed_dict (co_isolate_names co) in
  let rcollapsed_names := reversed_dict (co_collapsed_names co) in
  ls ← foldM (language_step (in_codes inp) (nl_ncodes nl)
                (nf_branch_to_pk nf) risolate_names rcollapsed_names
                languages)
         (od_keys languages) [];
  let retired := foldl (retired_step languages) [] (in_nocode_rows inp) in
  Ok (Report (nl_languoids nl) (nf_languoids nf) (up_languoids up) ls
        retired (nf_branch_to_pk nf) todo log).

(** The list dumped to [languoids.json]. *)
Definition languoids_of (r : report) : list (gmap string value) :=
  r_new_languages r ++ map snd (r_new_families r) ++ r_family_updates r
  ++ r_language_updates r ++ r_retired r.

Definition main (inp : inputs) : res (list (gmap string value)) :=
  r ← run inp; Ok (languoids_of r).

End Script.

(** ** Predicates of the statements *)

(** The pattern [NOCODE_[A-Za-z_-]+], on a whole code. *)
Definition nocode_form (code : string) : Prop :=
  ∃ t, code = "NOCODE_" +:+ t ∧ t ≠ EmptyString
       ∧ PyStr.all_chars nocode_char t = true.

(** What the parser demands of a code. *)
Definition well_formed_code (code : string) : Prop :=
  code ≠ EmptyString ∧ (String.length code = 3%nat ∨ nocode_form code).

Definition not_newline (c : ascii) : bool := negb (Ascii.eqb c newline).

(** The two tests of the scan for a 90% match, in natural numbers: the
    sizes differ by at most a tenth of the candidate's size, rounded down,
    and so does the set difference in one direction or the other. *)
Definition within_tolerance (leafs : list string) (nleafset : gset string)
    : Prop :=
  let leafset : gset string := list_to_set leafs in
  let allowed := (size nleafset / 10)%nat in
  (length leafs - size nleafset ≤ allowed
   ∧ size nleafset - length leafs ≤ allowed)%nat
  ∧ (size (leafset ∖ nleafset) ≤ allowed
     ∨ size (nleafset ∖ leafset) ≤ allowed)%nat.

(** One family of the input on [families], and on both dictionaries: the
    body of the loop of [parse_families] when the generator has yielded a
    family. *)
Definition families_step (families : families_t) (f : family) : families_t :=
  foldl (add_prefix f.2 f.1.1.1) families (seq 0 (length f.1.1.1)).

Definition parse_step (st : families_t * languages_t) (f : family)
    : families_t * languages_t :=
  (families_step st.1 f, record_leafs f.1 f.2 st.2).

(** What the families of a text add below the branch [p], the later ones
    winning; [None] when no family of the text has the prefix [p]. *)
Fixpoint added_below (p : list string) (fs : list family)
    : option (gmap string string) :=
  match fs with
  | [] => None
  | f :: fs' =>
      if decide (p ≠ [] ∧ p `prefix_of` f.1.1.1)
      then Some (match added_below p fs' with
                 | Some later => later ∪ f.2
                 | None => f.2
                 end)
      else added_below p fs'
  end.

(** What the families of a text record in [languages]. *)
Fixpoint recorded (fs : list family) : gmap string language :=
  match fs with
  | [] => ∅
  | f :: fs' =>
      recorded fs'
      ∪ ((λ name, Language (Some f.1.1.1) f.1.1.2 name f.1.2) <$> f.2)
  end.

(** Ancestor inclusion on the codes: every entry has an entry for each of
    its non-empty prefixes, with all of its codes. *)
Definition ancestors_hold (families : gmap (list string) (gmap string string))
    : Prop :=
  ∀ b Lb p, families !! b = Some Lb → p ≠ [] → p `prefix_of` b →
    ∃ Lp, families !! p = Some Lp ∧ dom Lb ⊆ dom Lp.

(** Every leaf map gives a code the name that [names] gives it. *)
Definition names_agree (names : gmap string string)
    (families : gmap (list string) (gmap string string)) : Prop :=
  ∀ p Lp, families !! p = Some Lp → Lp ⊆ names.

(** The keys that [languoid] gives every instruction. *)
Definition base_keys : list string :=
  ["pk"; "level"; "active"; "father_pk"; "status"].

Definition has_base_keys {float : Type}
    (i : gmap string (value (float:=float))) : Prop :=
  ∀ k, k ∈ base_keys → is_Some (i !! k).

(** The state of the loop for new family nodes keeps every pk of
    [branch_to_pk] that of a matched old node or of a new node already in
    the list, and the father of each new node in the list the pk that
    [branch_to_pk] has for the parent branch: that of a matched old node
    or of a new node earlier in the list. *)
Definition new_families_linked {session float : Type}
    (todo : list Migration)
    (st : new_fams (session:=session) (float:=float)) : Prop :=
  (∀ b p, nf_branch_to_pk st !! b = Some p →
     p ∈ matched_pks todo
     ∨ ∃ j bi, nf_languoids st !! j = Some bi ∧ bi.2 !! "pk" = Some (VInt p))
  ∧ (∀ k bi, nf_languoids st !! k = Some bi →
       (∃ name, last bi.1 = Some name ∧ bi.2 !! "name" = Some (VStr name))
       ∧ (bi.2 !! "father_pk" = Some VNone
          ∨ ∃ p, bi.2 !! "father_pk" = Some (VInt p) ∧ p ≠ 0
                 ∧ nf_branch_to_pk st !! removelast bi.1 = Some p
                 ∧ (p ∈ matched_pks todo
                    ∨ ∃ j bi', (j < k)%nat
                               ∧ nf_languoids st !! j = Some bi'
                               ∧ bi'.2 !! "pk" = Some (VInt p)))).

(** ** Sample inputs *)

(** Stand-ins for the code that is not at hand: no escapes in the text,
    the name itself as identifier, a coordinate kept as its text. *)
Definition no_escapes (s : string) : string := s.
Definition name_as_id (name : string) (s : unit) : string * unit := (name, s).
Definition text_float (s : string) : res string := Ok s.

Definition lines (l : list string) : string :=
  PyStr.join (String newline EmptyString) l.

(** A family [A] with the leafs [aaa], [bbb] below [A, B] and [ccc] below
    [A] itself. *)
Definition sample_lff : string :=
  lines ["A, B"; "  x [aaa]"; "  y [bbb]"; "A"; "  z [ccc]"].

Definition sample_lof : string := lines ["Unattested"; "  u [uuu]"].

(** The database knows all four codes and one family node, pk 1, named [A],
    over the three leafs of [A]. *)
Definition sample_inputs : inputs (session:=unit) :=
  Inputs false ∅
    (list_to_map [("aaa", 10); ("bbb", 11); ("ccc", 12); ("uuu", 13)])
    20
    (list_to_map [(1, "A"); (10, "x"); (11, "y"); (12, "z"); (13, "u")])
    sample_lff sample_lof
    (λ _, [(1, "A", Some "family", None)])
    (λ pk, if pk =? 1 then ["aaa"; "bbb"; "ccc"] else [])
    [] tt.

Definition sample_run : report (float:=string) :=
  from_ok (Report [] [] [] [] [] ∅ [] [])
    (run no_escapes name_as_id text_float sample_inputs).

Definition sample_output : list (gmap string (value (float:=string))) :=
  from_ok [] (main no_escapes name_as_id text_float sample_inputs).

Definition sample_parsed : families_t * languages_t :=
  from_ok (od_empty, od_empty)
    (parse_families no_escapes sample_lff od_empty od_empty).

Definition sample_families : list (option family) :=
  from_ok [] (split_families no_escapes sample_lff).

(** One code listed under two names. *)
Definition two_names : string :=
  lines ["A, B"; "  x [abc]"; "A"; "  y [abc]"].

Definition two_names_parsed : families_t * languages_t :=
  from_ok (od_empty, od_empty)
    (parse_families no_escapes two_names od_empty od_empty).

Definition two_names_families : list (option family) :=
  from_ok [] (split_families no_escapes two_names).

(** A leaf line with a code of four characters. *)
Definition long_code : string := lines ["A"; "  x [abcd]"].

(** Twenty leafs, and the nineteen that are left without the last. *)
Definition twenty : list string :=
  ["a01"; "a02"; "a03"; "a04"; "a05"; "a06"; "a07"; "a08"; "a09"; "a10";
   "a11"; "a12"; "a13"; "a14"; "a15"; "a16"; "a17"; "a18"; "a19"; "a20"].
Definition nineteen : list string := removelast twenty.

(** Two leafsets of the new classification for the twenty leafs: one of
    nineteen that lacks two of them and has one more, and one that has all
    twenty and one more. *)
Definition x_nineteen : list string :=
  ["a01"; "a02"; "a03"; "a04"; "a05"; "a06"; "a07"; "a08"; "a09"; "a10";
   "a11"; "a12"; "a13"; "a14"; "a15"; "a16"; "a17"; "a18"; "b01"].
Definition twenty_one : list string := twenty ++ ["a21"].
Definition two_candidates : gmap (list string) (list string) :=
  <[x_nineteen := ["X"]]> {[twenty_one := ["A"]]}.

Definition old_one : node := (1, Some "family", "Old One", None).
Definition old_two : node := (2, Some "family", "Old Two", Some 1).

(** ** Predicates of the further properties *)

(** An ordered dictionary is well formed when its key order lists each key
    of its mapping once and nothing else. *)
Definition od_wf {K V : Type} `{Countable K} (d : odict K V) : Prop :=
  NoDup (od_keys d) ∧ ∀ k, k ∈ od_keys d ↔ is_Some (od_map d !! k).

(** A line that [split_families] skips. *)
Definition blank (line : string) : Prop := PyStr.strip line = EmptyString.

(** The statuses that [normalized_branch] can return. *)
Definition statuses : list string :=
  ["established"; "unattested"; "spurious";
   "established retired"; "unattested retired"; "spurious retired"].

(** The characters that [split_families] takes out of a code. *)
Definition stripped_chars : list ascii :=
  ["]"%char; "092"%char; "034"%char; "039"%char].

(** The branches of a list that end in [name]. *)
Definition ending_in (name : string) (keys : list (list string))
    : list (list string) :=
  List.filter (λ b, bool_decide (last b = Some name)) keys.

(** Whether a branch is a family with exactly one leaf. *)
Definition one_leaf (families : families_t) (key : list string) : bool :=
  match od_get families key with
  | Some leafs => (size leafs =? 1)%nat
  | None => false
  end.

(** Two entries of [languages] that differ in the branch at most. *)
Definition same_but_branch (l l' : language) : Prop :=
  l_status l' = l_status l ∧ l_name l' = l_name l
  ∧ l_comment l' = l_comment l.

(** The branch that the collapse of the family [key] gives its leaf. *)
Definition collapsed_branch (key : list string) : option (list string) :=
  if (length key =? 1)%nat then None else Some (removelast key).

(** What the loop has done after the keys [ks]. *)
Definition collapse_inv (families : families_t) (languages : languages_t)
    (ks : list (list string)) (st : collapsed) : Prop :=
  od_keys (co_families st)
  = filter (λ k, ¬ (k ∈ ks ∧ one_leaf families k = true)) (od_keys families)
  ∧ (∀ k, od_get (co_families st) k
          = if decide (k ∈ ks ∧ one_leaf families k = true)
            then None else od_get families k)
  ∧ od_keys (co_languages st) = od_keys languages
  ∧ (∀ code,
       match od_get languages code, od_get (co_languages st) code with
       | Some l, Some l' =>
           same_but_branch l l'
           ∧ (l_branch l' = l_branch l
              ∨ ∃ key leafs,
                  key ∈ ks ∧ od_get families key = Some leafs
                  ∧ dom leafs = {[code]}
                  ∧ l_branch l' = collapsed_branch key)
       | None, None => True
       | _, _ => False
       end)
  ∧ (∀ name code,
       co_isolate_names st !! name = Some code
       ↔ [name] ∈ ks
         ∧ ∃ leafs, od_get families [name] = Some leafs
                    ∧ dom leafs = {[code]})
  ∧ (∀ name code,
       co_collapsed_names st !! name = Some code →
       ∃ key leafs,
         key ∈ ks ∧ last key = Some name ∧ (1 < length key)%nat
         ∧ od_get families key = Some leafs ∧ dom leafs = {[code]}).

(** [tuple(sorted(code for code in all.keys() if code in codes))] *)
Definition known_leafs (codes : gmap string Z) (all : gmap string string)
    : list string :=
  sorted_strings
    (List.filter (λ code, bool_decide (is_Some (codes !! code)))
       (map fst (map_to_list all))).

(** A tuple of codes as [tuple(sorted(...))] gives it for a set. *)
Definition canonical (t : list string) : Prop :=
  Sorted String.le t ∧ NoDup t.

(** What [rnodes] and [urnodes] hold after the families [done]. *)
Definition rnodes_inv {session : Type} (inp : inputs (session:=session))
    (families : families_t) (done : list (list string))
    (st : gmap (list string) (list string) * gmap (list string) (list string))
    : Prop :=
  (∀ t fam, st.1 !! t = Some fam →
     t ≠ [] ∧ canonical t ∧ fam ∈ done
     ∧ ∃ all, od_get families fam = Some all
              ∧ t = known_leafs (in_codes inp) all)
  ∧ (∀ t ufam, st.2 !! t = Some ufam →
       ufam ∈ done ∧ has_unclassified ufam = true
       ∧ (∃ all, od_get families ufam = Some all
                 ∧ t = known_leafs (in_codes inp) all)
       ∧ ∃ fam, st.1 !! t = Some fam
                ∧ (list_to_set fam : gset string) ⊆ list_to_set ufam)
  ∧ (∀ fam, fam ∈ done →
       ∃ all, od_get families fam = Some all
              ∧ (st.1 !! known_leafs (in_codes inp) all = Some fam
                 ∨ st.2 !! known_leafs (in_codes inp) all = Some fam)).

(** The pairs [(m.hid, m.pk)] of the migrations with a [hid]. *)
Definition matches_of (todo : list Migration) : list (list string * Z) :=
  omap (λ m, match m_hid m with
             | Some hid => if truthy hid then Some (hid, m_pk m) else None
             | None => None
             end) todo.

(** Instructions whose pks count up from [base + 1]. *)
Definition numbered {float : Type} (base : Z)
    (l : list (gmap string (value (float:=float)))) : Prop :=
  ∀ k i, l !! k = Some i → i !! "pk" = Some (VInt (base + 1 + Z.of_nat k)).

(** What the update for the language [l] holds. *)
Definition language_update {float : Type} (codes ncodes : gmap string Z)
    (branch_to_pk : gmap (list string) Z)
    (risolate_names rcollapsed_names : gmap string string)
    (languages : languages_t) (l : string)
    (i : gmap string (value (float:=float))) : Prop :=
  ∃ lang,
    od_get languages l = Some lang
    ∧ i !! "pk" = Some (language_pk codes ncodes l)
    ∧ i !! "level" = Some (VStr "language")
    ∧ i !! "active" = Some (VBool true)
    ∧ i !! "status" = Some (VStr (l_status lang))
    ∧ i !! "globalclassificationcomment"
      = Some (str_or_none (l_comment lang))
    ∧ match l_branch lang with
      | Some (b :: bs) =>
          ∃ father, branch_to_pk !! (b :: bs) = Some father
                    ∧ i !! "father_pk" = Some (VInt father)
      | _ => i !! "father_pk" = Some VNone
      end
    ∧ i !! "hname"
      = match rcollapsed_names !! l with
        | Some n => Some (VStr n)
        | None => VStr <$> risolate_names !! l
        end.

(** What the update for the migration [m] of a family holds. *)
Definition family_update {float : Type} (branch_to_pk : gmap (list string) Z)
    (lnames : gmap Z string) (m : Migration)
    (i : gmap string (value (float:=float))) : Prop :=
  ∃ name,
    lnames !! m_pk m = Some name
    ∧ i !! "pk" = Some (VInt (m_pk m))
    ∧ i !! "level" = Some (VStr "family")
    ∧ i !! "status" = Some (VStr "established")
    ∧ match m_hid m with
      | Some (h :: hs) =>
          ∃ hl, last (h :: hs) = Some hl
            ∧ i !! "active" = Some (VBool true)
            ∧ i !! "hname" = Some (VStr hl)
            ∧ i !! "name"
              = Some (VStr (if default false (m_rename m) then hl else name))
            ∧ i !! "replacement" = None
            ∧ match hs with
              | [] => i !! "father_pk" = Some VNone
              | _ => ∃ father,
                       branch_to_pk !! removelast (h :: hs) = Some father
                       ∧ i !! "father_pk" = Some (VInt father)
              end
      | _ =>
          i !! "active" = Some (VBool false)
          ∧ i !! "name" = Some (VStr name)
          ∧ i !! "hname" = None
          ∧ i !! "father_pk" = Some VNone
          ∧ match m_pointer m with
            | Some (p :: ps) =>
                ∃ replacement,
                  branch_to_pk !! (p :: ps) = Some replacement
                  ∧ i !! "replacement" = Some (VInt replacement)
            | _ => i !! "replacement" = None
            end
      end.

(** The three counts the script prints after the updates of the families. *)
Definition count_matches (todo : list Migration) : Z :=
  Z.of_nat (length (List.filter (λ m, truthy_opt (m_hid m)) todo)).

Definition count_migrations (todo : list Migration) : Z :=
  Z.of_nat
    (length (List.filter (λ m, negb (truthy_opt (m_hid m))
                               && truthy_opt (m_pointer m)) todo)).

Definition count_nomatches (todo : list Migration) : Z :=
  Z.of_nat
    (length (List.filter (λ m, negb (truthy_opt (m_hid m))
                               && negb (truthy_opt (m_pointer m))) todo)).

(** What the instruction that retires the row [(pk, hid, name)] holds. *)
Definition retirement {float : Type} (row : Z * string * string)
    (i : gmap string (value (float:=float))) : Prop :=
  i !! "pk" = Some (VInt row.1.1)
  ∧ i !! "level" = Some (VStr "language")
  ∧ i !! "status" = Some (VStr "retired")
  ∧ i !! "active" = Some (VBool false)
  ∧ i !! "father_pk" = Some VNone.

(** An instruction with an integer as pk. *)
Definition has_pk {float : Type} (i : gmap string (value (float:=float)))
    : Prop :=
  ∃ pk, i !! "pk" = Some (VInt pk).

(** A character of a code that [split_families] leaves alone. *)
Definition code_char (c : ascii) : bool :=
  negb (bool_decide (c ∈ "["%char :: stripped_chars)).

(** The line that lists the language [name] with a code of three
    characters. *)
Definition leaf_text (name : string) (a b c : ascii) : string :=
  String " " (String " "
    (name +:+ String " " (String "["
       (String a (String b (String c (String "]" EmptyString))))))).

(** The nodes that the items of [glnodes] give the leafs [t], in the order
    of the items. *)
Definition nodes_with (t : list string) (l : list (node * list string))
    : list node :=
  map fst (List.filter (λ nl, bool_decide (nl.2 = t)) l).

(** The migration of a family of the old classification without leafs. *)
Definition retire_empty (names : gmap string (list (list string)))
    (row : Z * string * option string * option Z) : Migration :=
  Mig row.1.1.1 None None
    (match names !! row.1.1.2 with Some [b] => Some b | _ => None end).

(** ** Further sample inputs *)

(** A text of blank lines, and one that starts with a leaf. *)
Definition blank_text : string := lines [EmptyString; "  "].
Definition leaf_first : string := lines ["  x [aaa]"; "A"].

(** One family at the top with one leaf, and its language. *)
Definition one_family : families_t :=
  OD [["A"]] {[ ["A"] := {["aaa" := "x"]} ]}.
Definition one_language : languages_t :=
  OD ["aaa"] {["aaa" := Language (Some ["A"]) "established" "x" EmptyString]}.

Definition one_collapsed : collapsed :=
  from_ok (Collapsed od_empty od_empty ∅ ∅)
    (foldM collapse_step (od_keys one_family)
       (Collapsed one_family one_language ∅ ∅)).

Definition one_rnodes
    : gmap (list string) (list string) * gmap (list string) (list string) :=
  from_ok (∅, ∅)
    (foldM (rnodes_step sample_inputs one_family) (od_keys one_family) (∅, ∅)).

(** A matched node and one that is pointed to its branch. *)
Definition two_migrations : list Migration :=
  [Mig 1 (Some ["A"]) None None; Mig 2 None None (Some ["A"])].

(** * Properties *)

(** ** The exception monad *)

Lemma bind_Ok {A B : Type} (m : res A) (k : A → res B) (b : B) :
  (m ≫= k) = Ok b → ∃ a, m = Ok a ∧ k a = Ok b.
Proof. destruct m as [a|e]; simpl; [eauto | discriminate]. Qed.

Lemma from_ok_eq {A : Type} (d : A) (r : res A) :
  is_ok r = true → r = Ok (from_ok d r).
Proof. by destruct r. Qed.

Lemma assert_Ok (b : bool) (u : unit) : assert b = Ok u → b = true.
Proof. by destruct b. Qed.

Lemma getitem_Ok {K V : Type} `{Countable K} (m : gmap K V) (k : K) (v : V) :
  getitem m k = Ok v → m !! k = Some v.
Proof. unfold getitem. destruct (m !! k); naive_solver. Qed.

(** An invariant of the state that every step keeps holds at the end. *)
Lemma foldM_invariant {A S : Type} (P : S → Prop) (f : S → A → res S)
    (l : list A) (s s' : S) :
  (∀ t x t', x ∈ l → P t → f t x = Ok t' → P t') →
  P s → foldM f l s = Ok s' → P s'.
Proof.
  revert s. induction l as [|x l IH]; intros s Hstep Hs Hrun; simpl in *.
  - by injection Hrun as <-.
  - apply bind_Ok in Hrun as (t & Hx & Hrun).
    eapply IH; [| |exact Hrun].
    + intros ????. apply Hstep. by right.
    + eapply Hstep; [left | exact Hs | exact Hx].
Qed.

(** A step that raises in every state makes the whole loop raise. *)
Lemma foldM_raises {A S : Type} (f : S → A → res S) (l : list A) (x : A) (s : S) :
  x ∈ l → (∀ t, ∃ e, f t x = Raise e) → ∃ e, foldM f l s = Raise e.
Proof.
  intros Hin Hx. revert s.
  induction l as [|y l IH]; intros s; [by apply elem_of_nil in Hin|].
  simpl. apply elem_of_cons in Hin as [<-|Hin].
  - destruct (Hx s) as [e ->]. by exists e.
  - destruct (f s y) as [t|e]; simpl; [by apply IH | by exists e].
Qed.

Lemma mapM_Ok {A B : Type} (f : A → res B) (l : list A) (rs : list B) :
  mapM f l = Ok rs → Forall2 (λ x r, f x = Ok r) l rs.
Proof.
  revert rs. induction l as [|x l IH]; intros rs Hrun; simpl in *.
  - injection Hrun as <-. constructor.
  - apply bind_Ok in Hrun as (y & Hy & Hrun).
    apply bind_Ok in Hrun as (ys & Hys & Hrun).
    injection Hrun as <-. constructor; auto.
Qed.

(** ** Ordered dictionaries and the two loops of [parse_families] *)

Section odict_facts.
Context {K V : Type} `{Countable K}.

Lemma od_keys_set_present (d : odict K V) (k : K) (v : V) :
  is_Some (od_map d !! k) → od_keys (od_set d k v) = od_keys d.
Proof.
  intros Hk. unfold od_set, od_mem; simpl. by rewrite bool_decide_eq_true_2.
Qed.

Lemma od_eq (d1 d2 : odict K V) :
  od_keys d1 = od_keys d2 → od_map d1 = od_map d2 → d1 = d2.
Proof. destruct d1, d2; simpl; by intros -> ->. Qed.

(** A loop of assignments [d[k] = g v] over pairs with distinct keys. *)
Lemma od_map_assign_all {A : Type} (g : A → V) (l : list (K * A)) (d : odict K V) :
  NoDup l.*1 →
  od_map (foldl (λ ls cn, od_set ls cn.1 (g cn.2)) d l)
  = (g <$> (list_to_map l : gmap K A)) ∪ od_map d.
Proof.
  revert d. induction l as [|[k a] l IH]; intros d Hnd; simpl.
  - by rewrite fmap_empty, (left_id_L ∅ (∪)).
  - apply NoDup_cons in Hnd as [Hk Hnd].
    rewrite IH by done. simpl.
    rewrite fmap_insert, <- insert_union_l.
    rewrite insert_union_r; [done|].
    rewrite lookup_fmap. by rewrite (not_elem_of_list_to_map_1 _ k).
Qed.

Lemma od_keys_assign_all {A : Type} (g : A → V) (l : list (K * A)) (d : odict K V) :
  (∀ k, k ∈ l.*1 → is_Some (od_map d !! k)) →
  od_keys (foldl (λ ls cn, od_set ls cn.1 (g cn.2)) d l) = od_keys d.
Proof.
  revert d. induction l as [|[k a] l IH]; intros d Hin; simpl; [done|].
  rewrite IH.
  - apply od_keys_set_present, Hin. left.
  - intros k' Hk'. simpl. destruct (decide (k = k')) as [->|Hne].
    + rewrite lookup_insert_eq. eauto.
    + rewrite lookup_insert_ne by done. apply Hin. by right.
Qed.

End odict_facts.

Lemma od_map_record_leafs (h : header) (leafs : gmap string string)
    (languages : languages_t) :
  od_map (record_leafs h leafs languages)
  = ((λ name, Language (Some h.1.1) h.1.2 name h.2) <$> leafs)
    ∪ od_map languages.
Proof.
  destruct h as [[branch status] comment]. unfold record_leafs.
  rewrite (od_map_assign_all (λ name, Language (Some branch) status name comment)).
  - by rewrite list_to_map_to_list.
  - apply NoDup_fst_map_to_list.
Qed.

Lemma od_keys_record_leafs (h : header) (leafs : gmap string string)
    (languages : languages_t) :
  dom leafs ⊆ dom (od_map languages) →
  od_keys (record_leafs h leafs languages) = od_keys languages.
Proof.
  intros Hsub. destruct h as [[branch status] comment]. unfold record_leafs.
  apply (od_keys_assign_all (λ name, Language (Some branch) status name comment)).
  intros k Hk. apply elem_of_dom, Hsub, elem_of_dom.
  apply list_elem_of_fmap in Hk as ([k' a] & -> & Hk).
  apply elem_of_map_to_list in Hk. eauto.
Qed.

(** The assignment that [add_prefix] makes to the mapping. *)
Lemma od_map_add_prefix (leafs : gmap string string) (branch : list string)
    (families : families_t) (i : nat) :
  od_map (add_prefix leafs branch families i)
  = <[take (S i) branch :=
        leafs ∪ default ∅ (od_map families !! take (S i) branch)]>
      (od_map families).
Proof.
  unfold add_prefix, od_get.
  destruct (od_map families !! take (S i) branch) as [old|]; simpl; [done|].
  by rewrite (right_id_L ∅ (∪)).
Qed.

Lemma nonempty_prefix_take (p b : list string) :
  p ≠ [] ∧ p `prefix_of` b ↔ ∃ i, (i < length b)%nat ∧ p = take (S i) b.
Proof.
  split.
  - intros [Hne [k ->]]. destruct p as [|x p]; [done|].
    exists (length p). split.
    + rewrite length_app. simpl. lia.
    + change (S (length p)) with (length (x :: p)).
      by rewrite take_app_length.
  - intros (i & Hi & ->). split.
    + destruct b; simpl in *; [lia | done].
    + apply prefix_take.
Qed.

Lemma families_loop_other (leafs : gmap string string) (b p : list string)
    (families : families_t) (n : nat) :
  (∀ i, (i < n)%nat → p ≠ take (S i) b) →
  od_map (foldl (add_prefix leafs b) families (seq 0 n)) !! p
  = od_map families !! p.
Proof.
  induction n as [|n IH]; intros Hp; [done|].
  rewrite seq_S, foldl_app. simpl. rewrite od_map_add_prefix.
  rewrite lookup_insert_ne; [apply IH; intros; apply Hp; lia|].
  intros Heq. by apply (Hp n); [lia|].
Qed.

Lemma families_loop_prefix (leafs : gmap string string) (b : list string)
    (families : families_t) (n i : nat) :
  (i < n)%nat → (n ≤ length b)%nat →
  od_map (foldl (add_prefix leafs b) families (seq 0 n)) !! take (S i) b
  = Some (leafs ∪ default ∅ (od_map families !! take (S i) b)).
Proof.
  induction n as [|n IH]; intros Hi Hn; [lia|].
  rewrite seq_S, foldl_app. simpl. rewrite od_map_add_prefix.
  destruct (decide (i = n)) as [->|Hne].
  - rewrite lookup_insert_eq. rewrite families_loop_other; [done|].
    intros j Hj Heq. apply (f_equal length) in Heq.
    rewrite !length_take in Heq. lia.
  - rewrite lookup_insert_ne.
    + apply IH; lia.
    + intros Heq. apply (f_equal length) in Heq.
      rewrite !length_take in Heq. lia.
Qed.

(** One family of the input, on the mapping of [families]. *)
Lemma families_loop_lookup (leafs : gmap string string) (b p : list string)
    (families : families_t) :
  od_map (foldl (add_prefix leafs b) families (seq 0 (length b))) !! p
  = if decide (p ≠ [] ∧ p `prefix_of` b)
    then Some (leafs ∪ default ∅ (od_map families !! p))
    else od_map families !! p.
Proof.
  destruct (decide (p ≠ [] ∧ p `prefix_of` b)) as [Hp|Hp].
  - apply nonempty_prefix_take in Hp as (i & Hi & ->).
    by apply families_loop_prefix.
  - apply families_loop_other. intros i Hi ->. apply Hp.
    apply nonempty_prefix_take. eauto.
Qed.

Lemma families_loop_present (leafs : gmap string string) (b q : list string)
    (families : families_t) (l : list nat) :
  is_Some (od_map families !! q) →
  is_Some (od_map (foldl (add_prefix leafs b) families l) !! q).
Proof.
  revert families. induction l as [|i l IH]; intros families Hq; [done|].
  simpl. apply IH. rewrite od_map_add_prefix.
  destruct (decide (take (S i) b = q)) as [->|Hne].
  - rewrite lookup_insert_eq. eauto.
  - by rewrite lookup_insert_ne.
Qed.

(** The same loop leaves the key order alone once every prefix is a key. *)
Lemma families_loop_keys (leafs : gmap string string) (b : list string)
    (families : families_t) (l : list nat) :
  (∀ i, i ∈ l → is_Some (od_map families !! take (S i) b)) →
  od_keys (foldl (add_prefix leafs b) families l) = od_keys families.
Proof.
  revert families. induction l as [|i l IH]; intros families Hp; [done|].
  simpl. rewrite IH.
  - unfold add_prefix, od_get.
    destruct (Hp i) as [old ->]; [left|].
    apply od_keys_set_present. apply Hp. left.
  - intros j Hj. apply (families_loop_present leafs b _ families [i]).
    apply Hp. by right.
Qed.

Section Proofs.

Set Default Proof Using "Type".

Variable unescape : string → string.
Context {session : Type}.
Variable glottocode : string → session → string * session.
Context {float : Type}.
Variable parse_float : string → res float.

(** ** The header [Unattested] *)


(** ** Codes *)

Lemma all_chars_app (q : ascii → bool) (s1 s2 : string) :
  PyStr.all_chars q (s1 +:+ s2)
  = PyStr.all_chars q s1 && PyStr.all_chars q s2.
Proof.
  induction s1 as [|c s1 IH]; simpl; [done|].
  change (String.append s1 s2) with (s1 +:+ s2).
  rewrite IH. by destruct (q c).
Qed.

Lemma all_chars_lstrip (q : ascii → bool) (s : string) :
  PyStr.all_chars q s = true → PyStr.all_chars q (PyStr.lstrip s) = true.
Proof.
  induction s as [|c s IH]; simpl; [done|].
  intros [Hc Hs]%andb_prop. destruct (PyStr.isspace c); [auto|].
  simpl. by rewrite Hc, Hs.
Qed.

Lemma all_chars_rstrip (q : ascii → bool) (s : string) :
  PyStr.all_chars q s = true → PyStr.all_chars q (PyStr.rstrip s) = true.
Proof.
  induction s as [|c s IH]; simpl; [done|].
  intros [Hc Hs]%andb_prop. specialize (IH Hs).
  destruct (PyStr.rstrip s) as [|c' r].
  - destruct (PyStr.isspace c); simpl; [done | by rewrite Hc].
  - simpl in *. by rewrite Hc, IH.
Qed.

Lemma all_chars_strip (q : ascii → bool) (s : string) :
  PyStr.all_chars q s = true → PyStr.all_chars q (PyStr.strip s) = true.
Proof. intros Hs. by apply all_chars_rstrip, all_chars_lstrip. Qed.

Lemma all_chars_split (q : ascii → bool) (c : ascii) (s w : string) :
  PyStr.all_chars q s = true → w ∈ PyStr.split c s →
  PyStr.all_chars q w = true.
Proof.
  revert w. induction s as [|a s IH]; simpl; intros w Hs Hw.
  - by apply list_elem_of_singleton in Hw as ->.
  - apply andb_prop in Hs as [Ha Hs].
    destruct (Ascii.eqb a c).
    + apply elem_of_cons in Hw as [->|Hw]; [done | by apply IH].
    + destruct (PyStr.split c s) as [|w' ws] eqn:Hsplit.
      * apply list_elem_of_singleton in Hw as ->. simpl. by rewrite Ha.
      * apply elem_of_cons in Hw as [->|Hw].
        -- simpl. rewrite Ha. apply IH; [done | left].
        -- apply IH; [done | by right].
Qed.

(** The pieces of [s.split(c)] do not hold [c]. *)
Lemma split_pieces (c : ascii) (s w : string) :
  w ∈ PyStr.split c s →
  PyStr.all_chars (λ a, negb (Ascii.eqb a c)) w = true.
Proof.
  revert w. induction s as [|a s IH]; simpl; intros w Hw.
  - by apply list_elem_of_singleton in Hw as ->.
  - destruct (Ascii.eqb a c) eqn:Hac.
    + apply elem_of_cons in Hw as [->|Hw]; [done | by apply IH].
    + destruct (PyStr.split c s) as [|w' ws] eqn:Hsplit.
      * apply list_elem_of_singleton in Hw as ->. simpl. by rewrite Hac.
      * apply elem_of_cons in Hw as [->|Hw].
        -- simpl. rewrite Hac. apply IH. left.
        -- apply IH. by right.
Qed.

Lemma all_chars_replace_go (q : ascii → bool) (old new : string) (k : nat)
    (s : string) :
  PyStr.all_chars q new = true → PyStr.all_chars q s = true →
  PyStr.all_chars q (PyStr.replace_go old new k s) = true.
Proof.
  intros Hnew. revert k.
  induction s as [|a s IH]; intros k Hs; cbn [PyStr.replace_go]; [done|].
  simpl in Hs. apply andb_prop in Hs as [Ha Hs].
  destruct k as [|k]; [|by apply IH].
  destruct (String.prefix old (String a s)).
  - rewrite all_chars_app, Hnew. by apply IH.
  - cbn [PyStr.all_chars]. rewrite Ha. by apply IH.
Qed.

Lemma all_chars_replace (q : ascii → bool) (old new s : string) :
  PyStr.all_chars q new = true → PyStr.all_chars q s = true →
  PyStr.all_chars q (PyStr.replace old new s) = true.
Proof. apply all_chars_replace_go. Qed.

Lemma all_chars_leaf_code (raw : string) :
  PyStr.all_chars not_newline raw = true →
  PyStr.all_chars not_newline (leaf_code raw) = true.
Proof.
  intros Hraw. unfold leaf_code.
  repeat (apply all_chars_replace; [done|]).
  destruct (PyStr.split "]" raw) as [|w ws] eqn:Hsplit; [done|].
  simpl. apply (all_chars_split _ "]" raw); [done|]. rewrite Hsplit. left.
Qed.

Lemma prefix_drop (p s : string) :
  String.prefix p s = true → s = p +:+ PyStr.drop (String.length p) s.
Proof.
  revert s. induction p as [|a p IH]; intros s Hp; [by destruct s|].
  destruct s as [|b s]; simpl in Hp; [done|].
  destruct (ascii_dec a b) as [->|]; [|done].
  cbn [String.length PyStr.drop]. change (String b p +:+ ?x) with (String b (p +:+ x)).
  f_equal. by apply IH.
Qed.

Lemma prefix_app (p t : string) : String.prefix p (p +:+ t) = true.
Proof.
  induction p as [|a p IH]; [by destruct t|].
  change (String a p +:+ t) with (String a (p +:+ t)). simpl.
  by destruct (ascii_dec a a).
Qed.

Lemma drop_app (p t : string) : PyStr.drop (String.length p) (p +:+ t) = t.
Proof. induction p as [|a p IH]; [done|]. exact IH. Qed.

Lemma nocode_tail_chars (seen : bool) (s : string) :
  PyStr.all_chars not_newline s = true → nocode_tail seen s = true →
  PyStr.all_chars nocode_char s = true ∧ (seen = true ∨ s ≠ EmptyString).
Proof.
  revert seen. induction s as [|c s IH]; intros seen Hnl Ht; simpl in *.
  - auto.
  - apply andb_prop in Hnl as [Hc Hnl].
    destruct (nocode_char c).
    + destruct (IH true Hnl Ht) as [Hall _]. auto.
    + unfold not_newline in Hc. destruct (Ascii.eqb c newline); [done|].
      by rewrite andb_false_r in Ht.
Qed.

Lemma chars_nocode_tail (seen : bool) (s : string) :
  PyStr.all_chars nocode_char s = true → seen = true ∨ s ≠ EmptyString →
  nocode_tail seen s = true.
Proof.
  revert seen. induction s as [|c s IH]; intros seen Hall Hs; simpl in *.
  - by destruct Hs.
  - apply andb_prop in Hall as [-> Hall]. apply IH; auto.
Qed.

(** On a code without a newline the regular expression is the pattern. *)
Lemma NOCODE_PATTERN_match_form (code : string) :
  PyStr.all_chars not_newline code = true →
  NOCODE_PATTERN_match code = true ↔ nocode_form code.
Proof.
  intros Hnl. unfold NOCODE_PATTERN_match, PyStr.startswith. split.
  - intros [Hp Ht]%andb_prop. apply prefix_drop in Hp. simpl in Hp.
    rewrite Hp in Hnl. rewrite all_chars_app in Hnl.
    apply andb_prop in Hnl as [_ Hnl].
    destruct (nocode_tail_chars false _ Hnl Ht) as [Hall [?|Hne]]; [done|].
    by exists (PyStr.drop 7 code).
  - intros (t & -> & Hne & Hall).
    apply andb_true_intro. split; [apply prefix_app|].
    change 7%nat with (String.length "NOCODE_"). rewrite drop_app.
    apply chars_nocode_tail; auto.
Qed.

Lemma code_checks (code : string) :
  PyStr.all_chars not_newline code = true →
  PyStr.nonempty code && code_shape code = true ↔ well_formed_code code.
Proof.
  clear unescape glottocode parse_float session float.
  intros Hnl. unfold well_formed_code, code_shape.
  rewrite andb_true_iff, orb_true_iff, Nat.eqb_eq.
  rewrite (NOCODE_PATTERN_match_form code Hnl).
  destruct code; simpl; intuition congruence.
Qed.

Lemma leaf_line_raw (line name raw : string) :
  PyStr.all_chars not_newline line = true →
  PyStr.split "[" (PyStr.strip line) = [name; raw] →
  PyStr.all_chars not_newline (leaf_code raw) = true.
Proof.
  intros Hnl Hsplit. apply all_chars_leaf_code.
  apply (all_chars_split _ "[" (PyStr.strip line)).
  - by apply all_chars_strip.
  - rewrite Hsplit. right. left.
Qed.

Lemma leaf_line_Ok (line code name : string) :
  PyStr.all_chars not_newline line = true →
  leaf_line unescape line = Ok (code, name) → well_formed_code code.
Proof.
  intros Hnl. unfold leaf_line.
  destruct (PyStr.split "[" (PyStr.strip line)) as [|n [|raw [|]]] eqn:Hsplit;
    try discriminate.
  intros Hrun.
  apply bind_Ok in Hrun as (u1 & H1%assert_Ok & Hrun).
  apply bind_Ok in Hrun as (u2 & H2%assert_Ok & Hrun).
  injection Hrun as <- _.
  apply code_checks; [by eapply leaf_line_raw|]. by rewrite H1, H2.
Qed.

Lemma leaf_line_bad (line name raw : string) :
  PyStr.all_chars not_newline line = true →
  PyStr.split "[" (PyStr.strip line) = [name; raw] →
  ¬ well_formed_code (leaf_code raw) →
  leaf_line unescape line = Raise AssertionError.
Proof.
  intros Hnl Hsplit Hbad. unfold leaf_line. rewrite Hsplit.
  pose proof (code_checks (leaf_code raw) (leaf_line_raw _ _ _ Hnl Hsplit)) as Hc.
  destruct (PyStr.nonempty (leaf_code raw)); simpl; [|done].
  destruct (code_shape (leaf_code raw)); simpl; [|done].
  destruct Hbad. by apply Hc.
Qed.

Lemma lines_no_newline (fp line : string) :
  line ∈ PyStr.split newline fp → PyStr.all_chars not_newline line = true.
Proof. apply split_pieces. Qed.

(** Every code that the generator has stored so far is well formed. *)
Lemma split_step_codes (fp line : string) (st st' : split_state) :
  line ∈ PyStr.split newline fp →
  (∀ h L code, (st.1 = Some (h, L) ∨ Some (h, L) ∈ st.2) →
     is_Some (L !! code) → well_formed_code code) →
  split_step unescape st line = Ok st' →
  ∀ h L code, (st'.1 = Some (h, L) ∨ Some (h, L) ∈ st'.2) →
    is_Some (L !! code) → well_formed_code code.
Proof.
  intros Hline Hst. destruct st as [fam out]. unfold split_step.
  destruct (negb (PyStr.nonempty (PyStr.strip line))).
  { by intros [= <-]. }
  destruct (PyStr.startswith line "  ").
  - intros Hrun. apply bind_Ok in Hrun as ([code name] & Hleaf & Hrun).
    destruct fam as [[h0 L0]|]; [|done]. injection Hrun as <-.
    simpl. intros h L c [[= <- <-]|Hin] Hc.
    + destruct (decide (code = c)) as [<-|Hne].
      * eapply leaf_line_Ok; [|exact Hleaf]. by eapply lines_no_newline.
      * rewrite lookup_insert_ne in Hc by done.
        apply (Hst h0 L0 c); [by left | done].
    + apply (Hst h L c); [by right | done].
  - intros Hrun. apply bind_Ok in Hrun as (h0 & Hh & Hrun).
    injection Hrun as <-. simpl. intros h L c [[= <- <-]|Hin] Hc.
    + rewrite lookup_empty in Hc. by destruct Hc.
    + destruct fam as [f|]; [|apply (Hst h L c); [by right | done]].
      apply elem_of_app in Hin as [Hin|Hin].
      * apply (Hst h L c); [by right | done].
      * apply list_elem_of_singleton in Hin as [= <-].
        apply (Hst h L c); [by left | done].
Qed.

Lemma split_step_bad (line name raw : string) (st : split_state) :
  PyStr.all_chars not_newline line = true →
  PyStr.nonempty (PyStr.strip line) = true →
  PyStr.startswith line "  " = true →
  PyStr.split "[" (PyStr.strip line) = [name; raw] →
  ¬ well_formed_code (leaf_code raw) →
  split_step unescape st line = Raise AssertionError.
Proof.
  intros Hnl Hne Hsw Hsplit Hbad. destruct st as [fam out].
  unfold split_step. rewrite Hne, Hsw. simpl.
  by rewrite (leaf_line_bad line name raw).
Qed.

(** C5. Every code that [split_families] binds to a leaf — the text after
    the bracket with backslashes and quotes stripped and [NOCODE-] turned
    into [NOCODE_] — is non-empty and is either 3 characters long or of the
    form [NOCODE_[A-Za-z_-]+]; a text with a leaf line whose code is not so
    makes the parser raise, so that [parse_families] returns no maps and
    [main], whether the text is [lff.txt] or [lof.txt], raises and returns
    no output list. *)
Theorem codes_well_formed_or_fatal (fp : string) :
  (∀ fams h leafs code,
     split_families unescape fp = Ok fams → Some (h, leafs) ∈ fams →
     is_Some (leafs !! code) → well_formed_code code)
  ∧ (∀ line name raw,
       line ∈ PyStr.split newline fp →
       PyStr.nonempty (PyStr.strip line) = true →
       PyStr.startswith line "  " = true →
       PyStr.split "[" (PyStr.strip line) = [name; raw] →
       ¬ well_formed_code (leaf_code raw) →
       (∃ e, split_families unescape fp = Raise e)
       ∧ (∀ families languages,
            ∃ e, parse_families unescape fp families languages = Raise e)
       ∧ (∀ inp : inputs, in_lff inp = fp ∨ in_lof inp = fp →
            ∃ e, main unescape glottocode parse_float inp = Raise e)).
Proof.
  split.
  - intros fams h leafs code Hrun Hin Hcode. unfold split_families in Hrun.
    apply bind_Ok in Hrun as ([fam out] & Hfold & Hrun). injection Hrun as <-.
    assert (Hinv : ∀ h L code,
               ((fam, out).1 = Some (h, L) ∨ Some (h, L) ∈ (fam, out).2) →
               is_Some (L !! code) → well_formed_code code).
    { eapply (foldM_invariant
                (λ st, ∀ h L code, (st.1 = Some (h, L) ∨ Some (h, L) ∈ st.2) →
                       is_Some (L !! code) → well_formed_code code));
        [| |exact Hfold].
      - intros t x t' Hx Ht Hstep. by eapply split_step_codes.
      - simpl. intros ??? [?|Hnil]; [done|]. by apply elem_of_nil in Hnil. }
    apply (Hinv h leafs code); [|done]. simpl.
    apply elem_of_app in Hin as [Hin|Hin]; [by right|].
    apply list_elem_of_singleton in Hin. by left.
  - intros line name raw Hline Hne Hsw Hsplit Hbad.
    assert (Hsf : ∃ e, split_families unescape fp = Raise e).
    { destruct (foldM_raises (split_step unescape) (PyStr.split newline fp)
                  line (None, [])) as [e He]; [done| |].
      - intros t. exists AssertionError.
        eapply split_step_bad; eauto using lines_no_newline.
      - exists e. unfold split_families. by rewrite He. }
    destruct Hsf as [e He].
    assert (Hpf : ∀ families languages,
               parse_families unescape fp families languages = Raise e).
    { intros. unfold parse_families. by rewrite He. }
    split; [eauto|]. split; [eauto|].
    intros inp [Hlff|Hlof]; unfold main, run.
    + rewrite Hlff, Hpf. eauto.
    + destruct (parse_families unescape (in_lff inp) od_empty od_empty)
        as [[f l]|e1]; simpl; [|eauto].
      destruct (foldM collapse_step (od_keys f) (Collapsed f l ∅ ∅))
        as [co|e2]; simpl; [|eauto].
      destruct (foldM names_step (od_keys (co_families co)) ∅)
        as [names|e3]; simpl; [|eauto].
      rewrite Hlof, Hpf. eauto.
Qed.

(** ** The matcher *)

(** C4. When the leafset of some old nodes is the leafset of two branches
    of the new classification (it is a key of [rnodes] and of [urnodes]),
    more than two old nodes are an assertion failure; of exactly two, the
    one whose father is the other one goes to the branch of [urnodes] (the
    unclassified one) and the other to the branch of [rnodes]; and it is an
    assertion failure when neither node has the other one as father. *)
Theorem duplicate_leafset_pairing (leafs : list string) (nodes : list node)
    (rnodes urnodes : gmap (list string) (list string))
    (leafsets : list (gset string))
    (names : gmap string (list (list string))) (cp ucp : list string) :
  rnodes !! leafs = Some cp → urnodes !! leafs = Some ucp →
  ((2 < length nodes)%nat →
     match_nodes (float:=float) leafs nodes rnodes urnodes leafsets names
     = Raise AssertionError)
  ∧ ∀ n1 n2, nodes = [n1; n2] →
      (n_father n1 = Some (n_pk n2) →
         match_nodes (float:=float) leafs nodes rnodes urnodes leafsets names
         = Ok ([Mig (n_pk n2) (Some cp) None None;
                Mig (n_pk n1) (Some ucp) None None], []))
      ∧ (n_father n1 ≠ Some (n_pk n2) → n_father n2 = Some (n_pk n1) →
           match_nodes (float:=float) leafs nodes rnodes urnodes leafsets names
           = Ok ([Mig (n_pk n1) (Some cp) None None;
                  Mig (n_pk n2) (Some ucp) None None], []))
      ∧ (n_father n1 ≠ Some (n_pk n2) → n_father n2 ≠ Some (n_pk n1) →
           match_nodes (float:=float) leafs nodes rnodes urnodes leafsets names
           = Raise AssertionError).
Proof.
  intros Hr Hu. unfold match_nodes. rewrite Hr, Hu. split.
  - intros Hlen. unfold match_unclassified.
    destruct (length nodes <=? 2)%nat eqn:Hle; [|done].
    apply Nat.leb_le in Hle. lia.
  - intros n1 n2 ->. unfold match_unclassified. simpl. repeat split.
    + intros H1. rewrite (bool_decide_eq_true_2 _ H1). simpl.
      by rewrite (bool_decide_eq_true_2 _ H1).
    + intros H1 H2. rewrite (bool_decide_eq_false_2 _ H1). simpl.
      by rewrite (bool_decide_eq_true_2 _ H2).
    + intros H1 H2. rewrite (bool_decide_eq_false_2 _ H1). simpl.
      by rewrite (bool_decide_eq_false_2 _ H2).
Qed.

Lemma match_unclassified_pks (cp ucp : list string) (nodes : list node)
    (todo : list Migration) :
  match_unclassified cp ucp nodes = Ok (Some todo) →
  map m_pk todo ≡ₚ map n_pk nodes
  ∧ Forall (λ m, is_Some (m_hid m) ∧ m_pointer m = None) todo.
Proof.
  unfold match_unclassified. intros Hrun.
  apply bind_Ok in Hrun as (u & _ & Hrun).
  destruct nodes as [|n1 [|n2 [|]]]; try discriminate.
  destruct (negb (bool_decide (n_father n1 = Some (n_pk n2))));
    apply bind_Ok in Hrun as (u' & _ & Hrun); injection Hrun as <-; simpl.
  - split; [done | repeat constructor; eauto].
  - split; [apply perm_swap | repeat constructor; eauto].
Qed.

Lemma match_fallback_pk (leafs : list string) (leafset : gset string)
    (rnodes : gmap (list string) (list string)) (leafsets : list (gset string))
    (names : gmap string (list (list string))) (n : node)
    (r : Migration * list (event (float:=float))) :
  match_fallback leafs leafset rnodes leafsets names n = Ok r →
  m_pk r.1 = n_pk n ∧ m_hid r.1 = None.
Proof.
  unfold match_fallback, match_by_leafset. intros Hrun.
  repeat match type of Hrun with
  | context [match ?x with _ => _ end] => destruct x
  | (_ ≫= _) = Ok _ => apply bind_Ok in Hrun as (? & _ & Hrun)
  end; by injection Hrun as <-.
Qed.

(** C9. The list that [match_nodes] returns holds one [Migration] for each
    old node of the list it was given and no other: the pks of the
    migrations are the pks of the nodes, each as often as it is listed;
    and each migration either names the branch matched ([hid]), or is a
    retirement with a pointer, or a bare retirement. *)
Theorem match_nodes_one_migration_per_node (leafs : list string)
    (nodes : list node) (rnodes urnodes : gmap (list string) (list string))
    (leafsets : list (gset string))
    (names : gmap string (list (list string)))
    (todo : list Migration) (log : list (event (float:=float))) :
  match_nodes leafs nodes rnodes urnodes leafsets names = Ok (todo, log) →
  map m_pk todo ≡ₚ map n_pk nodes
  ∧ length todo = length nodes
  ∧ Forall (λ m, (is_Some (m_hid m) ∧ m_pointer m = None)
                 ∨ (m_hid m = None ∧ is_Some (m_pointer m))
                 ∨ (m_hid m = None ∧ m_pointer m = None)) todo.
Proof.
  intros Hrun.
  assert (Hmain : map m_pk todo ≡ₚ map n_pk nodes
            ∧ Forall (λ m, (is_Some (m_hid m) ∧ m_pointer m = None)
                 ∨ (m_hid m = None ∧ is_Some (m_pointer m))
                 ∨ (m_hid m = None ∧ m_pointer m = None)) todo).
  { unfold match_nodes in Hrun. destruct (rnodes !! leafs) as [cp|].
    - apply bind_Ok in Hrun as (special & Hsp & Hrun).
      destruct special as [td|].
      + injection Hrun as <- <-.
        destruct (urnodes !! leafs) as [ucp|]; [|done].
        apply match_unclassified_pks in Hsp as [Hp Hf]. split; [done|].
        eapply Forall_impl; [exact Hf|]. intros m Hm. by left.
      + apply bind_Ok in Hrun as (td & Hex & Hrun). injection Hrun as <- <-.
        unfold match_exact in Hex. destruct nodes as [|n0 others]; [done|].
        injection Hex as <-. simpl. split.
        * by rewrite map_map.
        * constructor; [left; simpl; eauto|].
          apply List.Forall_forall. intros m [n [<- _]]%in_map_iff.
          right; left; simpl; eauto.
    - destruct (if (10 <? length leafs)%nat
                then List.find (approx_ok leafs (list_to_set leafs)) leafsets
                else None) as [nleafset|].
      + apply bind_Ok in Hrun as (cp & _ & Hrun). injection Hrun as <- <-.
        split; [by rewrite map_map|].
        apply List.Forall_forall. intros m [n [<- _]]%in_map_iff.
        right; left; simpl; eauto.
      + apply bind_Ok in Hrun as (rs & Hrs%mapM_Ok & Hrun).
        injection Hrun as <- <-.
        induction Hrs as [|n r ns rs Hr Hrs IH]; [done|].
        destruct IH as [IHp IHf].
        destruct (match_fallback_pk _ _ _ _ _ _ _ Hr) as [Hpk Hhid].
        simpl. rewrite Hpk, IHp. split; [done|]. constructor; [|done].
        destruct (m_pointer r.1); [right; left | right; right]; eauto. }
  destruct Hmain as [Hp Hf]. split; [done|]. split; [|done].
  apply Permutation_length in Hp. by rewrite !length_map in Hp.
Qed.

Lemma approx_ok_spec (leafs : list string) (nleafset : gset string) :
  approx_ok leafs (list_to_set leafs) nleafset = true
  ↔ within_tolerance leafs nleafset.
Proof.
  unfold approx_ok, within_tolerance.
  change 10 with (Z.of_nat 10). rewrite <- Nat2Z.inj_div.
  rewrite andb_true_iff, orb_true_iff, !Z.leb_le. lia.
Qed.

(** What a loop that returns at the first hit finds. *)
Lemma find_first {A : Type} (f : A → bool) (pre post : list A) (x : A) :
  Forall (λ y, f y = false) pre → f x = true →
  List.find f (pre ++ x :: post) = Some x.
Proof.
  intros Hpre Hx. induction Hpre as [|y pre Hy _ IH]; simpl.
  - by rewrite Hx.
  - by rewrite Hy.
Qed.

Lemma find_split {A : Type} (f : A → bool) (l : list A) (x : A) :
  List.find f l = Some x →
  ∃ pre post, l = pre ++ x :: post ∧ f x = true
              ∧ Forall (λ y, f y = false) pre.
Proof.
  induction l as [|y l IH]; simpl; [done|].
  destruct (f y) eqn:Hy.
  - intros [= ->]. exists [], l. auto.
  - intros (pre & post & -> & Hx & Hpre)%IH.
    exists (y :: pre), post. auto.
Qed.

Lemma find_none_all {A : Type} (f : A → bool) (l : list A) :
  List.find f l = None ↔ Forall (λ y, f y = false) l.
Proof.
  induction l as [|y l IH]; simpl; [by split; [constructor|]|].
  destruct (f y) eqn:Hy.
  - split; [done|]. intros [Hy' _]%Forall_cons. congruence.
  - rewrite IH. split; [by constructor|]. by intros [_ ?]%Forall_cons.
Qed.

Global Instance shorter_trans : Transitive shorter.
Proof. unfold shorter. intros a b c. lia. Qed.

Global Instance shorter_total : Total shorter.
Proof. unfold shorter. intros a b. lia. Qed.

(** The leafsets of [main] are in ascending order of size. *)
Lemma leafsets_of_ascending (rnodes : gmap (list string) (list string)) :
  (∀ t, is_Some (rnodes !! t) → NoDup t) →
  StronglySorted (λ a b : gset string, (size a ≤ size b)%nat)
    (leafsets_of rnodes).
Proof.
  intros Hnd. unfold leafsets_of, sorted_by_len.
  assert (Hall : Forall NoDup (merge_sort shorter (map fst (map_to_list rnodes)))).
  { apply Forall_forall. intros t Ht.
    rewrite merge_sort_Permutation in Ht.
    apply list_elem_of_In, in_map_iff in Ht as ([t' b] & <- & Ht).
    apply list_elem_of_In, elem_of_map_to_list in Ht. apply Hnd. eauto. }
  pose proof (StronglySorted_merge_sort shorter (map fst (map_to_list rnodes)))
    as Hs.
  induction Hs as [|t l Hs IH Ht]; simpl; [constructor|].
  apply Forall_cons in Hall as [Hndt Hall].
  constructor; [by apply IH|].
  apply List.Forall_forall. intros s [t' [<- Hin]]%in_map_iff.
  assert (Hndt' : NoDup t').
  { rewrite Forall_forall in Hall. by apply Hall, list_elem_of_In. }
  rewrite !size_list_to_set by done.
  rewrite List.Forall_forall in Ht. by apply Ht.
Qed.

Lemma size_differences (a b : gset string) :
  (size a + size (b ∖ a) = size b + size (a ∖ b))%nat.
Proof.
  rewrite <- !size_union_alt. f_equal. apply (comm_L (∪)).
Qed.

(** A tuple as [main] makes the keys of [rnodes] is the sorted tuple of
    its own set. *)
Lemma sorted_tuple_list_to_set (t : list string) :
  canonical t → sorted_tuple (list_to_set t) = t.
Proof.
  clear unescape glottocode parse_float session float.
  intros [Hsorted Hnodup]. unfold sorted_tuple, sorted_strings.
  apply (Sorted_unique String.le); [apply Sorted_merge_sort, _ | done |].
  rewrite merge_sort_Permutation. by apply elements_list_to_set.
Qed.

Lemma leafsets_of_elem (rnodes : gmap (list string) (list string))
    (s : gset string) :
  s ∈ leafsets_of rnodes →
  ∃ t, is_Some (rnodes !! t) ∧ s = list_to_set t.
Proof.
  clear unescape glottocode parse_float session float.
  unfold leafsets_of, sorted_by_len.
  intros (t & -> & Ht)%list_elem_of_fmap.
  rewrite merge_sort_Permutation in Ht.
  apply list_elem_of_fmap in Ht as ([t' b] & -> & Hb%elem_of_map_to_list).
  exists t'. split; [eauto | done].
Qed.

Lemma leafsets_of_elem_iff (rnodes : gmap (list string) (list string))
    (s : gset string) :
  s ∈ leafsets_of rnodes
  ↔ ∃ t, is_Some (rnodes !! t) ∧ s = list_to_set t.
Proof.
  clear unescape glottocode parse_float session float.
  split; [apply leafsets_of_elem|].
  intros (t & [b Hb] & ->). unfold leafsets_of, sorted_by_len.
  apply list_elem_of_fmap. exists t. split; [done|].
  rewrite merge_sort_Permutation. apply list_elem_of_fmap.
  exists (t, b). split; [done|]. by apply elem_of_map_to_list.
Qed.

Lemma canonical_inj (t t' : list string) :
  canonical t → canonical t' →
  (list_to_set t : gset string) = list_to_set t' → t = t'.
Proof.
  clear unescape glottocode parse_float session float.
  intros Ht Ht' Heq.
  rewrite <- (sorted_tuple_list_to_set t), <- (sorted_tuple_list_to_set t')
    by done.
  by rewrite Heq.
Qed.

Lemma within_tolerance_not (leafs : list string) (l : list (gset string)) :
  Forall (λ s, ¬ within_tolerance leafs s) l →
  Forall (λ s, approx_ok leafs (list_to_set leafs) s = false) l.
Proof.
  clear unescape glottocode parse_float session float.
  intros Hl. eapply Forall_impl; [exact Hl|]. intros s Hs.
  destruct (approx_ok leafs (list_to_set leafs) s) eqn:Ha; [|done].
  by apply approx_ok_spec in Ha.
Qed.

(** C2. When the leafset of some old nodes has no exact match and more
    than 10 leaves, the leafsets of the new classification — the sets of
    the keys of [rnodes], in ascending order of size, as [main] builds the
    list — are scanned, and the first one is taken whose size differs from
    the old one's by at most a tenth of its own size, rounded down, and
    whose set difference with the old leafset, in at least one of the two
    directions, is within that same tolerance; every old node of the list
    is then retired with a pointer to the branch that [rnodes] holds for
    that leafset, and none is renamed.  So two old nodes with 20 leaves
    that differ from the leafset of a new branch by one element both get a
    pointer to one and the same branch: the branch of the first leafset of
    the scan that is within tolerance, which is that branch when no earlier
    leafset is. *)
Theorem approximate_match_first_within_tolerance (leafs : list string)
    (rnodes urnodes : gmap (list string) (list string))
    (names : gmap string (list (list string))) :
  let leafset : gset string := list_to_set leafs in
  rnodes !! leafs = None → (10 < length leafs)%nat →
  (∀ leafsets nodes pre post t cp,
     leafsets = pre ++ list_to_set t :: post →
     Forall (λ s, ¬ within_tolerance leafs s) pre →
     within_tolerance leafs (list_to_set t) →
     canonical t → rnodes !! t = Some cp →
     match_nodes (float:=float) leafs nodes rnodes urnodes leafsets names
     = Ok (map (λ n, Mig (n_pk n) None None (Some cp)) nodes, []))
  ∧ ((∀ t, is_Some (rnodes !! t) → canonical t) →
     (∀ s, s ∈ leafsets_of rnodes
           ↔ ∃ t, is_Some (rnodes !! t) ∧ s = list_to_set t)
     ∧ StronglySorted (λ a b : gset string, (size a ≤ size b)%nat)
         (leafsets_of rnodes)
     ∧ ∀ n1 n2 t cp,
         NoDup leafs → length leafs = 20%nat → rnodes !! t = Some cp →
         (size (leafset ∖ list_to_set t) ≤ 1)%nat →
         (size (list_to_set t ∖ leafset) ≤ 1)%nat →
         ∃ pre t' post cp',
           leafsets_of rnodes = pre ++ list_to_set t' :: post
           ∧ Forall (λ s, ¬ within_tolerance leafs s) pre
           ∧ within_tolerance leafs (list_to_set t')
           ∧ rnodes !! t' = Some cp'
           ∧ match_nodes (float:=float) leafs [n1; n2] rnodes urnodes
               (leafsets_of rnodes) names
             = Ok ([Mig (n_pk n1) None None (Some cp');
                    Mig (n_pk n2) None None (Some cp')], [])
           ∧ (∀ pre2 post2,
                leafsets_of rnodes = pre2 ++ list_to_set t :: post2 →
                Forall (λ s, ¬ within_tolerance leafs s) pre2 →
                t' = t ∧ cp' = cp)).
Proof.
  clear unescape glottocode parse_float session.
  intros leafset Hnone Hbig.
  assert (Hfirst : ∀ leafsets nodes pre post t cp,
     leafsets = pre ++ list_to_set t :: post →
     Forall (λ s, ¬ within_tolerance leafs s) pre →
     within_tolerance leafs (list_to_set t) →
     canonical t → rnodes !! t = Some cp →
     match_nodes (float:=float) leafs nodes rnodes urnodes leafsets names
     = Ok (map (λ n, Mig (n_pk n) None None (Some cp)) nodes, [])).
  { intros leafsets nodes pre post t cp -> Hpre Hok Ht Hcp.
    unfold match_nodes. rewrite Hnone.
    apply Nat.ltb_lt in Hbig. rewrite Hbig.
    rewrite (find_first _ pre post (list_to_set t)).
    - rewrite sorted_tuple_list_to_set by done.
      unfold getitem. by rewrite Hcp.
    - by apply within_tolerance_not.
    - by apply approx_ok_spec. }
  split; [exact Hfirst|]. intros Hcanon.
  split; [apply leafsets_of_elem_iff|]. split.
  { apply leafsets_of_ascending. intros t Ht. by apply Hcanon. }
  intros n1 n2 t cp Hnd Hlen Hcp Hd1 Hd2.
  assert (Hok : within_tolerance leafs (list_to_set t)).
  { unfold within_tolerance. fold leafset.
    pose proof (size_differences leafset (list_to_set t)) as Hsz.
    unfold leafset in Hsz at 1. rewrite size_list_to_set in Hsz by done.
    assert (19 ≤ size (list_to_set t : gset string) ≤ 21)%nat as Hrange
      by lia.
    assert (1 ≤ size (list_to_set t : gset string) / 10)%nat as Hq.
    { apply Nat.div_le_lower_bound; lia. }
    cbv zeta. lia. }
  assert (Hin : (list_to_set t : gset string) ∈ leafsets_of rnodes).
  { apply leafsets_of_elem_iff. exists t. eauto. }
  destruct (List.find (approx_ok leafs leafset) (leafsets_of rnodes))
    as [s|] eqn:Hfind.
  2: { apply find_none_all in Hfind. rewrite Forall_forall in Hfind.
       specialize (Hfind _ Hin). apply approx_ok_spec in Hok.
       unfold leafset in Hfind. congruence. }
  apply find_split in Hfind as (pre & post & Hl & Hs & Hpre).
  assert (Hs_in : s ∈ leafsets_of rnodes).
  { rewrite Hl. apply elem_of_app. right. left. }
  apply leafsets_of_elem in Hs_in as (t' & [cp' Hcp'] & ->).
  assert (Hpre' : Forall (λ s', ¬ within_tolerance leafs s') pre).
  { eapply Forall_impl; [exact Hpre|]. intros s' Hs' Hw.
    apply approx_ok_spec in Hw. unfold leafset in Hs'. congruence. }
  exists pre, t', post, cp'. split; [done|]. split; [done|].
  split; [by apply approx_ok_spec|]. split; [done|]. split.
  - apply (Hfirst _ [n1; n2] pre post t' cp'); eauto.
    by apply approx_ok_spec.
  - intros pre2 post2 Hl2 Hpre2.
    pose proof (find_first (approx_ok leafs leafset) pre2 post2
                  (list_to_set t) (within_tolerance_not _ _ Hpre2)
                  (proj2 (approx_ok_spec _ _) Hok)) as Hf2.
    pose proof (find_first (approx_ok leafs leafset) pre post
                  (list_to_set t') Hpre Hs) as Hf1.
    rewrite <- Hl2 in Hf2. rewrite <- Hl, Hf2 in Hf1.
    injection Hf1 as Heq.
    assert (t' = t) as ->.
    { apply canonical_inj; eauto. }
    split; [done | congruence].
Qed.

Lemma set_truthy_Some (s : gset string) : set_truthy (Some s) = true ↔ s ≠ ∅.
Proof.
  unfold set_truthy. rewrite negb_true_iff, bool_decide_eq_false. done.
Qed.

(** The loop for the biggest intersection keeps the first leafset whose
    intersection with [leafset] is biggest. *)
Lemma biggest_intersection_loop (leafset acc : gset string)
    (leafsets : list (gset string)) :
  let r := foldl (λ max_intersection nleafset,
                    if (size (leafset ∩ max_intersection)
                        <? size (nleafset ∩ leafset))%nat
                    then nleafset else max_intersection) acc leafsets in
  (r = acc ∨ r ∈ leafsets)
  ∧ (size (leafset ∩ acc) ≤ size (leafset ∩ r))%nat
  ∧ ∀ s, s ∈ leafsets → (size (s ∩ leafset) ≤ size (leafset ∩ r))%nat.
Proof.
  revert acc. induction leafsets as [|x l IH]; intros acc; simpl.
  - split; [by left|]. split; [done|]. by intros s ?%elem_of_nil.
  - destruct (size (leafset ∩ acc) <? size (x ∩ leafset))%nat eqn:Hlt.
    + apply Nat.ltb_lt in Hlt. destruct (IH x) as (Hr & Hacc & Hall).
      rewrite (comm_L (∩) leafset x) in Hacc.
      split; [destruct Hr as [->|Hr]; right; [left | by right]|].
      split; [lia|].
      intros s [->|Hs]%elem_of_cons; [done | by apply Hall].
    + apply Nat.ltb_ge in Hlt. destruct (IH acc) as (Hr & Hacc & Hall).
      split; [destruct Hr as [->|Hr]; [by left | right; by right]|].
      split; [done|].
      intros s [->|Hs]%elem_of_cons; [lia | by apply Hall].
Qed.

Lemma biggest_intersection_spec (leafset : gset string)
    (leafsets : list (gset string)) :
  let m := biggest_intersection leafset leafsets in
  (m = ∅ ∨ m ∈ leafsets)
  ∧ ∀ s, s ∈ leafsets → (size (s ∩ leafset) ≤ size (m ∩ leafset))%nat.
Proof.
  intros m.
  destruct (biggest_intersection_loop leafset ∅ leafsets) as (Hr & _ & Hall).
  split; [exact Hr|]. intros s Hs.
  rewrite (comm_L (∩) m leafset). by apply Hall.
Qed.

(** The loop for the biggest intersection keeps the first leafset whose
    intersection is biggest, when one is bigger than that of the start. *)
Lemma biggest_intersection_first (leafset acc : gset string)
    (leafsets : list (gset string)) :
  let r := foldl (λ max_intersection nleafset,
                    if (size (leafset ∩ max_intersection)
                        <? size (nleafset ∩ leafset))%nat
                    then nleafset else max_intersection) acc leafsets in
  (r = acc
   ∧ ∀ s, s ∈ leafsets → (size (s ∩ leafset) ≤ size (leafset ∩ acc))%nat)
  ∨ ∃ pre post,
      leafsets = pre ++ r :: post
      ∧ (size (leafset ∩ acc) < size (r ∩ leafset))%nat
      ∧ (∀ s, s ∈ pre → (size (s ∩ leafset) < size (r ∩ leafset))%nat)
      ∧ (∀ s, s ∈ post → (size (s ∩ leafset) ≤ size (r ∩ leafset))%nat).
Proof.
  clear unescape glottocode parse_float session float.
  revert acc. induction leafsets as [|x l IH]; intros acc; simpl.
  { left. split; [done|]. by intros s ?%elem_of_nil. }
  destruct (size (leafset ∩ acc) <? size (x ∩ leafset))%nat eqn:Hlt.
  - apply Nat.ltb_lt in Hlt. right.
    pose proof (IH x) as IHx. cbv zeta in IHx.
    set (r := foldl _ x l) in *.
    destruct IHx as [[Hr Hall] | (pre & post & Hl & Hacc & Hpre & Hpost)].
    + exists [], l. rewrite Hr. split; [done|]. split; [done|].
      split; [by intros s ?%elem_of_nil|].
      intros s Hs. rewrite (comm_L (∩) x leafset). by apply Hall.
    + rewrite (comm_L (∩) leafset x) in Hacc.
      exists (x :: pre), post. split; [simpl; by f_equal|]. split; [lia|].
      split; [|done].
      intros s [-> | Hs]%elem_of_cons; [done | by apply Hpre].
  - apply Nat.ltb_ge in Hlt.
    pose proof (IH acc) as IHa. cbv zeta in IHa.
    set (r := foldl _ acc l) in *.
    destruct IHa as [[Hr Hall] | (pre & post & Hl & Hacc & Hpre & Hpost)].
    + left. split; [done|].
      intros s [-> | Hs]%elem_of_cons; [done | by apply Hall].
    + right. exists (x :: pre), post. split; [simpl; by f_equal|].
      split; [done|]. split; [|done].
      intros s [-> | Hs]%elem_of_cons; [lia | by apply Hpre].
Qed.

Lemma biggest_intersection_shared (leafset : gset string)
    (leafsets : list (gset string)) :
  (∃ s, s ∈ leafsets ∧ s ∩ leafset ≠ ∅) →
  let m := biggest_intersection leafset leafsets in
  m ≠ ∅
  ∧ ∃ pre post,
      leafsets = pre ++ m :: post
      ∧ (∀ s, s ∈ pre → (size (s ∩ leafset) < size (m ∩ leafset))%nat)
      ∧ (∀ s, s ∈ post → (size (s ∩ leafset) ≤ size (m ∩ leafset))%nat).
Proof.
  clear unescape glottocode parse_float session float.
  intros (s & Hs & Hshare) m.
  destruct (biggest_intersection_first leafset ∅ leafsets)
    as [[_ Hall] | (pre & post & Hl & Hacc & Hpre & Hpost)].
  - specialize (Hall s Hs).
    rewrite (right_absorb_L ∅ (∩)), size_empty in Hall.
    destruct Hshare. apply leibniz_equiv, size_empty_inv. lia.
  - fold (biggest_intersection leafset leafsets) in Hl, Hacc, Hpre, Hpost.
    fold m in Hl, Hacc, Hpre, Hpost. split; [|eauto].
    intros Hm. rewrite Hm, (left_absorb_L ∅ (∩)), size_empty in Hacc. lia.
Qed.

Lemma biggest_intersection_none (leafset : gset string)
    (leafsets : list (gset string)) :
  (∀ s, s ∈ leafsets → s ∩ leafset = ∅) →
  biggest_intersection leafset leafsets = ∅.
Proof.
  clear unescape glottocode parse_float session float.
  intros Hnone.
  destruct (biggest_intersection_first leafset ∅ leafsets)
    as [[Hr _] | (pre & post & Hl & Hacc & _)]; [done|].
  fold (biggest_intersection leafset leafsets) in Hl, Hacc.
  rewrite (Hnone (biggest_intersection leafset leafsets)), size_empty in Hacc;
    [lia|].
  rewrite Hl at 2. apply elem_of_app. right. left.
Qed.

Lemma match_fallback_by_leafset (leafs : list string) (leafset : gset string)
    (rnodes : gmap (list string) (list string)) (leafsets : list (gset string))
    (names : gmap string (list (list string))) (n : node) :
  (∀ b, names !! n_name n ≠ Some [b]) →
  match_fallback (float:=float) leafs leafset rnodes leafsets names n
  = match_by_leafset leafs leafset rnodes leafsets n.
Proof.
  intros Hn. unfold match_fallback.
  destruct (names !! n_name n) as [[|b [|b' bs]]|]; try done.
  by destruct (Hn b).
Qed.

(** C3. For a leafset with neither an exact nor an approximate match, each
    old node of the list is handled on its own, in this order: a name that
    is the name of exactly one family of the new classification gives a
    pointer to that family; otherwise the first leafset of the scan that
    holds the old leafset — the smallest such, the scan being in ascending
    order of size — gives the pointer to its branch; failing that, the
    first of the leafsets that share the most leafs with the old one; and
    when no leafset of the new classification shares a leaf with the old
    one, the node is retired without a pointer, which is printed and
    returns normally: [match_nodes] then returns the bare retirements of
    all nodes. *)
Theorem fallback_order (leafs : list string) (nodes : list node)
    (rnodes urnodes : gmap (list string) (list string))
    (leafsets : list (gset string))
    (names : gmap string (list (list string))) :
  let leafset : gset string := list_to_set leafs in
  rnodes !! leafs = None → leafs ≠ [] →
  ((length leafs ≤ 10)%nat
   ∨ Forall (λ s, ¬ within_tolerance leafs s) leafsets) →
  match_nodes (float:=float) leafs nodes rnodes urnodes leafsets names
  = (rs ← mapM (match_fallback leafs leafset rnodes leafsets names) nodes;
     Ok (map fst rs, concat (map snd rs)))
  ∧ (∀ n : node,
      (∀ b, names !! n_name n = Some [b] →
         match_fallback (float:=float) leafs leafset rnodes leafsets names n
         = Ok (Mig (n_pk n) None None (Some b), []))
      ∧ ((∀ b, names !! n_name n ≠ Some [b]) →
         (∀ pre t post cp,
            leafsets = pre ++ list_to_set t :: post →
            Forall (λ s', ¬ leafset ⊆ s') pre → leafset ⊆ list_to_set t →
            canonical t → rnodes !! t = Some cp →
            match_fallback (float:=float) leafs leafset rnodes leafsets names n
            = Ok (Mig (n_pk n) None None (Some cp), [])
            ∧ (StronglySorted (λ a b : gset string, (size a ≤ size b)%nat)
                 leafsets →
               ∀ s', s' ∈ leafsets → leafset ⊆ s' →
                 (size (list_to_set t : gset string) ≤ size s')%nat))
         ∧ (Forall (λ s', ¬ leafset ⊆ s') leafsets →
            (∃ s, s ∈ leafsets ∧ s ∩ leafset ≠ ∅) →
            ∃ pre m post,
              leafsets = pre ++ m :: post
              ∧ (∀ s', s' ∈ pre →
                   (size (s' ∩ leafset) < size (m ∩ leafset))%nat)
              ∧ (∀ s', s' ∈ post →
                   (size (s' ∩ leafset) ≤ size (m ∩ leafset))%nat)
              ∧ ∀ t cp,
                  m = list_to_set t → canonical t → rnodes !! t = Some cp →
                  match_fallback (float:=float) leafs leafset rnodes leafsets
                    names n
                  = Ok (Mig (n_pk n) None None (Some cp), []))
         ∧ ((∀ s, s ∈ leafsets → s ∩ leafset = ∅) →
            match_fallback (float:=float) leafs leafset rnodes leafsets
              names n
            = Ok (Mig (n_pk n) None None None, [PrintMissed n leafs]))))
  ∧ ((∀ n b, n ∈ nodes → names !! n_name n ≠ Some [b]) →
     (∀ s, s ∈ leafsets → s ∩ leafset = ∅) →
     match_nodes (float:=float) leafs nodes rnodes urnodes leafsets names
     = Ok (map (λ n, Mig (n_pk n) None None None) nodes,
           map (λ n, PrintMissed n leafs) nodes)).
Proof.
  clear unescape glottocode parse_float session.
  intros leafset Hnone Hne Hscan.
  assert (Hmatch :
    match_nodes (float:=float) leafs nodes rnodes urnodes leafsets names
    = (rs ← mapM (match_fallback leafs leafset rnodes leafsets names) nodes;
       Ok (map fst rs, concat (map snd rs)))).
  { unfold match_nodes. rewrite Hnone. fold leafset.
    destruct (10 <? length leafs)%nat eqn:Hbig; [|done].
    destruct Hscan as [Hle|Hall]; [apply Nat.ltb_lt in Hbig; lia|].
    assert (List.find (approx_ok leafs leafset) leafsets = None) as ->;
      [|done].
    apply find_none_all. by apply within_tolerance_not. }
  assert (Hleafset : leafset ≠ ∅).
  { destruct leafs as [|x xs]; [done|]. apply (non_empty_inhabited_L x).
    apply elem_of_list_to_set. left. }
  assert (Hbare : ∀ n,
    (∀ b, names !! n_name n ≠ Some [b]) →
    (∀ s, s ∈ leafsets → s ∩ leafset = ∅) →
    match_fallback (float:=float) leafs leafset rnodes leafsets names n
    = Ok (Mig (n_pk n) None None None, [PrintMissed n leafs])).
  { intros n Hname Hshare.
    rewrite (match_fallback_by_leafset _ _ _ _ _ _ Hname).
    unfold match_by_leafset.
    assert (smallest_superset leafset leafsets = None) as ->.
    { apply find_none_all, Forall_forall. intros s Hs.
      apply bool_decide_eq_false. intros Hsub. apply Hleafset.
      rewrite <- (Hshare s Hs), (comm_L (∩) s leafset).
      symmetry. by apply subseteq_intersection_1_L. }
    rewrite (biggest_intersection_none _ _ Hshare).
    change (set_truthy None) with false. cbv iota.
    assert (set_truthy (Some (∅ : gset string)) = false) as ->; [|done].
    unfold set_truthy. by rewrite bool_decide_eq_true_2. }
  split; [exact Hmatch|]. split.
  2: { intros Hnames Hshare. rewrite Hmatch.
    assert (Hall : mapM (match_fallback (float:=float) leafs leafset rnodes
                           leafsets names) nodes
                   = Ok (map (λ n, (Mig (n_pk n) None None None,
                                    [PrintMissed n leafs])) nodes)).
    { clear Hmatch. induction nodes as [|n ns IH]; [done|].
      cbn [mapM map]. rewrite Hbare.
      - rewrite IH; [done|]. intros n' b Hn'. apply Hnames. by right.
      - intros b. apply Hnames. by left.
      - done. }
    rewrite Hall. cbn [mbind res_bind]. f_equal. f_equal.
    - by rewrite map_map.
    - clear. induction nodes as [|n ns IH]; [done|].
      cbn [map concat app]. by rewrite IH. }
  intros n. split.
  { intros b Hb. unfold match_fallback. by rewrite Hb. }
  intros Hname. split; [|split; [|by apply Hbare]].
  - intros pre t post cp Hl Hpre Hs Ht Hcp. split.
    + rewrite (match_fallback_by_leafset _ _ _ _ _ _ Hname).
      unfold match_by_leafset, smallest_superset. rewrite Hl.
      rewrite (find_first _ pre post (list_to_set t)).
      * assert (Htr : set_truthy (Some (list_to_set t : gset string)) = true).
        { apply set_truthy_Some. intros Heq. apply Hleafset.
          rewrite Heq in Hs. apply leibniz_equiv. by apply equiv_empty. }
        cbv zeta. rewrite !Htr.
        rewrite sorted_tuple_list_to_set by done.
        unfold getitem. by rewrite Hcp.
      * eapply Forall_impl; [exact Hpre|]. intros s' Hs'.
        by apply bool_decide_eq_false.
      * by apply bool_decide_eq_true.
    + intros Hsorted s' Hs' Hsub. rewrite Hl in Hsorted, Hs'.
      apply elem_of_app in Hs' as [Hs'|Hs'].
      * rewrite Forall_forall in Hpre. by destruct (Hpre s' Hs').
      * apply elem_of_cons in Hs' as [->|Hs']; [done|].
        apply StronglySorted_app_1_r in Hsorted.
        apply StronglySorted_inv in Hsorted as [_ Hhd].
        rewrite Forall_forall in Hhd. by apply Hhd.
  - intros Hnosup Hshare.
    destruct (biggest_intersection_shared leafset leafsets Hshare)
      as (Hm0 & pre & post & Hl & Hpre & Hpost).
    set (m := biggest_intersection leafset leafsets) in *.
    exists pre, m, post. split; [done|]. split; [done|]. split; [done|].
    intros t cp Hmt Ht Hcp.
    rewrite (match_fallback_by_leafset _ _ _ _ _ _ Hname).
    unfold match_by_leafset.
    assert (smallest_superset leafset leafsets = None) as ->.
    { apply find_none_all. eapply Forall_impl; [exact Hnosup|].
      intros s' Hs'. by apply bool_decide_eq_false. }
    fold m. change (set_truthy None) with false. cbv iota.
    rewrite !(proj2 (set_truthy_Some m) Hm0).
    rewrite Hmt, sorted_tuple_list_to_set by done.
    unfold getitem. by rewrite Hcp.
Qed.

(** ** [parse_families] *)

Lemma foldl_invariant {A S : Type} (P : S → Prop) (f : S → A → S)
    (l : list A) (s : S) :
  (∀ t x, x ∈ l → P t → P (f t x)) → P s → P (foldl f s l).
Proof.
  revert s. induction l as [|x l IH]; intros s Hstep Hs; simpl; [done|].
  apply IH.
  - intros t y Hy. apply Hstep. by right.
  - apply Hstep; [left | done].
Qed.

Lemma foldM_parse_family (fams : list (option family))
    (st st' : families_t * languages_t) :
  foldM parse_family fams st = Ok st' →
  ∃ fs, fams = map Some fs ∧ st' = foldl parse_step st fs.
Proof.
  revert st. induction fams as [|[[h L]|] fams IH]; intros st Hrun; simpl in *.
  - injection Hrun as <-. by exists [].
  - destruct (IH _ Hrun) as (fs & -> & ->). by exists ((h, L) :: fs).
  - done.
Qed.

Lemma foldM_parse_step (fs : list family) (st : families_t * languages_t) :
  foldM parse_family (map Some fs) st = Ok (foldl parse_step st fs).
Proof.
  revert st. induction fs as [|[h L] fs IH]; intros st; simpl; [done|].
  apply IH.
Qed.

Lemma parse_families_steps (fp : string) (families : families_t)
    (languages : languages_t) (st' : families_t * languages_t) :
  parse_families unescape fp families languages = Ok st' ↔
  ∃ fs, split_families unescape fp = Ok (map Some fs)
        ∧ st' = foldl parse_step (families, languages) fs.
Proof.
  unfold parse_families. split.
  - intros (fams & Hsplit & Hrun)%bind_Ok.
    apply foldM_parse_family in Hrun as (fs & -> & ->). eauto.
  - intros (fs & -> & ->). simpl. apply foldM_parse_step.
Qed.

Lemma foldl_parse_step (fs : list family) (st : families_t * languages_t) :
  foldl parse_step st fs
  = (foldl families_step st.1 fs,
     foldl (λ ls f, record_leafs f.1 f.2 ls) st.2 fs).
Proof.
  revert st. induction fs as [|f fs IH]; intros [F G]; simpl; [done|].
  by rewrite IH.
Qed.

Lemma families_step_lookup (families : families_t) (f : family)
    (p : list string) :
  od_map (families_step families f) !! p
  = if decide (p ≠ [] ∧ p `prefix_of` f.1.1.1)
    then Some (f.2 ∪ default ∅ (od_map families !! p))
    else od_map families !! p.
Proof. apply families_loop_lookup. Qed.

(** The mapping of [families] after the families of a text. *)
Lemma families_steps_lookup (fs : list family) (families : families_t)
    (p : list string) :
  od_map (foldl families_step families fs) !! p
  = match added_below p fs with
    | Some a => Some (a ∪ default ∅ (od_map families !! p))
    | None => od_map families !! p
    end.
Proof.
  revert families. induction fs as [|f fs IH]; intros families; simpl; [done|].
  rewrite IH, families_step_lookup.
  destruct (decide (p ≠ [] ∧ p `prefix_of` f.1.1.1)); [|done].
  destruct (added_below p fs) as [later|]; simpl; [|done].
  by rewrite (assoc_L (∪)).
Qed.

Lemma added_below_Some (fs : list family) (f : family) (p : list string) :
  f ∈ fs → p ≠ [] → p `prefix_of` f.1.1.1 →
  ∃ a, added_below p fs = Some a ∧ dom f.2 ⊆ dom a.
Proof.
  clear unescape glottocode parse_float session float.
  intros Hin Hne Hp. induction fs as [|g fs IH]; [by apply elem_of_nil in Hin|].
  simpl. apply elem_of_cons in Hin as [<-|Hin].
  - rewrite decide_True by done.
    destruct (added_below p fs) as [later|]; eexists; split; try done.
    rewrite dom_union. set_solver.
  - destruct (IH Hin) as (a & -> & Ha).
    destruct (decide (p ≠ [] ∧ p `prefix_of` g.1.1.1)); [|eauto].
    eexists; split; [done|]. rewrite dom_union. set_solver.
Qed.

Lemma families_steps_keys (fs : list family) (families : families_t) :
  (∀ f p, f ∈ fs → p ≠ [] → p `prefix_of` f.1.1.1 →
     is_Some (od_map families !! p)) →
  od_keys (foldl families_step families fs) = od_keys families.
Proof.
  revert families. induction fs as [|f fs IH]; intros families Hp; simpl; [done|].
  rewrite IH.
  - apply families_loop_keys. intros i Hi%elem_of_seq.
    apply (Hp f); [left| |apply prefix_take].
    destruct (f.1.1.1); simpl in *; [lia | done].
  - intros g p Hg Hne Hpre. apply families_loop_present.
    apply (Hp g); [by right | done | done].
Qed.

Lemma languages_steps_map (fs : list family) (languages : languages_t) :
  od_map (foldl (λ ls f, record_leafs f.1 f.2 ls) languages fs)
  = recorded fs ∪ od_map languages.
Proof.
  revert languages. induction fs as [|f fs IH]; intros languages; simpl.
  - by rewrite (left_id_L ∅ (∪)).
  - by rewrite IH, od_map_record_leafs, (assoc_L (∪)).
Qed.

Lemma recorded_dom (fs : list family) (f : family) :
  f ∈ fs → dom f.2 ⊆ dom (recorded fs).
Proof.
  clear unescape glottocode parse_float session float.
  intros Hin. induction fs as [|g fs IH]; [by apply elem_of_nil in Hin|].
  simpl. rewrite dom_union, dom_fmap.
  apply elem_of_cons in Hin as [<-|Hin]; [set_solver|].
  specialize (IH Hin). set_solver.
Qed.

Lemma languages_steps_keys (fs : list family) (languages : languages_t) :
  (∀ f, f ∈ fs → dom f.2 ⊆ dom (od_map languages)) →
  od_keys (foldl (λ ls f, record_leafs f.1 f.2 ls) languages fs)
  = od_keys languages.
Proof.
  clear unescape glottocode parse_float session float.
  revert languages. induction fs as [|f fs IH]; intros languages Hd; simpl; [done|].
  rewrite IH.
  - apply od_keys_record_leafs, Hd. left.
  - intros g Hg. rewrite od_map_record_leafs, dom_union.
    specialize (Hd g). set_solver.
Qed.

(** C8. Parsing a text a second time, into the maps that parsing it has
    filled, leaves both maps as they are: the same keys in the same order
    with the same values. *)
Theorem parse_families_idempotent (fp : string) (families : families_t)
    (languages : languages_t) (families' : families_t)
    (languages' : languages_t) :
  parse_families unescape fp families languages = Ok (families', languages') →
  parse_families unescape fp families' languages'
  = Ok (families', languages').
Proof.
  clear glottocode parse_float session float.
  intros (fs & Hsplit & Hst)%parse_families_steps.
  apply parse_families_steps. exists fs. split; [done|].
  rewrite foldl_parse_step in Hst. injection Hst as -> ->.
  rewrite foldl_parse_step. cbn [fst snd]. f_equal.
  - symmetry. apply od_eq.
    + apply families_steps_keys. intros f p Hf Hne Hp.
      rewrite families_steps_lookup.
      destruct (added_below_Some fs f p Hf Hne Hp) as (a & -> & _). eauto.
    + apply map_eq. intros p. rewrite !families_steps_lookup.
      destruct (added_below p fs) as [a|]; [|done]. simpl.
      by rewrite (assoc_L (∪)), (idemp_L (∪)).
  - symmetry. apply od_eq.
    + apply languages_steps_keys. intros f Hf.
      rewrite languages_steps_map, dom_union.
      pose proof (recorded_dom fs f Hf). set_solver.
    + rewrite !languages_steps_map.
      by rewrite (assoc_L (∪)), (idemp_L (∪)).
Qed.

Lemma ancestors_hold_step (families : families_t) (f : family) :
  ancestors_hold (od_map families) →
  ancestors_hold (od_map (families_step families f)).
Proof.
  clear unescape glottocode parse_float session float.
  intros Hinv b Lb p Hb Hne Hp. rewrite families_step_lookup in Hb.
  rewrite families_step_lookup.
  destruct (decide (b ≠ [] ∧ b `prefix_of` f.1.1.1)) as [[Hbne Hbp]|Hnb].
  - injection Hb as <-. rewrite decide_True by (split; [done | by etrans]).
    eexists; split; [done|]. rewrite !dom_union.
    destruct (od_map families !! b) as [Lb0|] eqn:Hb0; simpl.
    + destruct (Hinv b Lb0 p Hb0 Hne Hp) as (Lp0 & -> & Hsub). simpl.
      set_solver.
    + rewrite dom_empty. set_solver.
  - destruct (Hinv b Lb p Hb Hne Hp) as (Lp0 & Hp0 & Hsub). rewrite Hp0.
    destruct (decide (p ≠ [] ∧ p `prefix_of` f.1.1.1)); simpl.
    + eexists; split; [done|]. rewrite dom_union. set_solver.
    + eauto.
Qed.

Lemma names_agree_step (names : gmap string string) (families : families_t)
    (f : family) :
  names_agree names (od_map families) → f.2 ⊆ names →
  names_agree names (od_map (families_step families f)).
Proof.
  intros Hinv Hf p Lp Hp. rewrite families_step_lookup in Hp.
  destruct (decide (p ≠ [] ∧ p `prefix_of` f.1.1.1)); [|by eapply Hinv].
  injection Hp as <-. apply map_union_least; [done|].
  destruct (od_map families !! p) as [Lp0|] eqn:Hp0; simpl.
  - by eapply Hinv.
  - apply map_empty_subseteq.
Qed.

Lemma submap_by_names (a b names : gmap string string) :
  dom a ⊆ dom b → a ⊆ names → b ⊆ names → a ⊆ b.
Proof.
  intros Hdom Ha Hb. apply map_subseteq_spec. intros code name Hcode.
  assert (Hin : code ∈ dom b) by (apply Hdom, elem_of_dom; eauto).
  apply elem_of_dom in Hin as [name' Hcode'].
  rewrite map_subseteq_spec in Ha, Hb.
  specialize (Ha _ _ Hcode). specialize (Hb _ _ Hcode'). congruence.
Qed.

(** C7, as the code has it.  After [parse_families] has processed a text —
    into maps in which ancestor inclusion of the codes holds, the empty
    maps for one — [families] has, for every parsed branch [b] and every
    non-empty prefix [p] of [b], an entry for [p] and one for [b]; the
    entry for [b] holds every code of the leafs parsed under [b], and the
    entry for [p] holds every code of the entry for [b].  The names agree
    as well, so that the leaf map of [p] contains every (code, name) entry
    of the leaf map of [b], when no code is listed under two names: when
    all leaf maps of the text and of the maps at the start give a code the
    same name. *)
Theorem ancestor_inclusion (fp : string) (families : families_t)
    (languages : languages_t) (families' : families_t)
    (languages' : languages_t) :
  ancestors_hold (od_map families) →
  parse_families unescape fp families languages = Ok (families', languages') →
  ∀ fams h L p,
    split_families unescape fp = Ok fams → Some (h, L) ∈ fams →
    p ≠ [] → p `prefix_of` h.1.1 →
    ∃ Lp Lb,
      od_get families' p = Some Lp ∧ od_get families' h.1.1 = Some Lb
      ∧ dom L ⊆ dom Lb ∧ dom Lb ⊆ dom Lp
      ∧ ∀ names,
          names_agree names (od_map families) →
          (∀ h' L', Some (h', L') ∈ fams → L' ⊆ names) →
          L ⊆ Lb ∧ Lb ⊆ Lp.
Proof.
  clear glottocode parse_float session float.
  intros Hinv (fs & Hsplit & Hst)%parse_families_steps fams h L p Hfams Hin
    Hne Hp.
  rewrite Hsplit in Hfams. injection Hfams as <-.
  rewrite foldl_parse_step in Hst. injection Hst as -> _.
  apply list_elem_of_In, in_map_iff in Hin as (f & [= ->] & Hf%list_elem_of_In).
  assert (Hb : h.1.1 ≠ []).
  { intros Hnil. rewrite Hnil in Hp. by apply prefix_nil_inv in Hp. }
  assert (Hinv' : ancestors_hold (od_map (foldl families_step families fs))).
  { apply (foldl_invariant (λ F, ancestors_hold (od_map F))); [|done].
    intros t x _. apply ancestors_hold_step. }
  unfold od_get.
  destruct (added_below_Some fs (h, L) h.1.1 Hf Hb) as (a & Ha & HLa); [done|].
  pose proof (families_steps_lookup fs families h.1.1) as Hlb.
  rewrite Ha in Hlb.
  destruct (Hinv' _ _ p Hlb Hne Hp) as (Lp & HLp & Hsub).
  exists Lp, (a ∪ default ∅ (od_map families !! h.1.1)).
  assert (HLb : dom L ⊆ dom (a ∪ default ∅ (od_map families !! h.1.1))).
  { rewrite dom_union. simpl in HLa. set_solver. }
  split; [done|]. split; [done|]. split; [done|]. split; [done|].
  intros names Hnames Hfs.
  assert (Hnames' : names_agree names
                      (od_map (foldl families_step families fs))).
  { apply (foldl_invariant (λ F, names_agree names (od_map F))); [|done].
    intros t [h' L'] Hx Ht. apply names_agree_step; [done|]. simpl.
    apply (Hfs h'). apply list_elem_of_In, in_map_iff. exists (h', L').
    split; [done|]. by apply list_elem_of_In. }
  pose proof (Hnames' _ _ Hlb) as H1. pose proof (Hnames' _ _ HLp) as H2.
  split; [|by apply (submap_by_names _ _ names)].
  apply (submap_by_names _ _ names); [done| |done].
  apply (Hfs h). apply list_elem_of_In, in_map_iff. exists (h, L).
  split; [done|]. by apply list_elem_of_In.
Qed.

(** ** Instructions *)

Lemma languoid_lookup_kw (pk : value) (level : string)
    (kw : gmap string (value (float:=float))) (k : string) (v : value) :
  kw !! k = Some v → languoid pk level kw !! k = Some v.
Proof. intros Hk. unfold languoid, dict_update. by apply lookup_union_Some_l. Qed.

Lemma languoid_lookup_default (pk : value) (level : string)
    (kw : gmap string (value (float:=float))) (k : string) :
  kw !! k = None →
  languoid pk level kw !! k
  = (list_to_map
       [("pk", pk); ("level", VStr level); ("active", VBool true);
        ("father_pk", VNone); ("status", VStr "established")]
     : gmap string value) !! k.
Proof. intros Hk. unfold languoid, dict_update. by apply lookup_union_r. Qed.

Lemma languoid_base_keys (pk : value) (level : string)
    (kw : gmap string (value (float:=float))) :
  has_base_keys (languoid pk level kw).
Proof.
  intros k Hk. unfold languoid, dict_update.
  apply lookup_union_is_Some. right. unfold base_keys in Hk.
  repeat (apply elem_of_cons in Hk as [->|Hk]); try (by eexists).
  by apply elem_of_nil in Hk.
Qed.

Lemma has_base_keys_insert (i : gmap string (value (float:=float)))
    (k : string) (v : value) :
  has_base_keys i → has_base_keys (<[k := v]> i).
Proof.
  intros Hi k' Hk'. destruct (decide (k = k')) as [->|Hne].
  - rewrite lookup_insert_eq. eauto.
  - rewrite lookup_insert_ne by done. by apply Hi.
Qed.

Lemma with_coords_base_keys (coords : gmap string (list string))
    (code : string) (attrs attrs' : gmap string (value (float:=float))) :
  with_coords parse_float coords code attrs = Ok attrs' →
  has_base_keys attrs → has_base_keys attrs'.
Proof.
  unfold with_coords. intros Hrun Hattrs.
  destruct (coords !! code) as [[|c cs]|]; try by injection Hrun as <-.
  apply bind_Ok in Hrun as (fl & _ & Hrun).
  destruct fl as [|lon [|lat [|]]]; try done.
  injection Hrun as <-. by do 2 apply has_base_keys_insert.
Qed.

Lemma new_language_step_base_keys (inp : inputs) (languages : languages_t)
    (st st' : new_langs) (code : string) :
  new_language_step glottocode parse_float inp languages st code = Ok st' →
  Forall has_base_keys (nl_languoids st) →
  Forall has_base_keys (nl_languoids st').
Proof.
  unfold new_language_step. intros Hrun Hst.
  destruct (bool_decide (is_Some (in_codes inp !! code))).
  { by injection Hrun as <-. }
  apply bind_Ok in Hrun as (lang & _ & Hrun).
  destruct (glottocode (l_name lang) (nl_session st)) as [id sess].
  apply bind_Ok in Hrun as (attrs' & Hc & Hrun). injection Hrun as <-. simpl.
  apply Forall_app. split; [done|]. constructor; [|constructor].
  eapply with_coords_base_keys; [exact Hc|]. apply languoid_base_keys.
Qed.

Lemma new_family_step_base_keys (families : families_t)
    (rglnodes : gmap (list string) (list node)) (todo : list Migration)
    (st st' : new_fams) (hnode : list string) :
  new_family_step glottocode families rglnodes todo st hnode = Ok st' →
  Forall (λ bi, has_base_keys (float:=float) bi.2) (nf_languoids st) →
  Forall (λ bi, has_base_keys (float:=float) bi.2) (nf_languoids st').
Proof.
  unfold new_family_step. intros Hrun Hst.
  destruct (bool_decide (is_Some (nf_branch_to_pk st !! hnode))).
  { by injection Hrun as <-. }
  apply bind_Ok in Hrun as (leafs & _ & Hrun).
  apply bind_Ok in Hrun as (u & _ & Hrun).
  apply bind_Ok in Hrun as (name & _ & Hrun).
  destruct (glottocode name (nf_session st)) as [id sess].
  apply bind_Ok in Hrun as (attrs' & Ha & Hrun). injection Hrun as <-. simpl.
  apply Forall_app. split; [done|]. constructor; [|constructor]. simpl.
  destruct (1 <? length hnode)%nat.
  - apply bind_Ok in Ha as (father & _ & Ha).
    apply bind_Ok in Ha as (u' & _ & Ha). injection Ha as <-.
    apply has_base_keys_insert, languoid_base_keys.
  - injection Ha as <-. apply languoid_base_keys.
Qed.

Lemma update_step_base_keys (branch_to_pk : gmap (list string) Z)
    (lnames : gmap Z string) (st st' : updates (float:=float))
    (m : Migration) :
  update_step branch_to_pk lnames st m = Ok st' →
  Forall has_base_keys (up_languoids st) →
  Forall has_base_keys (up_languoids st').
Proof.
  unfold update_step. intros Hrun Hst.
  apply bind_Ok in Hrun as (name & _ & Hrun).
  destruct (truthy_opt (m_hid m)).
  - apply bind_Ok in Hrun as (attrs & Ha & Hrun).
    apply bind_Ok in Hrun as (hl & _ & Hrun). injection Hrun as <-. simpl.
    apply Forall_app. split; [done|]. constructor; [|constructor].
    apply has_base_keys_insert.
    assert (has_base_keys attrs).
    { destruct (1 <? length (default [] (m_hid m)))%nat.
      - apply bind_Ok in Ha as (father & _ & Ha). injection Ha as <-.
        apply has_base_keys_insert, languoid_base_keys.
      - injection Ha as <-. apply languoid_base_keys. }
    destruct (default false (m_rename m)); [by apply has_base_keys_insert|done].
  - destruct (truthy_opt (m_pointer m)).
    + apply bind_Ok in Hrun as (replacement & _ & Hrun).
      injection Hrun as <-. simpl.
      apply Forall_app. split; [done|]. constructor; [|constructor].
      do 2 apply has_base_keys_insert. apply languoid_base_keys.
    + injection Hrun as <-. simpl.
      apply Forall_app. split; [done|]. constructor; [|constructor].
      apply has_base_keys_insert, languoid_base_keys.
Qed.

Lemma language_step_base_keys (codes ncodes : gmap string Z)
    (branch_to_pk : gmap (list string) Z)
    (risolate_names rcollapsed_names : gmap string string)
    (languages : languages_t)
    (out out' : list (gmap string (value (float:=float)))) (l : string) :
  language_step codes ncodes branch_to_pk risolate_names rcollapsed_names
    languages out l = Ok out' →
  Forall has_base_keys out → Forall has_base_keys out'.
Proof.
  unfold language_step. intros Hrun Hout.
  apply bind_Ok in Hrun as (lang & _ & Hrun).
  apply bind_Ok in Hrun as (attrs & Ha & Hrun). injection Hrun as <-.
  apply Forall_app. split; [done|]. constructor; [|constructor].
  assert (has_base_keys attrs).
  { destruct (truthy_opt (l_branch lang)).
    - apply bind_Ok in Ha as (father & _ & Ha). injection Ha as <-.
      apply has_base_keys_insert, languoid_base_keys.
    - injection Ha as <-. apply languoid_base_keys. }
  destruct (rcollapsed_names !! l), (risolate_names !! l);
    repeat apply has_base_keys_insert; done.
Qed.

Lemma retired_step_base_keys (languages : languages_t)
    (out : list (gmap string (value (float:=float))))
    (row : Z * string * string) :
  Forall has_base_keys out →
  Forall has_base_keys (retired_step languages out row).
Proof.
  unfold retired_step. intros Hout. destruct (od_mem languages row.1.2); [done|].
  apply Forall_app. split; [done|]. constructor; [|constructor].
  apply languoid_base_keys.
Qed.

(** ** The run *)

(** The loops behind the parts of a report. *)
Lemma run_parts (inp : inputs) (r : report) :
  run unescape glottocode parse_float inp = Ok r →
  ∃ (families : families_t) (languages : languages_t) (nl : new_langs)
    (rglnodes : gmap (list string) (list node))
    (branch_to_pk : gmap (list string) Z) (log0 : list event) (nf : new_fams)
    (up : updates) (risolate_names rcollapsed_names : gmap string string),
    foldM (new_language_step glottocode parse_float inp languages)
      (od_keys languages)
      (NewLangs (in_maxid inp) ∅ [] (in_session inp) []) = Ok nl
    ∧ foldM branch_to_pk_step (r_todo r) ∅ = Ok branch_to_pk
    ∧ foldM (new_family_step glottocode families rglnodes (r_todo r))
        (sorted_branches (od_keys families))
        (NewFams (nl_maxid nl) branch_to_pk (in_lnames inp) (nl_session nl)
           [] log0 0) = Ok nf
    ∧ foldM (update_step (nf_branch_to_pk nf) (nf_lnames nf)) (r_todo r)
        (Updates [] (nf_log nf) 0 0 0) = Ok up
    ∧ foldM (language_step (in_codes inp) (nl_ncodes nl) (nf_branch_to_pk nf)
               risolate_names rcollapsed_names languages)
        (od_keys languages) [] = Ok (r_language_updates r)
    ∧ r_new_languages r = nl_languoids nl
    ∧ r_new_families r = nf_languoids nf
    ∧ r_family_updates r = up_languoids up
    ∧ r_retired r = foldl (retired_step languages) [] (in_nocode_rows inp)
    ∧ r_branch_to_pk r = nf_branch_to_pk nf.
Proof.
  unfold run. intros Hrun.
  apply bind_Ok in Hrun as ([families0 languages0] & _ & Hrun).
  apply bind_Ok in Hrun as (co & _ & Hrun).
  apply bind_Ok in Hrun as (names & _ & Hrun).
  apply bind_Ok in Hrun as ([families languages] & _ & Hrun).
  apply bind_Ok in Hrun as (nl & Hnl & Hrun).
  apply bind_Ok in Hrun as ([rnodes urnodes] & _ & Hrun).
  destruct (foldl (load_step inp names) (∅, [])
              (in_family_rows inp (negb (in_all inp)))) as [glnodes todo0].
  apply bind_Ok in Hrun as ([todo log0] & _ & Hrun).
  apply bind_Ok in Hrun as (branch_to_pk & Hbtp & Hrun).
  apply bind_Ok in Hrun as (nf & Hnf & Hrun).
  apply bind_Ok in Hrun as (up & Hup & Hrun).
  apply bind_Ok in Hrun as (ls & Hls & Hrun).
  injection Hrun as <-. simpl.
  by eexists families, languages, nl, _, branch_to_pk, log0, nf, up, _, _.
Qed.

Lemma main_run (inp : inputs) (out : list (gmap string value)) :
  main unescape glottocode parse_float inp = Ok out
  ↔ ∃ r, run unescape glottocode parse_float inp = Ok r
         ∧ out = languoids_of r.
Proof.
  unfold main. split.
  - intros (r & Hr & [= <-])%bind_Ok. eauto.
  - intros (r & -> & ->). done.
Qed.

(** C10. An instruction made by [languoid] has the keys [pk], [level],
    [active], [father_pk] and [status]; [active] is [True], [father_pk] is
    [None] and [status] is ['established'] unless a keyword says otherwise,
    and a keyword that is given is kept.  Every instruction of the list
    that [main] dumps is made by [languoid] and only gains keys afterwards,
    so it has those five keys. *)
Theorem instructions_have_base_keys :
  (∀ (pk : value) (level : string) (kw : gmap string (value (float:=float))),
     has_base_keys (languoid pk level kw)
     ∧ (kw !! "pk" = None → languoid pk level kw !! "pk" = Some pk)
     ∧ (kw !! "level" = None →
        languoid pk level kw !! "level" = Some (VStr level))
     ∧ (kw !! "active" = None →
        languoid pk level kw !! "active" = Some (VBool true))
     ∧ (kw !! "father_pk" = None →
        languoid pk level kw !! "father_pk" = Some VNone)
     ∧ (kw !! "status" = None →
        languoid pk level kw !! "status" = Some (VStr "established"))
     ∧ (∀ k v, kw !! k = Some v → languoid pk level kw !! k = Some v))
  ∧ (∀ (inp : inputs) (out : list (gmap string value)),
       main unescape glottocode parse_float inp = Ok out →
       Forall has_base_keys out).
Proof.
  split.
  - intros pk level kw. split; [apply languoid_base_keys|].
    repeat split;
      try (intros Hk; by rewrite languoid_lookup_default).
    intros k v. apply languoid_lookup_kw.
  - intros inp out (r & Hrun & ->)%main_run.
    apply run_parts in Hrun
      as (families & languages & nl & rglnodes & btp & log0 & nf & up & ris
          & rcol & Hnl & _ & Hnf & Hup & Hls & E1 & E2 & E3 & E4 & _).
    unfold languoids_of. rewrite E1, E2, E3, E4. repeat apply Forall_app_2.
    + eapply (foldM_invariant (λ st, Forall has_base_keys (nl_languoids st)));
        [| |exact Hnl]; [|by constructor].
      intros t x t' _ Ht Hstep. by eapply new_language_step_base_keys.
    + apply Forall_fmap.
      eapply (foldM_invariant
                (λ st, Forall (λ bi, has_base_keys bi.2) (nf_languoids st)));
        [| |exact Hnf]; [|by constructor].
      intros t x t' _ Ht Hstep. by eapply new_family_step_base_keys.
    + eapply (foldM_invariant (λ st, Forall has_base_keys (up_languoids st)));
        [| |exact Hup]; [|by constructor].
      intros t x t' _ Ht Hstep. by eapply update_step_base_keys.
    + eapply (foldM_invariant (Forall has_base_keys)); [| |exact Hls];
        [|by constructor].
      intros t x t' _ Ht Hstep. by eapply language_step_base_keys.
    + apply (foldl_invariant (Forall has_base_keys)); [|by constructor].
      intros t x _ Ht. by apply retired_step_base_keys.
Qed.

(** ** The order of the new family nodes *)

Lemma compare_lt_trans (x y z : string) :
  String.compare x y = Lt → String.compare y z = Lt → String.compare x z = Lt.
Proof.
  intros Hxy Hyz.
  assert (Hle : String.le x z).
  { transitivity y; unfold String.le, String.leb; [by rewrite Hxy | by rewrite Hyz]. }
  unfold String.le, String.leb in Hle.
  destruct (String.compare x z) eqn:Hxz; [|done|done].
  apply String.compare_eq_iff in Hxz as ->.
  rewrite String.compare_antisym, Hyz in Hxy. done.
Qed.

Lemma tuple_leb_total (a b : list string) :
  tuple_leb a b = true ∨ tuple_leb b a = true.
Proof.
  revert b. induction a as [|x a IH]; intros [|y b]; simpl; auto.
  rewrite (String.compare_antisym y x).
  destruct (String.compare x y); simpl; auto.
Qed.

Lemma tuple_leb_trans (a b c : list string) :
  tuple_leb a b = true → tuple_leb b c = true → tuple_leb a c = true.
Proof.
  revert b c. induction a as [|x a IH]; intros [|y b] [|z c]; simpl; try done.
  destruct (String.compare x y) eqn:Hxy; [|  |done].
  - apply String.compare_eq_iff in Hxy as ->.
    destruct (String.compare y z); [apply IH|done|done].
  - destruct (String.compare y z) eqn:Hyz; [| |done].
    + apply String.compare_eq_iff in Hyz as ->. by rewrite Hxy.
    + by rewrite (compare_lt_trans x y z).
Qed.

Lemma branch_leb_true (a b : list string) :
  branch_leb a b = true
  ↔ (length a < length b)%nat ∨ (length a = length b ∧ tuple_leb a b = true).
Proof.
  unfold branch_leb.
  rewrite orb_true_iff, andb_true_iff, Nat.ltb_lt, Nat.eqb_eq. done.
Qed.

Global Instance branch_le_total : Total branch_le.
Proof.
  intros a b. unfold branch_le. rewrite !Is_true_true, !branch_leb_true.
  destruct (lt_eq_lt_dec (length a) (length b)) as [[?|?]|?];
    destruct (tuple_leb_total a b); auto.
Qed.

Global Instance branch_le_trans : Transitive branch_le.
Proof.
  intros a b c. unfold branch_le. rewrite !Is_true_true, !branch_leb_true.
  intros [?|[? Hab]] [?|[? Hbc]]; [left; lia..|].
  right. split; [lia|]. by apply (tuple_leb_trans a b c).
Qed.

Lemma StronglySorted_sublist {A : Type} (R : relation A) (k l : list A) :
  k `sublist_of` l → StronglySorted R l → StronglySorted R k.
Proof.
  intros Hsub. induction Hsub as [|x k l Hsub IH|x k l Hsub IH]; intros Hl.
  - constructor.
  - apply StronglySorted_inv in Hl as [Hl Hx]. constructor; [by apply IH|].
    rewrite Forall_forall in Hx. apply Forall_forall. intros y Hy.
    apply Hx. by eapply elem_of_sublist.
  - apply StronglySorted_inv in Hl as [Hl _]. by apply IH.
Qed.

(** ** The parents of the instructions *)

Lemma removelast_shorter {A : Type} (l : list A) :
  l ≠ [] → removelast l ≠ l.
Proof.
  intros Hne Heq. apply (f_equal length) in Heq.
  rewrite removelast_firstn_len, length_take in Heq.
  destruct l; simpl in *; [done | lia].
Qed.

Lemma matched_pks_elem (todo : list Migration) (m : Migration) :
  m ∈ todo → truthy_opt (m_hid m) = true → m_pk m ∈ matched_pks todo.
Proof.
  intros Hm Hhid. unfold matched_pks.
  apply list_elem_of_In, in_map_iff. exists m. split; [done|].
  apply filter_In. split; [by apply list_elem_of_In | done].
Qed.

Lemma branch_to_pk_matched (todo : list Migration)
    (branch_to_pk : gmap (list string) Z) :
  foldM branch_to_pk_step todo ∅ = Ok branch_to_pk →
  ∀ b p, branch_to_pk !! b = Some p → p ∈ matched_pks todo.
Proof.
  intros Hrun.
  eapply (foldM_invariant
            (λ btp : gmap (list string) Z,
               ∀ b p, btp !! b = Some p → p ∈ matched_pks todo));
    [| |exact Hrun]; [|by intros b p; rewrite lookup_empty].
  intros btp m btp' Hm Hinv Hstep b p. unfold branch_to_pk_step in Hstep.
  destruct (m_hid m) as [hid|] eqn:Hhid; [|injection Hstep as <-; apply Hinv].
  destruct (truthy hid) eqn:Ht; [|injection Hstep as <-; apply Hinv].
  apply bind_Ok in Hstep as (u & _ & Hstep). injection Hstep as <-.
  destruct (decide (hid = b)) as [->|Hne].
  - rewrite lookup_insert_eq. intros [= <-].
    apply matched_pks_elem; [done|]. by rewrite Hhid.
  - rewrite lookup_insert_ne by done. apply Hinv.
Qed.

(** What one round of the loop for new family nodes does. *)
Lemma new_family_step_inv (families : families_t)
    (rglnodes : gmap (list string) (list node)) (todo : list Migration)
    (st st' : new_fams) (hnode : list string) :
  new_family_step (float:=float) glottocode families rglnodes todo st hnode
  = Ok st' →
  st' = st
  ∨ (nf_branch_to_pk st !! hnode = None
     ∧ ∃ attrs,
         nf_languoids st' = nf_languoids st ++ [(hnode, attrs)]
         ∧ nf_branch_to_pk st'
           = <[hnode := nf_maxid st + 1]> (nf_branch_to_pk st)
         ∧ attrs !! "pk" = Some (VInt (nf_maxid st + 1))
         ∧ (∃ name, last hnode = Some name
                    ∧ attrs !! "name" = Some (VStr name))
         ∧ (attrs !! "father_pk" = Some VNone
            ∨ ∃ p, attrs !! "father_pk" = Some (VInt p) ∧ p ≠ 0
                   ∧ nf_branch_to_pk st !! removelast hnode = Some p)).
Proof.
  unfold new_family_step. intros Hrun.
  destruct (bool_decide (is_Some (nf_branch_to_pk st !! hnode))) eqn:Hmem.
  { injection Hrun as <-. by left. }
  right. apply bool_decide_eq_false in Hmem.
  split; [by apply eq_None_not_Some|].
  apply bind_Ok in Hrun as (leafs & _ & Hrun).
  apply bind_Ok in Hrun as (u & _ & Hrun).
  apply bind_Ok in Hrun as (name & Hname & Hrun).
  destruct (glottocode name (nf_session st)) as [id sess].
  apply bind_Ok in Hrun as (attrs' & Ha & Hrun). injection Hrun as <-. simpl.
  exists attrs'. split; [done|]. split; [done|].
  assert (Hlast : last hnode = Some name).
  { unfold last_item in Hname. by destruct (last hnode); simplify_eq. }
  set (kw := list_to_map [("id", VStr id); ("name", VStr name);
                           ("hname", VStr name)] : gmap string value) in *.
  assert (Hpk : languoid (VInt (nf_maxid st + 1)) "family" kw !! "pk"
                = Some (VInt (nf_maxid st + 1))).
  { by rewrite languoid_lookup_default. }
  assert (Hnm : languoid (VInt (nf_maxid st + 1)) "family" kw !! "name"
                = Some (VStr name)).
  { by apply languoid_lookup_kw. }
  assert (Hfa : languoid (VInt (nf_maxid st + 1)) "family" kw !! "father_pk"
                = Some VNone).
  { by rewrite languoid_lookup_default. }
  destruct (1 <? length hnode)%nat eqn:Hlen.
  - apply bind_Ok in Ha as (father & Hf%getitem_Ok & Ha).
    apply bind_Ok in Ha as (u' & Hnz%assert_Ok & Ha). injection Ha as <-.
    rewrite !lookup_insert_ne by done. rewrite lookup_insert_eq.
    split; [done|]. split; [eauto|]. right. exists father.
    split; [done|]. split.
    + apply negb_true_iff, Z.eqb_neq in Hnz. done.
    + rewrite lookup_insert_ne in Hf; [done|].
      apply not_eq_sym, removelast_shorter. by destruct hnode.
  - injection Ha as <-. split; [done|]. split; [eauto|]. by left.
Qed.

Lemma new_family_step_linked (families : families_t)
    (rglnodes : gmap (list string) (list node)) (todo : list Migration)
    (st st' : new_fams) (hnode : list string) :
  new_family_step (float:=float) glottocode families rglnodes todo st hnode
  = Ok st' →
  new_families_linked todo st → new_families_linked todo st'.
Proof.
  intros Hstep [Hbtp Hout].
  apply new_family_step_inv in Hstep
    as [->|(Hfresh & attrs & Hl & Hb & Hpk & Hname & Hfather)]; [done|].
  split.
  - intros b p. rewrite Hb, Hl. destruct (decide (hnode = b)) as [->|Hne].
    + rewrite lookup_insert_eq. intros [= <-]. right.
      exists (length (nf_languoids st)), (b, attrs).
      split; [|done]. by rewrite lookup_app_r, Nat.sub_diag.
    + rewrite lookup_insert_ne by done. intros Hp.
      destruct (Hbtp b p Hp) as [?|(j & bi & Hj & Hbi)]; [by left|].
      right. exists j, bi. split; [|done]. by apply lookup_app_l_Some.
  - intros k bi. rewrite Hl, Hb. intros Hk.
    assert (Hkeep : ∀ b p, nf_branch_to_pk st !! b = Some p →
              <[hnode := nf_maxid st + 1]> (nf_branch_to_pk st) !! b = Some p).
    { intros b p Hp. rewrite lookup_insert_ne; [done|]. intros ->. congruence. }
    apply lookup_app_Some in Hk as [Hk|[Hlen Hk]].
    + destruct (Hout k bi Hk) as [Hn Hf]. split; [done|].
      destruct Hf as [?|(p & Hp & Hnz & Hpar & Hwho)]; [by left|].
      right. exists p. repeat split; [done|done|by apply Hkeep|].
      destruct Hwho as [?|(j & bi' & Hj & Hj' & Hpk')]; [by left|].
      right. exists j, bi'. split; [done|]. split; [|done].
      by apply lookup_app_l_Some.
    + apply list_lookup_singleton_Some in Hk as [Hk0 <-]. simpl.
      split; [done|].
      destruct Hfather as [?|(p & Hp & Hnz & Hpar)]; [by left|].
      right. exists p. repeat split; [done|done|by apply Hkeep|].
      destruct (Hbtp _ _ Hpar) as [?|(j & bi' & Hj & Hpk')]; [by left|].
      right. exists j, bi'. split; [|split; [by apply lookup_app_l_Some|done]].
      apply lookup_lt_Some in Hj. lia.
Qed.

Lemma new_families_sublist (families : families_t)
    (rglnodes : gmap (list string) (list node)) (todo : list Migration)
    (bs : list (list string)) (st st' : new_fams) :
  foldM (new_family_step (float:=float) glottocode families rglnodes todo)
    bs st = Ok st' →
  ∃ k, map fst (nf_languoids st') = map fst (nf_languoids st) ++ k
       ∧ k `sublist_of` bs.
Proof.
  revert st. induction bs as [|b bs IH]; intros st Hrun; simpl in Hrun.
  - injection Hrun as <-. exists []. by rewrite (right_id_L [] (++)).
  - apply bind_Ok in Hrun as (st1 & Hstep & Hrun).
    destruct (IH _ Hrun) as (k & Hk & Hsub). rewrite Hk.
    apply new_family_step_inv in Hstep
      as [->|(_ & attrs & Hl & _)].
    + exists k. split; [done|]. by apply sublist_cons.
    + exists (b :: k). rewrite Hl, map_app. simpl.
      rewrite <- (assoc_L (++)). split; [done|]. by apply sublist_skip.
Qed.

(** What one round of the loop over [todo] appends. *)
Lemma update_step_inv (branch_to_pk : gmap (list string) Z)
    (lnames : gmap Z string) (st st' : updates (float:=float))
    (m : Migration) :
  update_step branch_to_pk lnames st m = Ok st' →
  ∃ attrs,
    up_languoids st' = up_languoids st ++ [attrs]
    ∧ attrs !! "pk" = Some (VInt (m_pk m))
    ∧ (attrs !! "father_pk" = Some VNone
       ∨ ∃ b p, attrs !! "father_pk" = Some (VInt p)
                ∧ branch_to_pk !! b = Some p).
Proof.
  unfold update_step. intros Hrun.
  apply bind_Ok in Hrun as (name & _ & Hrun).
  set (kw := list_to_map [("name", VStr name)] : gmap string value) in *.
  assert (Hpk : languoid (VInt (m_pk m)) "family" kw !! "pk"
                = Some (VInt (m_pk m))).
  { by rewrite languoid_lookup_default. }
  assert (Hfa : languoid (VInt (m_pk m)) "family" kw !! "father_pk"
                = Some VNone).
  { by rewrite languoid_lookup_default. }
  destruct (truthy_opt (m_hid m)).
  - apply bind_Ok in Hrun as (attrs & Ha & Hrun).
    apply bind_Ok in Hrun as (hl & _ & Hrun). injection Hrun as <-. simpl.
    eexists. split; [done|].
    assert (Hattrs : attrs !! "pk" = Some (VInt (m_pk m))
              ∧ (attrs !! "father_pk" = Some VNone
                 ∨ ∃ b p, attrs !! "father_pk" = Some (VInt p)
                          ∧ branch_to_pk !! b = Some p)).
    { destruct (1 <? length (default [] (m_hid m)))%nat.
      - apply bind_Ok in Ha as (father & Hf%getitem_Ok & Ha).
        injection Ha as <-. rewrite lookup_insert_ne by done.
        rewrite lookup_insert_eq. split; [done|]. right. eauto.
      - injection Ha as <-. split; [done|]. by left. }
    destruct Hattrs as [Hpk' Hfa'].
    destruct (default false (m_rename m));
      rewrite !lookup_insert_ne by done; done.
  - destruct (truthy_opt (m_pointer m)).
    + apply bind_Ok in Hrun as (replacement & _ & Hrun).
      injection Hrun as <-. simpl. eexists. split; [done|].
      rewrite !lookup_insert_ne by done. split; [done|]. by left.
    + injection Hrun as <-. simpl. eexists. split; [done|].
      rewrite !lookup_insert_ne by done. split; [done|]. by left.
Qed.

Lemma updates_pks (branch_to_pk : gmap (list string) Z)
    (lnames : gmap Z string) (todo : list Migration)
    (st st' : updates (float:=float)) :
  foldM (update_step branch_to_pk lnames) todo st = Ok st' →
  (∀ i, i ∈ up_languoids st → i ∈ up_languoids st')
  ∧ (∀ m, m ∈ todo →
       ∃ i, i ∈ up_languoids st' ∧ i !! "pk" = Some (VInt (m_pk m))).
Proof.
  revert st. induction todo as [|m todo IH]; intros st Hrun; simpl in Hrun.
  - injection Hrun as <-. split; [done|]. by intros m ?%elem_of_nil.
  - apply bind_Ok in Hrun as (st1 & Hstep & Hrun).
    destruct (IH _ Hrun) as [Hkeep Hall].
    apply update_step_inv in Hstep as (attrs & Hl & Hpk & _).
    split.
    + intros i Hi. apply Hkeep. rewrite Hl. apply elem_of_app. by left.
    + intros m' [->|Hm']%elem_of_cons; [|by apply Hall].
      exists attrs. split; [|done]. apply Hkeep. rewrite Hl.
      apply elem_of_app. right. left.
Qed.

Lemma updates_fathers (branch_to_pk : gmap (list string) Z)
    (lnames : gmap Z string) (todo : list Migration)
    (st' : updates (float:=float)) (log : list event) :
  foldM (update_step branch_to_pk lnames) todo (Updates [] log 0 0 0)
  = Ok st' →
  ∀ i p, i ∈ up_languoids st' → i !! "father_pk" = Some (VInt p) →
    ∃ b, branch_to_pk !! b = Some p.
Proof.
  intros Hrun.
  eapply (foldM_invariant
            (λ st : updates, ∀ i p, i ∈ up_languoids st →
               i !! "father_pk" = Some (VInt p) →
               ∃ b, branch_to_pk !! b = Some p)); [| |exact Hrun].
  - intros t m t' _ Ht Hstep i p Hi Hp.
    apply update_step_inv in Hstep as (attrs & Hl & _ & Hfa).
    rewrite Hl in Hi. apply elem_of_app in Hi as [Hi|Hi]; [by eapply Ht|].
    apply list_elem_of_singleton in Hi as ->.
    destruct Hfa as [Hnone|(b & p' & Hp' & Hb)]; [congruence|].
    exists b. congruence.
  - simpl. by intros i p ?%elem_of_nil.
Qed.

Lemma languages_fathers (codes ncodes : gmap string Z)
    (branch_to_pk : gmap (list string) Z)
    (risolate_names rcollapsed_names : gmap string string)
    (languages : languages_t) (ls : list string)
    (out : list (gmap string (value (float:=float)))) :
  foldM (language_step codes ncodes branch_to_pk risolate_names
           rcollapsed_names languages) ls [] = Ok out →
  ∀ i p, i ∈ out → i !! "father_pk" = Some (VInt p) →
    ∃ b, branch_to_pk !! b = Some p.
Proof.
  intros Hrun.
  eapply (foldM_invariant
            (λ o : list (gmap string value), ∀ i p, i ∈ o →
               i !! "father_pk" = Some (VInt p) →
               ∃ b, branch_to_pk !! b = Some p)); [| |exact Hrun].
  - intros t l t' _ Ht Hstep i p Hi Hp. unfold language_step in Hstep.
    apply bind_Ok in Hstep as (lang & _ & Hstep).
    apply bind_Ok in Hstep as (attrs & Ha & Hstep). injection Hstep as <-.
    apply elem_of_app in Hi as [Hi|Hi]; [by eapply Ht|].
    apply list_elem_of_singleton in Hi as ->.
    assert (Hattrs : attrs !! "father_pk" = Some (VInt p)).
    { destruct (rcollapsed_names !! l), (risolate_names !! l);
        by rewrite !lookup_insert_ne in Hp by done. }
    destruct (truthy_opt (l_branch lang)).
    + apply bind_Ok in Ha as (father & Hf%getitem_Ok & Ha).
      injection Ha as <-. rewrite lookup_insert_eq in Hattrs.
      injection Hattrs as <-. eauto.
    + injection Ha as <-. rewrite languoid_lookup_default in Hattrs by done.
      done.
  - by intros i p ?%elem_of_nil.
Qed.

Lemma new_languages_no_father (inp : inputs) (languages : languages_t)
    (ls : list string) (nl : new_langs) :
  foldM (new_language_step glottocode parse_float inp languages) ls
    (NewLangs (in_maxid inp) ∅ [] (in_session inp) []) = Ok nl →
  ∀ i, i ∈ nl_languoids nl → i !! "father_pk" = Some VNone.
Proof.
  intros Hrun.
  eapply (foldM_invariant
            (λ st : new_langs, ∀ i, i ∈ nl_languoids st →
               i !! "father_pk" = Some (VNone (float:=float))));
    [| |exact Hrun]; [|by intros i ?%elem_of_nil].
  intros t code t' _ Ht Hstep i Hi. unfold new_language_step in Hstep.
  destruct (bool_decide (is_Some (in_codes inp !! code))).
  { injection Hstep as <-. by apply Ht. }
  apply bind_Ok in Hstep as (lang & _ & Hstep).
  destruct (glottocode (l_name lang) (nl_session t)) as [id sess].
  apply bind_Ok in Hstep as (attrs' & Hc & Hstep). injection Hstep as <-.
  simpl in Hi. apply elem_of_app in Hi as [Hi|Hi]; [by apply Ht|].
  apply list_elem_of_singleton in Hi as ->.
  unfold with_coords in Hc.
  destruct (in_coords inp !! code) as [[|c cs]|].
  - injection Hc as <-. by rewrite languoid_lookup_default.
  - apply bind_Ok in Hc as (fl & _ & Hc).
    destruct fl as [|lon [|lat [|]]]; try done. injection Hc as <-.
    rewrite !lookup_insert_ne by done. by rewrite languoid_lookup_default.
  - injection Hc as <-. by rewrite languoid_lookup_default.
Qed.

Lemma retired_no_father (languages : languages_t)
    (rows : list (Z * string * string)) :
  ∀ i, i ∈ foldl (retired_step (float:=float) languages) [] rows →
    i !! "father_pk" = Some VNone.
Proof.
  apply (foldl_invariant
           (λ o : list (gmap string value),
              ∀ i, i ∈ o → i !! "father_pk" = Some (VNone (float:=float))));
    [|by intros i ?%elem_of_nil].
  intros t row _ Ht i Hi. unfold retired_step in Hi.
  destruct (od_mem languages row.1.2); [by apply Ht|].
  apply elem_of_app in Hi as [Hi|Hi]; [by apply Ht|].
  apply list_elem_of_singleton in Hi as ->. by apply languoid_lookup_kw.
Qed.

Lemma matched_pks_inv (todo : list Migration) (p : Z) :
  p ∈ matched_pks todo →
  ∃ m, m ∈ todo ∧ truthy_opt (m_hid m) = true ∧ m_pk m = p.
Proof.
  unfold matched_pks.
  intros (m & <- & [Hm Hhid]%filter_In)%list_elem_of_In%in_map_iff.
  exists m. by rewrite list_elem_of_In.
Qed.

(** C1, as the code has it.  In the list that [main] dumps — the new
    languages, then the new family nodes, then the updates of the old
    family nodes, then the updates of the languages, then the retired
    private codes — a new language and a retired code carry no father.  The
    father of a new family node is the pk that [branch_to_pk] has for its
    parent branch, which is either the pk of a new family node earlier in
    the list or the pk of an old node matched to the parent branch, whose
    update comes later in the list; the new family nodes are listed by
    length of branch, then in the order of tuples, and each is named after
    the last item of its branch.  The father of an updated family node or
    language is the pk of a new family node or of an update of an old
    family node, which for a language is an earlier instruction. *)
Theorem father_pk_is_assigned_before_use (inp : inputs) (r : report) :
  run unescape glottocode parse_float inp = Ok r →
  main unescape glottocode parse_float inp = Ok (languoids_of r)
  ∧ (∀ i, i ∈ r_new_languages r ∨ i ∈ r_retired r →
       i !! "father_pk" = Some VNone)
  ∧ (∀ k bi,
       r_new_families r !! k = Some bi →
       (∃ name, last bi.1 = Some name ∧ bi.2 !! "name" = Some (VStr name))
       ∧ (bi.2 !! "father_pk" = Some VNone
          ∨ ∃ p,
              bi.2 !! "father_pk" = Some (VInt p) ∧ p ≠ 0
              ∧ r_branch_to_pk r !! removelast bi.1 = Some p
              ∧ ((∃ m i, m ∈ r_todo r ∧ truthy_opt (m_hid m) = true
                         ∧ m_pk m = p ∧ i ∈ r_family_updates r
                         ∧ i !! "pk" = Some (VInt p))
                 ∨ (∃ j bi', (j < k)%nat ∧ r_new_families r !! j = Some bi'
                             ∧ bi'.2 !! "pk" = Some (VInt p)))))
  ∧ StronglySorted branch_le (map fst (r_new_families r))
  ∧ (∀ i p,
       i ∈ r_family_updates r ∨ i ∈ r_language_updates r →
       i !! "father_pk" = Some (VInt p) →
       ∃ i', (i' ∈ map snd (r_new_families r) ∨ i' ∈ r_family_updates r)
             ∧ i' !! "pk" = Some (VInt p)).
Proof.
  intros Hrun. split.
  { apply main_run. eauto. }
  apply run_parts in Hrun
    as (families & languages & nl & rglnodes & btp & log0 & nf & up & ris
        & rcol & Hnl & Hbtp & Hnf & Hup & Hls & E1 & E2 & E3 & E4 & E5).
  rewrite E1, E2, E3, E4, E5.
  assert (Hlinked : new_families_linked (r_todo r) nf).
  { eapply (foldM_invariant (new_families_linked (r_todo r)));
      [| |exact Hnf].
    - intros t x t' _ Ht Hstep. by eapply new_family_step_linked.
    - split; simpl.
      + intros b p Hp. left. by eapply branch_to_pk_matched.
      + intros k bi Hk. by rewrite lookup_nil in Hk. }
  destruct Hlinked as [Hfinal Hout].
  destruct (updates_pks _ _ _ _ _ Hup) as [_ Hpks].
  assert (Hmatched : ∀ p, p ∈ matched_pks (r_todo r) →
            ∃ m i, m ∈ r_todo r ∧ truthy_opt (m_hid m) = true ∧ m_pk m = p
                   ∧ i ∈ up_languoids up ∧ i !! "pk" = Some (VInt p)).
  { intros p (m & Hm & Hhid & <-)%matched_pks_inv.
    destruct (Hpks m Hm) as (i & Hi & Hpk). by exists m, i. }
  assert (Hwho : ∀ b p, nf_branch_to_pk nf !! b = Some p →
            ∃ i', (i' ∈ map snd (nf_languoids nf) ∨ i' ∈ up_languoids up)
                  ∧ i' !! "pk" = Some (VInt p)).
  { intros b p Hp.
    destruct (Hfinal b p Hp) as [Hm|(j & bi & Hj & Hpk)].
    - destruct (Hmatched p Hm) as (m & i & _ & _ & _ & Hi & Hpk). eauto.
    - exists bi.2. split; [|done]. left.
      apply list_elem_of_In, in_map, list_elem_of_In.
      by eapply list_elem_of_lookup_2. }
  split; [|split; [|split]].
  - intros i [Hi|Hi].
    + by eapply new_languages_no_father.
    + by eapply retired_no_father.
  - intros k bi Hk. destruct (Hout k bi Hk) as [Hname Hfather].
    split; [done|].
    destruct Hfather as [?|(p & Hp & Hnz & Hpar & Hw)]; [by left|].
    right. exists p. repeat split; [done|done|done|].
    destruct Hw as [Hm|?]; [left; by apply Hmatched | by right].
  - destruct (new_families_sublist _ _ _ _ _ _ Hnf) as (k & Hk & Hsub).
    simpl in Hk. rewrite Hk.
    eapply StronglySorted_sublist; [exact Hsub|].
    apply StronglySorted_merge_sort; apply _.
  - intros i p [Hi|Hi] Hp.
    + destruct (updates_fathers _ _ _ _ _ Hup i p Hi Hp) as [b Hb]. eauto.
    + destruct (languages_fathers _ _ _ _ _ _ _ _ Hls i p Hi Hp) as [b Hb].
      eauto.
Qed.

End Proofs.

(** * Further properties *)

Section More.

Set Default Proof Using "Type".

Variable unescape : string → string.
Context {session : Type}.
Variable glottocode : string → session → string * session.
Context {float : Type}.
Variable parse_float : string → res float.

(** ** Texts that do not parse *)

Lemma foldM_app {A S : Type} (f : S → A → res S) (l1 l2 : list A) (s : S) :
  foldM f (l1 ++ l2) s = foldM f l1 s ≫= foldM f l2.
Proof.
  revert s. induction l1 as [|x l1 IH]; intros s; simpl; [done|].
  destruct (f s x); simpl; auto.
Qed.

Lemma split_step_blank (st : split_state) (line : string) :
  blank line → split_step unescape st line = Ok st.
Proof.
  unfold blank, split_step. intros ->. by destruct st.
Qed.

Lemma split_blank_lines (st : split_state) (ls : list string) :
  Forall blank ls → foldM (split_step unescape) ls st = Ok st.
Proof.
  induction 1 as [|l ls Hl _ IH]; simpl; [done|].
  by rewrite split_step_blank.
Qed.

(** X1. A text without any header — empty, or of blank lines only — makes
    the generator yield [None] alone, on which the loop of
    [parse_families] raises a [TypeError]; so does [main] when [lff.txt]
    is such a text. *)
Theorem blank_text_is_a_type_error (fp : string) :
  Forall blank (PyStr.split newline fp) →
  split_families unescape fp = Ok [None]
  ∧ (∀ families languages,
       parse_families unescape fp families languages = Raise TypeError)
  ∧ (∀ inp : inputs, in_lff inp = fp →
       main unescape glottocode parse_float inp = Raise TypeError).
Proof.
  intros Hblank.
  assert (Hsplit : split_families unescape fp = Ok [None]).
  { unfold split_families. by rewrite split_blank_lines. }
  assert (Hparse : ∀ families languages,
            parse_families unescape fp families languages = Raise TypeError).
  { intros. unfold parse_families. by rewrite Hsplit. }
  split; [done|]. split; [done|].
  intros inp Hlff. unfold main, run. by rewrite Hlff, Hparse.
Qed.

(** X2. A text whose first line that is not blank is a leaf line never
    parses: a well-formed leaf line has no family to go to, which is a
    [TypeError], and one that is not well formed raises its own error. *)
Theorem leaf_before_header_raises (fp line : string)
    (before after : list string) :
  PyStr.split newline fp = before ++ line :: after →
  Forall blank before →
  PyStr.nonempty (PyStr.strip line) = true →
  PyStr.startswith line "  " = true →
  split_families unescape fp
  = Raise (match leaf_line unescape line with
           | Ok _ => TypeError
           | Raise e => e
           end)
  ∧ ∀ families languages,
      is_ok (parse_families unescape fp families languages) = false.
Proof.
  intros Hlines Hblank Hne Hsw.
  assert (Hsplit : split_families unescape fp
                   = Raise (match leaf_line unescape line with
                            | Ok _ => TypeError
                            | Raise e => e
                            end)).
  { unfold split_families. rewrite Hlines, foldM_app.
    rewrite split_blank_lines by done. simpl.
    unfold split_step at 1. rewrite Hne, Hsw. simpl.
    by destruct (leaf_line unescape line) as [[code name]|e]. }
  split; [done|]. intros. unfold parse_families. by rewrite Hsplit.
Qed.

(** ** Headers and codes *)

Lemma split_not_nil (c : ascii) (s : string) : PyStr.split c s ≠ [].
Proof.
  destruct s as [|a s]; simpl; [done|].
  destruct (Ascii.eqb a c); [done|]. by destruct (PyStr.split c s).
Qed.

(** X3. [normalized_branch] returns for every line: the line always has a
    first component.  When that is a key of [name_map], the branch is the
    one name it maps to, the status is ['established'] and the comment
    lists the other components; otherwise the comment is empty, also for a
    [Speech Register] header, whose status is ['established'], with
    [' retired'] or without.  The status is one of six: that of a
    [Spurious] or [Unattested] header is the name in lower case, with
    [' retired'] or without, and any other header is ['established'] and
    keeps its components as the branch. *)
Theorem normalized_branch_returns (line : string) :
  ∃ b0 rest branch status comment,
    map (λ n, unescape (PyStr.replace "_" " " (PyStr.strip n)))
        (PyStr.split "," line) = b0 :: rest
    ∧ normalized_branch unescape line = Ok (branch, status, comment)
    ∧ status ∈ statuses
    ∧ (∀ mapped, name_map !! b0 = Some mapped →
         branch = [mapped] ∧ status = "established"
         ∧ comment = PyStr.join ", " rest)
    ∧ (name_map !! b0 = None → comment = EmptyString)
    ∧ (b0 = "Speech Register" →
       comment = EmptyString
       ∧ (status = "established" ∨ status = "established retired"))
    ∧ (b0 = "Spurious" →
       status = "spurious" ∨ status = "spurious retired")
    ∧ (b0 = "Unattested" →
       status = "unattested" ∨ status = "unattested retired")
    ∧ (name_map !! b0 = None →
       b0 ∉ ["Spurious"; "Speech Register"; "Unattested"] →
       branch = b0 :: rest ∧ status = "established").
Proof.
  clear glottocode parse_float session float.
  unfold normalized_branch.
  destruct (PyStr.split "," line) as [|w ws] eqn:Hsplit.
  { by apply split_not_nil in Hsplit. }
  cbn [map]. set (b0 := unescape _). set (rest := map _ ws).
  exists b0, rest.
  destruct (name_map !! b0) as [mapped|] eqn:Hmap.
  - assert (Hne : ∀ s, name_map !! s = None → b0 ≠ s).
    { intros s Hs Heq. rewrite Heq in Hmap. congruence. }
    assert (H1 : b0 ≠ "Unattested") by (by apply Hne).
    assert (H2 : b0 ≠ "Speech Register") by (by apply Hne).
    assert (H3 : b0 ≠ "Spurious") by (by apply Hne).
    unfold str_eqb. rewrite (bool_decide_eq_false_2 _ H1). cbn [negb].
    eexists _, _, _. split; [done|]. split; [done|]. split; [left|].
    split_and!; try done. by intros m [= <-].
  - unfold str_in.
    destruct (bool_decide (b0 ∈ ["Spurious"; "Speech Register"; "Unattested"]))
      eqn:Hin.
    + apply bool_decide_eq_true in Hin.
      assert (Hcases : b0 = "Spurious" ∨ b0 = "Speech Register"
                       ∨ b0 = "Unattested").
      { repeat (apply elem_of_cons in Hin as [->|Hin]); auto.
        by apply elem_of_nil in Hin. }
      clear Hmap.
      destruct Hcases as [Hb | [Hb | Hb]]; rewrite Hb in *; cbn [length];
        unfold str_eqb; simpl bool_decide.
      * destruct rest as [|b1 rest1]; simpl.
        { eexists _, _, _. split; [done|]. split; [done|].
          split; [right; right; left|]. split_and!; try done; auto. }
        destruct (bool_decide (b1 ∈ ["Retired"])); eexists _, _, _;
          (split; [done|]); (split; [done|]);
          (split; [first [by do 5 right; left | by right; right; left]|]);
          split_and!; try done; auto.
      * destruct rest as [|b1 rest1]; simpl.
        { eexists _, _, _. split; [done|]. split; [done|].
          split; [left|]. split_and!; try done; auto. }
        destruct (bool_decide (b1 ∈ ["Retired"])); eexists _, _, _;
          (split; [done|]); (split; [done|]);
          (split; [first [by do 3 right; left | by left]|]);
          split_and!; try done; auto.
      * destruct rest as [|b1 rest1]; simpl.
        { eexists _, _, _. split; [done|]. split; [done|].
          split; [right; left|]. split_and!; try done; auto. }
        destruct (bool_decide (b1 ∈ ["Retired"])); eexists _, _, _;
          (split; [done|]); (split; [done|]);
          (split; [first [by do 4 right; left | by right; left]|]);
          split_and!; try done; auto.
    + apply bool_decide_eq_false in Hin.
      eexists _, _, _. split; [done|]. split; [done|]. split; [left|].
      split_and!; try done.
      * intros ->. destruct Hin. right. left.
      * intros ->. destruct Hin. left.
      * intros ->. destruct Hin. do 2 right. left.
Qed.

Lemma prefix_one_char (c a : ascii) (s : string) :
  String.prefix (String c EmptyString) (String a s) = Ascii.eqb a c.
Proof.
  simpl. destruct (ascii_dec c a) as [->|Hne].
  - rewrite Ascii.eqb_refl. by destruct s.
  - symmetry. apply Ascii.eqb_neq. congruence.
Qed.

(** Replacing a character by nothing leaves none of it. *)
Lemma replace_removes (c : ascii) (s : string) :
  PyStr.all_chars (λ a, negb (Ascii.eqb a c))
    (PyStr.replace (String c EmptyString) EmptyString s) = true.
Proof.
  unfold PyStr.replace. induction s as [|a s IH]; [done|].
  cbn [PyStr.replace_go]. rewrite prefix_one_char.
  destruct (Ascii.eqb a c) eqn:Hac.
  - exact IH.
  - cbn [PyStr.all_chars]. by rewrite Hac.
Qed.

(** X4. The code taken from a leaf line holds no closing bracket, no
    backslash and no quote of either kind. *)
Theorem leaf_code_is_stripped (raw : string) (c : ascii) :
  c ∈ stripped_chars →
  PyStr.all_chars (λ a, negb (Ascii.eqb a c)) (leaf_code raw) = true.
Proof.
  intros Hc. unfold leaf_code.
  set (code := hd EmptyString (PyStr.split "]" raw)).
  assert (Hbracket : PyStr.all_chars (λ a, negb (Ascii.eqb a "]")) code = true).
  { unfold code. destruct (PyStr.split "]" raw) as [|w ws] eqn:Hs; [done|].
    simpl. apply (split_pieces "]" raw). rewrite Hs. left. }
  unfold stripped_chars in Hc.
  repeat (apply elem_of_cons in Hc as [->|Hc]); [| | | |by apply elem_of_nil in Hc].
  - by repeat (apply all_chars_replace; [done|]).
  - apply all_chars_replace; [done|].
    do 2 (apply all_chars_replace; [done|]). apply replace_removes.
  - apply all_chars_replace; [done|]. apply all_chars_replace; [done|].
    apply replace_removes.
  - apply all_chars_replace; [done|]. apply replace_removes.
Qed.

(** ** The dictionaries of the parser *)

Lemma od_wf_empty {K V : Type} `{Countable K} : od_wf (od_empty : odict K V).
Proof.
  split; [constructor|]. intros k. simpl. rewrite lookup_empty. split.
  - by intros ?%elem_of_nil.
  - by intros [? ?].
Qed.

Lemma od_wf_set {K V : Type} `{Countable K} (d : odict K V) (k : K) (v : V) :
  od_wf d → od_wf (od_set d k v).
Proof.
  intros [Hnd Hkeys]. unfold od_set, od_mem, od_wf.
  destruct (bool_decide (is_Some (od_map d !! k))) eqn:Hk.
  - apply bool_decide_eq_true in Hk. cbn [od_map od_keys].
    split; [done|]. intros k'.
    rewrite Hkeys. destruct (decide (k = k')) as [<-|Hne].
    + rewrite lookup_insert_eq. split; eauto.
    + by rewrite lookup_insert_ne.
  - apply bool_decide_eq_false in Hk. cbn [od_map od_keys]. split.
    + apply NoDup_app. split; [done|]. split; [|apply NoDup_singleton].
      intros k' Hk' ->%list_elem_of_singleton. by apply Hk, Hkeys.
    + intros k'. rewrite elem_of_app, list_elem_of_singleton, Hkeys.
      destruct (decide (k = k')) as [<-|Hne].
      * rewrite lookup_insert_eq. split; eauto.
      * rewrite lookup_insert_ne by done. split; [|by left].
        by intros [? | ->].
Qed.

Lemma od_wf_del {K V : Type} `{Countable K} (d : odict K V) (k : K) :
  od_wf d → od_wf (od_del d k).
Proof.
  intros [Hnd Hkeys]. unfold od_del, od_wf. cbn [od_map od_keys]. split.
  - by apply NoDup_filter.
  - intros k'. rewrite list_elem_of_filter, Hkeys.
    destruct (decide (k = k')) as [<-|Hne].
    + rewrite lookup_delete_eq. split; [by intros [? _]|by intros [? ?]].
    + rewrite lookup_delete_ne by done. split; [by intros [_ ?]|].
      intros ?. split; [congruence|done].
Qed.

Lemma od_keys_set_prefix {K V : Type} `{Countable K} (d : odict K V)
    (k : K) (v : V) :
  od_keys d `prefix_of` od_keys (od_set d k v).
Proof.
  unfold od_set. simpl. destruct (od_mem d k); [done|]. by apply prefix_app_r.
Qed.

Lemma parse_step_keys (st : families_t * languages_t) (f : family) :
  od_keys st.1 `prefix_of` od_keys (parse_step st f).1
  ∧ od_keys st.2 `prefix_of` od_keys (parse_step st f).2.
Proof.
  clear unescape glottocode parse_float session float.
  unfold parse_step. simpl. split.
  - unfold families_step.
    apply (foldl_invariant
             (λ F : families_t, od_keys st.1 `prefix_of` od_keys F)); [|done].
    intros F i _ HFi. etrans; [exact HFi|]. unfold add_prefix.
    destruct (od_get F (take (S i) f.1.1.1)); apply od_keys_set_prefix.
  - destruct f as [[[branch status] comment] leafs]. unfold record_leafs. simpl.
    apply (foldl_invariant
             (λ G : languages_t, od_keys st.2 `prefix_of` od_keys G)); [|done].
    intros G cn _ HGi. etrans; [exact HGi|]. apply od_keys_set_prefix.
Qed.

(** X5. [parse_families] keeps the two ordered dictionaries well formed —
    each key of the mapping once in the key order, and no other — and only
    appends to the key order: the keys that were there stay where they
    were, so a second file is merged into the first. *)
Theorem parse_families_merges (fp : string) (families : families_t)
    (languages : languages_t) (families' : families_t)
    (languages' : languages_t) :
  parse_families unescape fp families languages = Ok (families', languages') →
  (od_wf families → od_wf families')
  ∧ (od_wf languages → od_wf languages')
  ∧ od_keys families `prefix_of` od_keys families'
  ∧ od_keys languages `prefix_of` od_keys languages'.
Proof.
  intros (fs & _ & Hst)%parse_families_steps.
  assert (Hwf1 : od_wf families → od_wf families').
  { intros HF. rewrite foldl_parse_step in Hst. injection Hst as -> _.
    apply (foldl_invariant (λ F : families_t, od_wf F)); [|done].
    intros F f _ HFi. unfold families_step.
    apply (foldl_invariant (λ F : families_t, od_wf F)); [|done].
    intros F' i _ HFi'. unfold add_prefix.
    destruct (od_get F' (take (S i) f.1.1.1)); by apply od_wf_set. }
  assert (Hwf2 : od_wf languages → od_wf languages').
  { intros HG. rewrite foldl_parse_step in Hst. injection Hst as _ ->.
    apply (foldl_invariant (λ G : languages_t, od_wf G)); [|done].
    intros G [[[branch status] comment] leafs] _ HGi.
    unfold record_leafs. simpl.
    apply (foldl_invariant (λ G : languages_t, od_wf G)); [|done].
    intros G' cn _ HGi'. by apply od_wf_set. }
  split; [done|]. split; [done|].
  assert (Hkeys : od_keys families `prefix_of`
                    od_keys (foldl parse_step (families, languages) fs).1
                  ∧ od_keys languages `prefix_of`
                    od_keys (foldl parse_step (families, languages) fs).2).
  { apply (foldl_invariant
             (λ st : families_t * languages_t,
                od_keys families `prefix_of` od_keys st.1
                ∧ od_keys languages `prefix_of` od_keys st.2)); [|done].
    intros st f _ [H1 H2]. destruct (parse_step_keys st f) as [H3 H4].
    split; etrans; eauto. }
  by rewrite <- Hst in Hkeys.
Qed.

Lemma recorded_none (fs : list family) (code : string) :
  (∀ f, f ∈ fs → f.2 !! code = None) → recorded fs !! code = None.
Proof.
  clear unescape glottocode parse_float session float.
  induction fs as [|f fs IH]; intros Hnone; simpl; [done|].
  apply lookup_union_None. split.
  - apply IH. intros g Hg. apply Hnone. by right.
  - rewrite lookup_fmap, (Hnone f); [done | left].
Qed.

Lemma recorded_last (before after : list family) (f : family)
    (code name : string) :
  f.2 !! code = Some name →
  (∀ g, g ∈ after → g.2 !! code = None) →
  recorded (before ++ f :: after) !! code
  = Some (Language (Some f.1.1.1) f.1.1.2 name f.1.2).
Proof.
  clear unescape glottocode parse_float session float.
  intros Hcode Hafter. induction before as [|b before IH]; simpl.
  - rewrite lookup_union_r by (by apply recorded_none).
    by rewrite lookup_fmap, Hcode.
  - by apply lookup_union_Some_l.
Qed.

(** X6. After [parse_families], a code of the text is a key of
    [languages] with the branch, status and comment of the last header it
    is listed under, and with its name there; a code that the text does not
    list keeps the entry it had, or none. *)
Theorem languages_record_last_listing (fp : string) (families : families_t)
    (languages : languages_t) (families' : families_t)
    (languages' : languages_t) (fams : list (option family)) :
  parse_families unescape fp families languages = Ok (families', languages') →
  split_families unescape fp = Ok fams →
  (∀ before h leafs after code name,
     fams = before ++ Some (h, leafs) :: after →
     leafs !! code = Some name →
     (∀ h' leafs', Some (h', leafs') ∈ after → leafs' !! code = None) →
     od_get languages' code = Some (Language (Some h.1.1) h.1.2 name h.2))
  ∧ (∀ code,
       (∀ h leafs, Some (h, leafs) ∈ fams → leafs !! code = None) →
       od_get languages' code = od_get languages code).
Proof.
  intros (fs & Hsplit & Hst)%parse_families_steps Hfams.
  rewrite Hsplit in Hfams. injection Hfams as <-.
  rewrite foldl_parse_step in Hst. injection Hst as _ ->.
  unfold od_get. split.
  - intros before h leafs after code name Hfs Hcode Hafter.
    rewrite languages_steps_map.
    apply lookup_union_Some_l.
    assert (Hdec : ∃ fb fa, fs = fb ++ (h, leafs) :: fa
                            ∧ map Some fa = after).
    { clear -Hfs. revert before Hfs.
      induction fs as [|f fs IH]; intros [|b before] Hfs; simpl in *;
        try discriminate.
      - injection Hfs as -> <-. by exists [], fs.
      - injection Hfs as _ Hfs. destruct (IH _ Hfs) as (fb & fa & -> & <-).
        by exists (f :: fb), fa. }
    destruct Hdec as (fb & fa & -> & <-).
    apply (recorded_last fb fa (h, leafs) code name); [done|].
    intros [h' leafs'] Hin. simpl. apply (Hafter h').
    apply list_elem_of_In, in_map_iff. exists (h', leafs').
    split; [done|]. by apply list_elem_of_In.
  - intros code Hnone. rewrite languages_steps_map.
    apply lookup_union_r. apply recorded_none.
    intros [h' leafs'] Hin. simpl. apply (Hnone h').
    apply list_elem_of_In, in_map_iff. exists (h', leafs').
    split; [done|]. by apply list_elem_of_In.
Qed.

(** ** Families by name *)

Lemma names_loop (keys : list (list string))
    (names0 : gmap string (list (list string))) :
  [] ∉ keys →
  ∃ names, foldM names_step keys names0 = Ok names
    ∧ ∀ name, names !! name
        = match ending_in name keys with
          | [] => names0 !! name
          | bs => Some (default [] (names0 !! name) ++ bs)
          end.
Proof.
  clear unescape glottocode parse_float session float.
  revert names0. induction keys as [|b keys IH]; intros names0 Hne.
  { by exists names0. }
  apply not_elem_of_cons in Hne as [Hb Hne].
  destruct (last b) as [nm|] eqn:Hlast.
  2: { by apply last_None in Hlast. }
  assert (Hstep : names_step names0 b
                  = Ok (match names0 !! nm with
                        | Some bs => <[nm := bs ++ [b]]> names0
                        | None => <[nm := [b]]> names0
                        end)).
  { unfold names_step, last_item. rewrite Hlast. simpl.
    by destruct (names0 !! nm). }
  cbn [foldM]. rewrite Hstep.
  destruct (IH (match names0 !! nm with
                | Some bs => <[nm := bs ++ [b]]> names0
                | None => <[nm := [b]]> names0
                end) Hne) as (names & Hrun & Hnames).
  exists names. split; [done|].
  intros name. rewrite Hnames. unfold ending_in. simpl.
  rewrite Hlast.
  destruct (decide (nm = name)) as [-> | Hneq].
  - rewrite bool_decide_eq_true_2 by done.
    destruct (names0 !! name) as [bs|] eqn:Hold;
      rewrite lookup_insert_eq; simpl;
      destruct (List.filter _ keys); simpl; try done.
    by rewrite <- app_assoc.
  - rewrite bool_decide_eq_false_2 by congruence.
    by destruct (names0 !! nm); rewrite lookup_insert_ne by done.
Qed.

(** X7. The loop that indexes the families by name gives every name the
    branches that end in it, in the order of [families], and has no entry
    for another name; it raises an [IndexError] on an empty branch. *)
Theorem names_index_the_branches (keys : list (list string)) :
  ([] ∉ keys →
   ∃ names, foldM names_step keys ∅ = Ok names
     ∧ ∀ name, names !! name
         = match ending_in name keys with
           | [] => None
           | bs => Some bs
           end)
  ∧ ([] ∈ keys → foldM names_step keys ∅ = Raise IndexError).
Proof.
  clear unescape glottocode parse_float session float.
  split.
  - intros Hne. destruct (names_loop keys ∅ Hne) as (names & Hrun & Hnames).
    exists names. split; [done|]. intros name. rewrite Hnames.
    rewrite lookup_empty. by destruct (ending_in name keys).
  - generalize (∅ : gmap string (list (list string))).
    induction keys as [|b keys IH]; intros names0 Hin.
    { by apply elem_of_nil in Hin. }
    destruct b as [|x b].
    { done. }
    apply elem_of_cons in Hin as [Hin | Hin]; [done|].
    destruct (last (x :: b)) as [nm|] eqn:Hlast.
    2: { by apply last_None in Hlast. }
    assert (Hstep : ∃ names1, names_step names0 (x :: b) = Ok names1).
    { unfold names_step, last_item. rewrite Hlast. simpl.
      destruct (names0 !! nm); eauto. }
    destruct Hstep as [names1 Hstep]. cbn [foldM]. rewrite Hstep.
    by apply IH.
Qed.

(** ** Families with exactly one leaf *)

Lemma map_size_1 {A : Type} (m : gmap string A) :
  size m = 1%nat → ∃ i x, m = {[i := x]} ∧ map_to_list m = [(i, x)].
Proof.
  clear unescape glottocode parse_float session float.
  intros Hsize. rewrite <- length_map_to_list in Hsize.
  destruct (map_to_list m) as [|[i x] [|? ?]] eqn:Hl; try done.
  exists i, x. split; [|done].
  rewrite <- (list_to_map_to_list m), Hl. simpl. by rewrite insert_empty.
Qed.

Lemma filter_all {A : Type} (P : A → Prop) `{∀ x, Decision (P x)}
    (l : list A) :
  (∀ x, x ∈ l → P x) → filter P l = l.
Proof.
  clear unescape glottocode parse_float session float.
  induction l as [|x l IH]; intros HP; [done|].
  rewrite filter_cons_True by (apply HP; by left).
  f_equal. apply IH. intros y Hy. apply HP. by right.
Qed.

Lemma collapse_loop (families : families_t) (languages : languages_t)
    (ks : list (list string)) :
  NoDup ks →
  (∀ key, key ∈ ks → is_Some (od_get families key)) →
  (∀ key leafs, key ∈ ks → od_get families key = Some leafs →
     size leafs = 1%nat →
     key ≠ [] ∧ ∀ code, is_Some (leafs !! code) →
                 is_Some (od_get languages code)) →
  ∃ co, foldM collapse_step ks (Collapsed families languages ∅ ∅) = Ok co
        ∧ collapse_inv families languages ks co.
Proof.
  clear unescape glottocode parse_float session float.
  induction ks as [|key ks IH] using rev_ind; intros Hnodup Hkeys Hone.
  { eexists. split; [done|]. unfold collapse_inv. cbn.
    split_and!.
    - symmetry. apply filter_all. intros k _ [[]%elem_of_nil _].
    - intros k. rewrite decide_False; [done|]. intros [[]%elem_of_nil _].
    - done.
    - intros code. destruct (od_get languages code); [|done].
      split; [done | by left].
    - intros name code. rewrite lookup_empty. split; [done|].
      intros [[]%elem_of_nil _].
    - intros name code. by rewrite lookup_empty. }
  apply NoDup_app in Hnodup as (Hnodup & Hnotin & _).
  assert (Hkey : key ∉ ks).
  { intros Hin. apply (Hnotin _ Hin). by left. }
  destruct IH as (st & Hrun & Hks & Hmap & Hlk & Hlang & Hiso & Hcol).
  { done. }
  { intros k Hk. apply Hkeys, elem_of_app. by left. }
  { intros k v Hk. apply Hone, elem_of_app. by left. }
  rewrite foldM_app, Hrun. cbn [foldM mbind res_bind].
  destruct (Hkeys key) as [leafs Hleafs]; [apply elem_of_app; right; by left|].
  assert (Hget : od_getitem (co_families st) key = Ok leafs).
  { unfold od_getitem, getitem. fold (od_get (co_families st) key).
    rewrite Hmap, decide_False by tauto. by rewrite Hleafs. }
  unfold collapse_step at 1. rewrite Hget. cbn [mbind res_bind].
  destruct (size leafs =? 1)%nat eqn:Hsize.
  2: { eexists. split; [done|]. unfold collapse_inv.
    assert (Hno : one_leaf families key = false).
    { unfold one_leaf. by rewrite Hleafs. }
    split_and!.
    - rewrite Hks. apply list_filter_iff. intros k.
      rewrite elem_of_app, list_elem_of_singleton.
      split; intros Hk [Hin Hk1]; apply Hk; split; try done.
      + destruct Hin as [Hin | ->]; [done | congruence].
      + by left.
    - intros k. rewrite Hmap.
      destruct (decide (k ∈ ks ∧ _)) as [[Hin Hk1] | Hn].
      + rewrite decide_True; [done|]. split; [|done].
        apply elem_of_app. by left.
      + rewrite decide_False; [done|]. intros [Hin Hk1]. apply Hn.
        split; [|done]. apply elem_of_app in Hin as [Hin | Hin]; [done|].
        apply list_elem_of_singleton in Hin as ->. congruence.
    - done.
    - intros code. specialize (Hlang code).
      destruct (od_get languages code), (od_get (co_languages st) code);
        try done.
      destruct Hlang as [Hsame [Hb | (k & v & Hin & Hv & Hdom & Hb)]];
        (split; [done|]); [by left | right].
      exists k, v. split_and!; try done. apply elem_of_app. by left.
    - intros name code. rewrite Hiso, elem_of_app, list_elem_of_singleton.
      split; [intros [Hin Hrest]; split; [by left | done]|].
      intros [[Hin | Hin] (v & Hv & Hdom)]; [split; [done | eauto]|].
      subst key. rewrite Hv in Hleafs. injection Hleafs as ->.
      assert (size leafs = 1%nat); [|apply Nat.eqb_neq in Hsize; lia].
      by rewrite <- size_dom, Hdom, size_singleton.
    - intros name code Hc.
      destruct (Hcol _ _ Hc) as (k & v & Hin & Hrest).
      exists k, v. split; [apply elem_of_app; by left | done]. }
  apply Nat.eqb_eq in Hsize.
  destruct (map_size_1 leafs Hsize) as (code & nm & Hsingle & Hlist).
  assert (Hdom : dom leafs = ({[code]} : gset string)).
  { by rewrite Hsingle, dom_singleton_L. }
  destruct (Hone key leafs) as [Hnonempty Hcodes]; [|done|done|].
  { apply elem_of_app; right; by left. }
  destruct (Hcodes code) as [lang0 Hlang0].
  { rewrite Hsingle, lookup_singleton_eq. eauto. }
  assert (Hlang1 := Hlang code). rewrite Hlang0 in Hlang1.
  destruct (od_get (co_languages st) code) as [lang|] eqn:Hcur; [|done].
  unfold first_key. rewrite Hlist. cbn [map fst first_item mbind res_bind].
  unfold od_getitem at 1, getitem. unfold od_get in Hcur. rewrite Hcur.
  assert (Hyes : one_leaf families key = true).
  { unfold one_leaf. rewrite Hleafs. by apply Nat.eqb_eq. }
  assert (Hfam :
    od_keys (od_del (co_families st) key)
    = filter (λ k, ¬ (k ∈ ks ++ [key] ∧ one_leaf families k = true))
        (od_keys families)
    ∧ ∀ k, od_get (od_del (co_families st) key) k
           = if decide (k ∈ ks ++ [key] ∧ one_leaf families k = true)
             then None else od_get families k).
  { split.
    - cbn [od_del od_keys]. rewrite Hks, list_filter_filter.
      apply list_filter_iff. intros k.
      rewrite elem_of_app, list_elem_of_singleton. split.
      + intros [Hne Hn] [[Hin | ->] Hk1]; [|done]. by apply Hn.
      + intros Hn. split.
        * intros ->. apply Hn. split; [by right | done].
        * intros [Hin Hk1]. apply Hn. split; [by left | done].
    - intros k. unfold od_get. cbn [od_del od_map].
      destruct (decide (k = key)) as [-> | Hne].
      + rewrite lookup_delete_eq, decide_True; [done|].
        split; [|done]. apply elem_of_app; right; by left.
      + rewrite lookup_delete_ne by done. fold (od_get (co_families st) k).
        rewrite Hmap.
        destruct (decide (k ∈ ks ∧ _)) as [[Hin Hk1] | Hn].
        * rewrite decide_True; [done|]. split; [|done].
          apply elem_of_app. by left.
        * rewrite decide_False; [done|]. intros [Hin Hk1]. apply Hn.
          split; [|done]. apply elem_of_app in Hin as [Hin | Hin]; [done|].
          by apply list_elem_of_singleton in Hin. }
  destruct Hfam as [Hks' Hmap'].
  assert (Hlangs : ∀ b,
    b = collapsed_branch key →
    od_keys (od_set (co_languages st) code (set_branch lang b))
    = od_keys languages
    ∧ ∀ c,
        match od_get languages c,
              od_get (od_set (co_languages st) code (set_branch lang b)) c
        with
        | Some l, Some l' =>
            same_but_branch l l'
            ∧ (l_branch l' = l_branch l
               ∨ ∃ k v,
                   k ∈ ks ++ [key] ∧ od_get families k = Some v
                   ∧ dom v = {[c]}
                   ∧ l_branch l' = collapsed_branch k)
        | None, None => True
        | _, _ => False
        end).
  { intros b Hb. split.
    - rewrite od_keys_set_present; [done|]. rewrite Hcur. eauto.
    - intros c.
      assert (Hset :
        od_get (od_set (co_languages st) code (set_branch lang b)) c
        = if decide (c = code) then Some (set_branch lang b)
          else od_get (co_languages st) c).
      { unfold od_get. cbn [od_set od_map].
        destruct (decide (c = code)) as [-> | Hne].
        - by rewrite lookup_insert_eq.
        - by rewrite lookup_insert_ne. }
      rewrite Hset. clear Hset.
      destruct (decide (c = code)) as [-> | Hne].
      + rewrite Hlang0.
        destruct Hlang1 as [(? & ? & ?) _].
        split; [done|]. right. exists key, leafs.
        split_and!; try done. apply elem_of_app; right; by left.
      + specialize (Hlang c). fold (od_get (co_languages st) c) in Hlang.
        destruct (od_get languages c), (od_get (co_languages st) c);
          try done.
        destruct Hlang as [Hsame [Hbr | (k & v & Hin & Hv & Hd & Hbr)]];
          (split; [done|]); [by left | right].
        exists k, v. split_and!; try done. apply elem_of_app. by left. }
  destruct (length key =? 1)%nat eqn:Hlen.
  - apply Nat.eqb_eq in Hlen.
    destruct key as [|k0 [|? ?]]; try done.
    cbn [first_item mbind res_bind]. eexists. split; [done|].
    destruct (Hlangs None) as [Hlk' Hlang']; [done|].
    unfold collapse_inv. cbn [co_families co_languages co_isolate_names
                              co_collapsed_names].
    split_and!; try done.
    + intros name c. rewrite elem_of_app, list_elem_of_singleton.
      destruct (decide (name = k0)) as [-> | Hne].
      * rewrite lookup_insert_eq. split.
        -- intros [= <-]. split; [by right | eauto].
        -- intros [_ (v & Hv & Hd)]. rewrite Hv in Hleafs.
           injection Hleafs as ->. f_equal.
           assert (c ∈ ({[code]} : gset string)) by (rewrite <- Hdom, Hd; set_solver).
           set_solver.
      * rewrite lookup_insert_ne by done. rewrite Hiso.
        split; [intros [Hin Hrest]; split; [by left | done]|].
        intros [[Hin | [= ->]] Hrest]; done.
    + intros name c Hc. destruct (Hcol _ _ Hc) as (k & v & Hin & Hrest).
      exists k, v. split; [apply elem_of_app; by left | done].
  - apply Nat.eqb_neq in Hlen.
    destruct (last key) as [kl|] eqn:Hlast.
    2: { by apply last_None in Hlast. }
    unfold last_item. rewrite Hlast. cbn [mbind res_bind].
    eexists. split; [done|].
    destruct (Hlangs (Some (removelast key))) as [Hlk' Hlang'].
    { unfold collapsed_branch. by apply Nat.eqb_neq in Hlen as ->. }
    unfold collapse_inv. cbn [co_families co_languages co_isolate_names
                              co_collapsed_names].
    split_and!; try done.
    + intros name c. rewrite Hiso, elem_of_app, list_elem_of_singleton.
      split; [intros [Hin Hrest]; split; [by left | done]|].
      intros [[Hin | Hin] Hrest]; [done|]. by subst key.
    + intros name c.
      destruct (decide (name = kl)) as [-> | Hne].
      * rewrite lookup_insert_eq. intros [= <-]. exists key, leafs.
        split_and!; try done; [apply elem_of_app; right; by left|].
        destruct key as [|? [|? ?]]; simpl in *; try done; lia.
      * rewrite lookup_insert_ne by done. intros Hc.
        destruct (Hcol _ _ Hc) as (k & v & Hin & Hrest).
        exists k, v. split; [apply elem_of_app; by left | done].
Qed.

Lemma collapse_all (families : families_t) (languages : languages_t) :
  od_wf families →
  (∀ key leafs, od_get families key = Some leafs → size leafs = 1%nat →
     key ≠ [] ∧ ∀ code, is_Some (leafs !! code) →
                 is_Some (od_get languages code)) →
  ∃ co, foldM collapse_step (od_keys families)
          (Collapsed families languages ∅ ∅) = Ok co
        ∧ collapse_inv families languages (od_keys families) co.
Proof.
  clear unescape glottocode parse_float session float.
  intros [Hnodup Hwf] Hone. apply collapse_loop; [done | |].
  - intros key Hkey. by apply Hwf.
  - intros key leafs _. apply Hone.
Qed.

Lemma one_leaf_key (families : families_t) (k : list string) :
  od_wf families → one_leaf families k = true → k ∈ od_keys families.
Proof.
  clear unescape glottocode parse_float session float.
  intros [_ Hwf]. unfold one_leaf, od_get. intros Hk. apply Hwf.
  by destruct (od_map families !! k).
Qed.

(** X8. The loop over the families of [lff.txt] deletes the families with
    exactly one leaf and nothing else: the other families keep their place
    and their leafs.  It returns when the keys of [families] are in order,
    no such family has the empty branch and its leaf is in [languages]. *)
Theorem collapse_removes_one_leaf_families (families : families_t)
    (languages : languages_t) :
  od_wf families →
  (∀ key leafs, od_get families key = Some leafs → size leafs = 1%nat →
     key ≠ [] ∧ ∀ code, is_Some (leafs !! code) →
                 is_Some (od_get languages code)) →
  ∃ co, foldM collapse_step (od_keys families)
          (Collapsed families languages ∅ ∅) = Ok co
        ∧ od_keys (co_families co)
          = filter (λ k, one_leaf families k = false) (od_keys families)
        ∧ (∀ k, od_get (co_families co) k
                = if one_leaf families k then None else od_get families k)
        ∧ od_wf (co_families co)
        ∧ od_keys (co_languages co) = od_keys languages.
Proof.
  clear unescape glottocode parse_float session float.
  intros Hwf Hone.
  destruct (collapse_all families languages Hwf Hone)
    as (co & Hrun & Hks & Hmap & Hlk & _).
  assert (Hkeys : od_keys (co_families co)
                  = filter (λ k, one_leaf families k = false)
                      (od_keys families)).
  { rewrite Hks. apply list_filter_iff. intros k. split.
    - intros Hn. destruct (one_leaf families k) eqn:Hk; [|done].
      destruct Hn. split; [|done]. by apply one_leaf_key.
    - intros Hk [_ Hk1]. congruence. }
  assert (Hget : ∀ k, od_get (co_families co) k
                      = if one_leaf families k then None
                        else od_get families k).
  { intros k. rewrite Hmap. destruct (one_leaf families k) eqn:Hk.
    - rewrite decide_True; [done|]. split; [|done]. by apply one_leaf_key.
    - rewrite decide_False; [done|]. by intros [_ ?]. }
  exists co. split_and!; try done.
  destruct Hwf as [Hnodup Hwf]. split.
  - rewrite Hkeys. by apply NoDup_filter.
  - intros k. fold (od_get (co_families co) k).
    rewrite Hkeys, Hget, list_elem_of_filter, Hwf.
    fold (od_get families k).
    destruct (one_leaf families k).
    + split; [by intros [? _] | by intros [? ?]].
    + tauto.
Qed.

(** X9. The same loop touches [languages] only in the branch of an entry:
    the keys, and the status, name and comment of every language stay; a
    branch that changed is that of a family whose only leaf the language
    was, without its last name, and [None] for a family at the top.
    [isolate_names] maps the name of every family at the top with one leaf
    to that leaf; an entry of [collapsed_names] is the last name of a
    deeper family with one leaf and that leaf. *)
Theorem collapse_reattaches_the_leaf (families : families_t)
    (languages : languages_t) (co : collapsed) :
  od_wf families →
  (∀ key leafs, od_get families key = Some leafs → size leafs = 1%nat →
     key ≠ [] ∧ ∀ code, is_Some (leafs !! code) →
                 is_Some (od_get languages code)) →
  foldM collapse_step (od_keys families) (Collapsed families languages ∅ ∅)
  = Ok co →
  (∀ code,
     match od_get languages code, od_get (co_languages co) code with
     | Some l, Some l' =>
         same_but_branch l l'
         ∧ (l_branch l' = l_branch l
            ∨ ∃ key leafs,
                od_get families key = Some leafs ∧ dom leafs = {[code]}
                ∧ l_branch l' = collapsed_branch key)
     | None, None => True
     | _, _ => False
     end)
  ∧ (∀ name code,
       co_isolate_names co !! name = Some code
       ↔ ∃ leafs, od_get families [name] = Some leafs
                  ∧ dom leafs = {[code]})
  ∧ (∀ name code,
       co_collapsed_names co !! name = Some code →
       ∃ key leafs,
         last key = Some name ∧ (1 < length key)%nat
         ∧ od_get families key = Some leafs ∧ dom leafs = {[code]}).
Proof.
  clear unescape glottocode parse_float session float.
  intros Hwf Hone Hrun.
  destruct (collapse_all families languages Hwf Hone)
    as (co' & Hrun' & _ & _ & _ & Hlang & Hiso & Hcol).
  rewrite Hrun in Hrun'. injection Hrun' as <-.
  split_and!.
  - intros code. specialize (Hlang code).
    destruct (od_get languages code), (od_get (co_languages co) code);
      try done.
    destruct Hlang as [Hsame [Hb | (k & v & _ & Hv & Hd & Hb)]];
      (split; [done|]); [by left | right; eauto].
  - intros name code. rewrite Hiso. split; [by intros [_ ?]|].
    intros (v & Hv & Hd). split; [|eauto].
    apply Hwf. unfold od_get in Hv. rewrite Hv. eauto.
  - intros name code Hc.
    destruct (Hcol _ _ Hc) as (k & v & _ & Hrest). eauto.
Qed.

(** ** What [match_nodes] hands out *)

Lemma match_by_leafset_inv (leafs : list string) (leafset : gset string)
    (rnodes : gmap (list string) (list string))
    (leafsets : list (gset string)) (n : node) (m : Migration)
    (log : list event) :
  match_by_leafset (float:=float) leafs leafset rnodes leafsets n
  = Ok (m, log) →
  m_pk m = n_pk n ∧ m_hid m = None
  ∧ ∀ p, m_pointer m = Some p → ∃ t, rnodes !! t = Some p.
Proof.
  clear unescape glottocode parse_float session.
  unfold match_by_leafset.
  set (ml := if set_truthy (smallest_superset leafset leafsets) then _ else _).
  destruct ml as [s|]; [destruct (set_truthy (Some s))|].
  - intros (cp & Hcp%getitem_Ok & [= <- <-])%bind_Ok. simpl.
    split_and!; try done. intros p [= <-]. eauto.
  - intros [= <- <-]. by split_and!.
  - intros [= <- <-]. by split_and!.
Qed.

Lemma match_fallback_inv (leafs : list string) (leafset : gset string)
    (rnodes : gmap (list string) (list string))
    (leafsets : list (gset string))
    (names : gmap string (list (list string))) (n : node) (m : Migration)
    (log : list event) :
  match_fallback (float:=float) leafs leafset rnodes leafsets names n
  = Ok (m, log) →
  m_pk m = n_pk n ∧ m_hid m = None
  ∧ ∀ p, m_pointer m = Some p →
      (∃ t, rnodes !! t = Some p) ∨ names !! n_name n = Some [p].
Proof.
  clear unescape glottocode parse_float session.
  unfold match_fallback.
  destruct (names !! n_name n) as [[|b [|? ?]]|] eqn:Hname;
    try (intros (? & ? & Hp)%match_by_leafset_inv; split_and!; try done;
         intros p Hptr; left; by apply Hp).
  intros [= <- <-]. simpl. split_and!; try done. intros p [= <-]. by right.
Qed.

Lemma match_nodes_inv (leafs : list string) (nodes : list node)
    (rnodes urnodes : gmap (list string) (list string))
    (leafsets : list (gset string))
    (names : gmap string (list (list string)))
    (todo : list Migration) (log : list event) :
  match_nodes (float:=float) leafs nodes rnodes urnodes leafsets names
  = Ok (todo, log) →
  ∀ m, m ∈ todo →
    m_pk m ∈ map n_pk nodes
    ∧ (∀ hid, m_hid m = Some hid →
         m_pointer m = None
         ∧ (rnodes !! leafs = Some hid
            ∨ (is_Some (rnodes !! leafs) ∧ urnodes !! leafs = Some hid)))
    ∧ (∀ p, m_pointer m = Some p →
         (∃ t, rnodes !! t = Some p)
         ∨ (∃ n, n ∈ nodes ∧ names !! n_name n = Some [p])).
Proof.
  clear unescape glottocode parse_float session.
  unfold match_nodes. destruct (rnodes !! leafs) as [cp|] eqn:Hcp.
  - assert (Hexact : ∀ todo',
      match_exact cp nodes = Ok todo' → ∀ m, m ∈ todo' →
        m_pk m ∈ map n_pk nodes
        ∧ (∀ hid, m_hid m = Some hid →
             m_pointer m = None
             ∧ (Some cp = Some hid
                ∨ (is_Some (Some cp) ∧ urnodes !! leafs = Some hid)))
        ∧ (∀ p, m_pointer m = Some p →
             (∃ t, rnodes !! t = Some p)
             ∨ (∃ n, n ∈ nodes ∧ names !! n_name n = Some [p]))).
    { unfold match_exact. destruct nodes as [|n0 others]; [done|].
      intros todo' [= <-] m [-> | Hm]%elem_of_cons.
      - cbn [m_pk m_hid m_pointer]. split_and!.
        + rewrite list_elem_of_fmap. exists n0. split; [done | by left].
        + intros hid [= <-]. split; [done | by left].
        + done.
      - apply list_elem_of_fmap in Hm as (n & -> & Hn).
        cbn [m_pk m_hid m_pointer]. split_and!.
        + rewrite list_elem_of_fmap. exists n. split; [done | by right].
        + done.
        + intros p [= <-]. left. eauto. }
    destruct (urnodes !! leafs) as [ucp|] eqn:Hucp.
    + unfold match_unclassified.
      destruct (length nodes <=? 2)%nat; [|done]. cbn [assert mbind res_bind].
      destruct nodes as [|n1 [|n2 [|? ?]]];
        try (cbn [mbind res_bind];
             intros (todo' & Hex & [= <- <-])%bind_Ok; by apply Hexact).
      set (pair := if negb _ then _ else _). destruct pair as [unode nd] eqn:Hp.
      destruct (bool_decide (n_father unode = Some (n_pk nd))); [|done].
      cbn [assert mbind res_bind]. intros [= <- <-] m Hm.
      assert (Hpks : n_pk nd ∈ map n_pk [n1; n2]
                     ∧ n_pk unode ∈ map n_pk [n1; n2]).
      { subst pair. destruct (negb _); injection Hp as <- <-;
          simpl; rewrite !elem_of_cons; auto. }
      destruct Hpks as [Hnd Hunode].
      apply elem_of_cons in Hm as [-> | Hm];
        [|apply list_elem_of_singleton in Hm as ->];
        cbn [m_pk m_hid m_pointer]; split_and!; try done.
      * intros hid [= <-]. split; [done | by left].
      * intros hid [= <-]. split; [done | right; eauto].
    + cbn [mbind res_bind].
      intros (todo' & Hex & [= <- <-])%bind_Ok. by apply Hexact.
  - set (found := if (10 <? length leafs)%nat then _ else None).
    destruct found as [nleafset|].
    + intros (cp & Hcp'%getitem_Ok & [= <- <-])%bind_Ok m Hm.
      apply list_elem_of_fmap in Hm as (n & -> & Hn).
      cbn [m_pk m_hid m_pointer]. split_and!.
      * rewrite list_elem_of_fmap. eauto.
      * done.
      * intros p [= <-]. left. eauto.
    + intros (rs & Hrs%mapM_Ok & [= <- <-])%bind_Ok m Hm.
      apply list_elem_of_fmap in Hm as ([m' lg] & -> & Hm).
      apply list_elem_of_lookup_1 in Hm as [i Hi].
      destruct (Forall2_lookup_r _ _ _ _ _ Hrs Hi) as (n & Hn & Hfb).
      apply list_elem_of_lookup_2 in Hn.
      apply match_fallback_inv in Hfb as (Hpk & Hhid & Hptr).
      cbn [fst]. split_and!.
      * rewrite Hpk, list_elem_of_fmap. eauto.
      * intros hid. by rewrite Hhid.
      * intros p Hp. destruct (Hptr _ Hp); [by left | right; eauto].
Qed.

(** X10. A migration that [match_nodes] returns has a [hid] only when the
    leafs are a key of [rnodes], and the [hid] is then the branch that
    [rnodes], or [urnodes], has for these very leafs; its pointer, if any,
    is a branch of [rnodes] or the one branch under the name of one of the
    nodes. *)
Theorem match_nodes_provenance (leafs : list string) (nodes : list node)
    (rnodes urnodes : gmap (list string) (list string))
    (leafsets : list (gset string))
    (names : gmap string (list (list string)))
    (todo : list Migration) (log : list event) :
  match_nodes (float:=float) leafs nodes rnodes urnodes leafsets names
  = Ok (todo, log) →
  ∀ m, m ∈ todo →
    (∀ hid, m_hid m = Some hid →
       rnodes !! leafs = Some hid
       ∨ (is_Some (rnodes !! leafs) ∧ urnodes !! leafs = Some hid))
    ∧ (∀ p, m_pointer m = Some p →
         (∃ t, rnodes !! t = Some p)
         ∨ (∃ n, n ∈ nodes ∧ names !! n_name n = Some [p])).
Proof.
  clear unescape glottocode parse_float session.
  intros Hrun m Hm.
  destruct (match_nodes_inv _ _ _ _ _ _ _ _ Hrun m Hm) as (_ & Hhid & Hptr).
  split; [|done]. intros hid Hh. by destruct (Hhid hid Hh).
Qed.

(** ** The leafs of the new classification *)

Lemma known_leafs_canonical (codes : gmap string Z)
    (all : gmap string string) :
  canonical (known_leafs codes all).
Proof.
  clear unescape glottocode parse_float session float.
  unfold known_leafs, sorted_strings. split.
  - apply Sorted_merge_sort, _.
  - rewrite merge_sort_Permutation.
    apply NoDup_ListNoDup, List.NoDup_filter, NoDup_ListNoDup.
    apply NoDup_fst_map_to_list.
Qed.

Lemma rnodes_step_inv (inp : inputs (session:=session)) (families : families_t)
    (done : list (list string))
    (st st' : gmap (list string) (list string)
              * gmap (list string) (list string))
    (fam : list string) :
  rnodes_inv inp families done st →
  rnodes_step inp families st fam = Ok st' →
  rnodes_inv inp families (done ++ [fam]) st'.
Proof.
  clear unescape glottocode parse_float float.
  intros (Hrn & Hurn & Hdone). unfold rnodes_step.
  intros (all & Hall%getitem_Ok & H1)%bind_Ok.
  apply bind_Ok in H1 as (f0 & _ & H1).
  apply bind_Ok in H1 as (_ & _ & H1).
  fold (known_leafs (in_codes inp) all) in H1.
  set (leafs := known_leafs (in_codes inp) all) in *.
  apply bind_Ok in H1 as (_ & Hleafs%assert_Ok & H1).
  assert (Hne : leafs ≠ []) by (by destruct leafs).
  assert (Hin : fam ∈ done ++ [fam]) by (apply elem_of_app; right; by left).
  assert (Hmono : ∀ f, f ∈ done → f ∈ done ++ [fam]).
  { intros f Hf. apply elem_of_app. by left. }
  destruct st as [rn urn]. cbn [fst snd] in *.
  destruct (rn !! leafs) as [r|] eqn:Hr.
  - apply bind_Ok in H1 as (_ & Hunc%assert_Ok & H1).
    apply bind_Ok in H1 as (_ & Hsub%assert_Ok & H1).
    apply bind_Ok in H1 as (_ & Hfree%assert_Ok & H1).
    injection H1 as <-.
    apply bool_decide_eq_true in Hsub.
    apply negb_true_iff, bool_decide_eq_false in Hfree.
    assert (Hnone : urn !! leafs = None).
    { destruct (urn !! leafs); [destruct Hfree; eauto | done]. }
    split_and!; cbn [fst snd].
    + intros t f Ht. destruct (Hrn t f Ht) as (? & ? & ? & ?). eauto.
    + intros t uf. destruct (decide (t = leafs)) as [-> | Hneq].
      * rewrite lookup_insert_eq. intros [= <-]. split_and!; eauto.
      * rewrite lookup_insert_ne by done. intros Ht.
        destruct (Hurn t uf Ht) as (? & ? & ? & ?). eauto.
    + intros f [Hf | ->%list_elem_of_singleton]%elem_of_app.
      * destruct (Hdone f Hf) as (a & Ha & [Hl | Hl]); exists a;
          (split; [done|]); [by left | right].
        rewrite lookup_insert_ne; [done|]. intros Heq.
        rewrite <- Heq in Hl. congruence.
      * exists all. split; [done|]. right. apply lookup_insert_eq.
  - injection H1 as <-. split_and!; cbn [fst snd].
    + intros t f. destruct (decide (t = leafs)) as [-> | Hneq].
      * rewrite lookup_insert_eq. intros [= <-].
        split_and!; eauto using known_leafs_canonical.
      * rewrite lookup_insert_ne by done. intros Ht.
        destruct (Hrn t f Ht) as (? & ? & ? & ?). eauto.
    + intros t uf Ht. destruct (Hurn t uf Ht) as (? & ? & ? & f & Hf & ?).
      split_and!; eauto. exists f. split; [|done].
      rewrite lookup_insert_ne; [done|]. intros Heq.
      rewrite <- Heq in Hf. congruence.
    + intros f [Hf | ->%list_elem_of_singleton]%elem_of_app.
      * destruct (Hdone f Hf) as (a & Ha & [Hl | Hl]); exists a;
          (split; [done|]); [left | by right].
        rewrite lookup_insert_ne; [done|]. intros Heq.
        rewrite <- Heq in Hl. congruence.
      * exists all. split; [done|]. left. apply lookup_insert_eq.
Qed.

Lemma rnodes_loop_inv (inp : inputs (session:=session)) (families : families_t)
    (keys done : list (list string))
    (st st' : gmap (list string) (list string)
              * gmap (list string) (list string)) :
  rnodes_inv inp families done st →
  foldM (rnodes_step inp families) keys st = Ok st' →
  rnodes_inv inp families (done ++ keys) st'.
Proof.
  clear unescape glottocode parse_float float.
  revert done st. induction keys as [|fam keys IH]; intros done st Hinv.
  { intros [= <-]. by rewrite app_nil_r. }
  cbn [foldM]. intros (st1 & Hstep & Hrest)%bind_Ok.
  rewrite (assoc_L (++) done [fam] keys : done ++ fam :: keys = _).
  eapply IH; [|done]. by eapply rnodes_step_inv.
Qed.

(** X11. When the loop over [families] returns, a key of [rnodes] is the
    sorted tuple, without duplicates and not empty, of the codes with a pk
    below a family, and its value is that family; an entry of [urnodes]
    is a family with an 'Unclassified' name whose names include those of
    the family [rnodes] has for the same leafs; and every family is the
    value of one of the two for its leafs, so no three families share
    their leafs. *)
Theorem rnodes_hold_every_family (inp : inputs (session:=session)) (families : families_t)
    (keys : list (list string))
    (rnodes urnodes : gmap (list string) (list string)) :
  foldM (rnodes_step inp families) keys (∅, ∅) = Ok (rnodes, urnodes) →
  (∀ t fam, rnodes !! t = Some fam →
     t ≠ [] ∧ canonical t ∧ fam ∈ keys
     ∧ ∃ all, od_get families fam = Some all
              ∧ t = known_leafs (in_codes inp) all)
  ∧ (∀ t ufam, urnodes !! t = Some ufam →
       ufam ∈ keys ∧ has_unclassified ufam = true
       ∧ (∃ all, od_get families ufam = Some all
                 ∧ t = known_leafs (in_codes inp) all)
       ∧ ∃ fam, rnodes !! t = Some fam
                ∧ (list_to_set fam : gset string) ⊆ list_to_set ufam)
  ∧ (∀ fam, fam ∈ keys →
       ∃ all, od_get families fam = Some all
              ∧ (rnodes !! known_leafs (in_codes inp) all = Some fam
                 ∨ urnodes !! known_leafs (in_codes inp) all = Some fam)).
Proof.
  clear unescape glottocode parse_float float.
  intros Hrun.
  apply (rnodes_loop_inv inp families keys [] (∅, ∅) (rnodes, urnodes));
    [|done].
  split_and!; cbn [fst snd].
  - intros t fam. by rewrite lookup_empty.
  - intros t fam. by rewrite lookup_empty.
  - intros fam []%elem_of_nil.
Qed.

Lemma rnodes_lookup_leafset (rnodes : gmap (list string) (list string))
    (s : gset string) :
  (∀ t, is_Some (rnodes !! t) → canonical t) →
  s ∈ leafsets_of rnodes →
  ∃ cp, getitem rnodes (sorted_tuple s) = Ok cp.
Proof.
  clear unescape glottocode parse_float session float.
  intros Hcanon (t & [cp Hcp] & ->)%leafsets_of_elem.
  exists cp. rewrite sorted_tuple_list_to_set by eauto.
  unfold getitem. by rewrite Hcp.
Qed.

Lemma mapM_returns {A B : Type} (f : A → res B) (l : list A) :
  (∀ x, x ∈ l → ∃ y, f x = Ok y) → ∃ ys, mapM f l = Ok ys.
Proof.
  clear unescape glottocode parse_float session float.
  induction l as [|x l IH]; intros Hf; [by eexists|].
  destruct (Hf x) as [y Hy]; [by left|].
  destruct IH as [ys Hys]; [intros z Hz; apply Hf; by right|].
  exists (y :: ys). simpl. by rewrite Hy, Hys.
Qed.

Lemma find_elem {A : Type} (f : A → bool) (l : list A) (x : A) :
  List.find f l = Some x → x ∈ l.
Proof.
  clear unescape glottocode parse_float session float.
  intros [Hx _]%find_some. by apply list_elem_of_In.
Qed.

(** X12. With the leafsets made from [rnodes], and the keys of [rnodes]
    sorted tuples without duplicates, no lookup of [match_nodes] in
    [rnodes] fails: it returns for leafs that are no key of [rnodes], and
    for leafs that are a key of [rnodes] alone and at least one node. *)
Theorem match_nodes_finds_its_branches (leafs : list string)
    (nodes : list node) (rnodes urnodes : gmap (list string) (list string))
    (names : gmap string (list (list string))) :
  (∀ t, is_Some (rnodes !! t) → canonical t) →
  rnodes !! leafs = None ∨ (urnodes !! leafs = None ∧ nodes ≠ []) →
  ∃ todo log,
    match_nodes (float:=float) leafs nodes rnodes urnodes
      (leafsets_of rnodes) names = Ok (todo, log).
Proof.
  clear unescape glottocode parse_float session.
  intros Hcanon Hcase. unfold match_nodes.
  destruct (rnodes !! leafs) as [cp|] eqn:Hcp.
  { destruct Hcase as [? | [-> Hnodes]]; [done|].
    destruct nodes as [|n0 others]; [done|]. by eexists _, _. }
  clear Hcase.
  set (found := if (10 <? length leafs)%nat then _ else None).
  destruct found as [nleafset|] eqn:Hfound.
  - assert (Hin : nleafset ∈ leafsets_of rnodes).
    { subst found. destruct (10 <? length leafs)%nat; [|done].
      by eapply find_elem. }
    destruct (rnodes_lookup_leafset rnodes nleafset Hcanon Hin) as [cp ->].
    by eexists _, _.
  - destruct (mapM_returns
                (match_fallback (float:=float) leafs (list_to_set leafs)
                   rnodes (leafsets_of rnodes) names) nodes) as [rs ->];
      [|by eexists _, _].
    intros n _. unfold match_fallback.
    assert (Hby : ∃ y, match_by_leafset (float:=float) leafs
                         (list_to_set leafs) rnodes (leafsets_of rnodes) n
                       = Ok y).
    { unfold match_by_leafset.
      set (leafset := list_to_set leafs : gset string).
      destruct (smallest_superset leafset (leafsets_of rnodes))
        as [s|] eqn:Hs.
      - apply find_elem in Hs.
        destruct (rnodes_lookup_leafset rnodes s Hcanon Hs) as [cp Hcp'].
        destruct (set_truthy (Some s)) eqn:Hts.
        + rewrite Hts, Hcp'. by eexists.
        + destruct (biggest_intersection_spec leafset (leafsets_of rnodes))
            as [Hm _].
          destruct (set_truthy (Some (biggest_intersection leafset (leafsets_of rnodes))))
            eqn:Htm.
          * rewrite Htm. apply set_truthy_Some in Htm.
            destruct Hm as [Hm | Hm]; [done|].
            destruct (rnodes_lookup_leafset rnodes _ Hcanon Hm) as [cp' ->].
            by eexists.
          * rewrite Hts. by eexists.
      - cbn [set_truthy].
        destruct (biggest_intersection_spec leafset (leafsets_of rnodes))
          as [Hm _].
        destruct (bool_decide
                    (biggest_intersection leafset (leafsets_of rnodes) = ∅))
          eqn:Htm; cbn [negb set_truthy]; [by eexists|].
        rewrite Htm. cbn [negb]. apply bool_decide_eq_false in Htm.
        destruct Hm as [Hm | Hm]; [done|].
        destruct (rnodes_lookup_leafset rnodes _ Hcanon Hm) as [cp' ->].
        by eexists. }
    destruct (names !! n_name n) as [[|b [|? ?]]|]; try done. by eexists.
Qed.

(** ** The pks of the branches *)

Lemma branch_to_pk_loop (todo : list Migration)
    (acc : gmap (list string) Z) :
  (NoDup (matches_of todo).*1
   ∧ (∀ hid, hid ∈ (matches_of todo).*1 → acc !! hid = None) →
   foldM branch_to_pk_step todo acc
   = Ok (foldl (λ b hp, <[hp.1 := hp.2]> b) acc (matches_of todo)))
  ∧ (¬ (NoDup (matches_of todo).*1
        ∧ (∀ hid, hid ∈ (matches_of todo).*1 → acc !! hid = None)) →
     foldM branch_to_pk_step todo acc = Raise AssertionError).
Proof.
  clear unescape glottocode parse_float session float.
  revert acc. induction todo as [|m todo IH]; intros acc.
  { split; [done|]. intros []. split; [constructor|].
    intros hid []%elem_of_nil. }
  cbn [foldM].
  destruct (m_hid m) as [hid|] eqn:Hhid; [destruct (truthy hid) eqn:Ht|].
  2, 3: assert (Hstep : branch_to_pk_step acc m = Ok acc)
          by (unfold branch_to_pk_step; by rewrite Hhid, ?Ht);
        assert (Hm : matches_of (m :: todo) = matches_of todo)
          by (unfold matches_of; cbn [omap list_omap];
              by rewrite Hhid, ?Ht);
        rewrite Hstep, Hm; apply IH.
  assert (Hm : matches_of (m :: todo) = (hid, m_pk m) :: matches_of todo).
  { unfold matches_of. cbn [omap list_omap]. by rewrite Hhid, Ht. }
  rewrite Hm. cbn [fmap list_fmap fst snd foldl].
  destruct (acc !! hid) as [p|] eqn:Hacc.
  - assert (Hstep : branch_to_pk_step acc m = Raise AssertionError).
    { unfold branch_to_pk_step. rewrite Hhid, Ht.
      by rewrite bool_decide_eq_true_2 by eauto. }
    rewrite Hstep. split; [|done]. intros [_ Hfree].
    rewrite Hfree in Hacc; [done | by left].
  - assert (Hstep : branch_to_pk_step acc m = Ok (<[hid := m_pk m]> acc)).
    { unfold branch_to_pk_step. rewrite Hhid, Ht.
      by rewrite bool_decide_eq_false_2 by (intros [? ?]; congruence). }
    rewrite Hstep. cbn [mbind res_bind].
    destruct (IH (<[hid := m_pk m]> acc)) as [IHok IHbad].
    split.
    + intros [[Hnotin Hnodup]%NoDup_cons Hfree]. apply IHok.
      split; [done|]. intros h Hh. rewrite lookup_insert_ne.
      * apply Hfree. by right.
      * intros <-. done.
    + intros Hbad. apply IHbad. intros [Hnodup Hfree]. apply Hbad. split.
      * apply NoDup_cons. split; [|done]. intros Hin.
        specialize (Hfree hid Hin). by rewrite lookup_insert_eq in Hfree.
      * intros h [-> | Hh]%elem_of_cons; [done|].
        specialize (Hfree h Hh).
        destruct (decide (h = hid)) as [-> | Hne]; [done|].
        by rewrite lookup_insert_ne in Hfree.
Qed.

Lemma foldl_insert_lookup (l : list (list string * Z))
    (acc : gmap (list string) Z) (hid : list string) (pk : Z) :
  NoDup l.*1 →
  foldl (λ b hp, <[hp.1 := hp.2]> b) acc l !! hid = Some pk
  ↔ (hid, pk) ∈ l ∨ ((hid ∉ l.*1) ∧ acc !! hid = Some pk).
Proof.
  clear unescape glottocode parse_float session float.
  revert acc. induction l as [|[h p] l IH]; intros acc Hnodup.
  { simpl. split; [intros ?; right; split; [apply not_elem_of_nil | done]|].
    by intros [[]%elem_of_nil | [_ ?]]. }
  apply NoDup_cons in Hnodup as [Hnotin Hnodup].
  cbn [foldl fst snd fmap list_fmap]. rewrite IH by done.
  rewrite elem_of_cons, not_elem_of_cons. split.
  - intros [Hin | [Hn Hacc]]; [by left; right|].
    destruct (decide (hid = h)) as [-> | Hne].
    + rewrite lookup_insert_eq in Hacc. injection Hacc as ->.
      left. by left.
    + rewrite lookup_insert_ne in Hacc by done. by right.
  - intros [[[= -> ->] | Hin] | [[Hne Hn] Hacc]].
    + right. split; [done | apply lookup_insert_eq].
    + by left.
    + right. split; [done|]. by rewrite lookup_insert_ne.
Qed.

(** X13. The mapping for exact matches is built exactly when no two
    migrations of [todo] have the same [hid]: then a branch is mapped to a
    pk if and only if a migration has this [hid] and this pk; otherwise
    the loop raises an [AssertionError]. *)
Theorem branch_to_pk_is_the_matches (todo : list Migration) :
  (NoDup (matches_of todo).*1 →
   ∃ branch_to_pk,
     foldM branch_to_pk_step todo ∅ = Ok branch_to_pk
     ∧ ∀ hid pk, branch_to_pk !! hid = Some pk
                 ↔ (hid, pk) ∈ matches_of todo)
  ∧ (¬ NoDup (matches_of todo).*1 →
     foldM branch_to_pk_step todo ∅ = Raise AssertionError).
Proof.
  clear unescape glottocode parse_float session float.
  destruct (branch_to_pk_loop todo ∅) as [Hok Hbad]. split.
  - intros Hnodup. eexists. split.
    + apply Hok. split; [done|]. intros. apply lookup_empty.
    + intros hid pk. rewrite foldl_insert_lookup by done.
      rewrite lookup_empty. split; [by intros [? | [_ ?]] | by left].
  - intros Hdup. apply Hbad. by intros [? _].
Qed.

(** ** The pks of the instructions *)

Lemma numbered_snoc (base : Z) (l : list (gmap string (value (float:=float))))
    (i : gmap string value) :
  numbered base l →
  i !! "pk" = Some (VInt (base + 1 + Z.of_nat (length l))) →
  numbered base (l ++ [i]).
Proof.
  clear unescape glottocode parse_float session.
  intros Hl Hi k j Hk. apply lookup_app_Some in Hk as [Hk | [Hlen Hk]].
  - by apply Hl.
  - apply list_lookup_singleton_Some in Hk as [Hk <-].
    rewrite Hi. do 2 f_equal. lia.
Qed.

Lemma numbered_app (base : Z)
    (l1 l2 : list (gmap string (value (float:=float)))) :
  numbered base l1 → numbered (base + Z.of_nat (length l1)) l2 →
  numbered base (l1 ++ l2).
Proof.
  clear unescape glottocode parse_float session.
  intros H1 H2 k j Hk. apply lookup_app_Some in Hk as [Hk | [Hlen Hk]].
  - by apply H1.
  - rewrite (H2 _ _ Hk). do 2 f_equal. lia.
Qed.

Lemma with_coords_keeps (coords : gmap string (list string)) (code : string)
    (attrs attrs' : gmap string (value (float:=float))) (k : string) :
  with_coords parse_float coords code attrs = Ok attrs' →
  k ≠ "latitude" → k ≠ "longitude" → attrs' !! k = attrs !! k.
Proof.
  clear unescape glottocode session.
  unfold with_coords. intros Hrun Hlat Hlon.
  destruct (coords !! code) as [[|c cs]|]; try by injection Hrun as <-.
  apply bind_Ok in Hrun as (fl & _ & Hrun).
  destruct fl as [|lon [|lat [|]]]; try done.
  injection Hrun as <-. by rewrite !lookup_insert_ne.
Qed.

Lemma new_language_step_inv (inp : inputs) (languages : languages_t)
    (st st' : new_langs) (code : string) :
  new_language_step glottocode parse_float inp languages st code = Ok st' →
  (is_Some (in_codes inp !! code) ∧ st' = st)
  ∨ (in_codes inp !! code = None
     ∧ nl_maxid st' = nl_maxid st + 1
     ∧ nl_ncodes st' = <[code := nl_maxid st + 1]> (nl_ncodes st)
     ∧ ∃ attrs lang,
         od_get languages code = Some lang
         ∧ nl_languoids st' = nl_languoids st ++ [attrs]
         ∧ attrs !! "pk" = Some (VInt (nl_maxid st + 1))
         ∧ attrs !! "level" = Some (VStr "language")
         ∧ attrs !! "hid" = Some (VStr code)
         ∧ attrs !! "name" = Some (VStr (l_name lang))
         ∧ attrs !! "status" = Some (VStr (l_status lang))).
Proof.
  clear unescape.
  unfold new_language_step. intros Hrun.
  destruct (bool_decide (is_Some (in_codes inp !! code))) eqn:Hmem.
  { injection Hrun as <-. left. by apply bool_decide_eq_true in Hmem. }
  right. apply bool_decide_eq_false in Hmem.
  split; [by apply eq_None_not_Some|].
  apply bind_Ok in Hrun as (lang & Hlang%getitem_Ok & Hrun).
  destruct (glottocode (l_name lang) (nl_session st)) as [id sess].
  apply bind_Ok in Hrun as (attrs' & Hc & Hrun). injection Hrun as <-.
  cbn [nl_maxid nl_ncodes nl_languoids]. split; [done|]. split; [done|].
  exists attrs', lang. split; [done|]. split; [done|].
  rewrite !(with_coords_keeps _ _ _ _ _ Hc) by done.
  split_and!.
  - by rewrite languoid_lookup_default.
  - by rewrite languoid_lookup_default.
  - by apply languoid_lookup_kw.
  - by apply languoid_lookup_kw.
  - by apply languoid_lookup_kw.
Qed.

Lemma new_languages_numbered (inp : inputs) (languages : languages_t)
    (keys : list string) (nl : new_langs) :
  foldM (new_language_step glottocode parse_float inp languages) keys
    (NewLangs (in_maxid inp) ∅ [] (in_session inp) []) = Ok nl →
  nl_maxid nl = in_maxid inp + Z.of_nat (length (nl_languoids nl))
  ∧ numbered (in_maxid inp) (nl_languoids nl).
Proof.
  clear unescape.
  intros Hrun.
  eapply (foldM_invariant
            (λ st : new_langs,
               nl_maxid st
               = in_maxid inp + Z.of_nat (length (nl_languoids st))
               ∧ numbered (float:=float) (in_maxid inp) (nl_languoids st)));
    [| |exact Hrun].
  - intros t code t' _ [Hmax Hnum] Hstep.
    apply new_language_step_inv in Hstep
      as [[_ ->] | (_ & Hmax' & _ & attrs & lang & _ & Hl & Hpk & _)];
      [done|].
    rewrite Hl, Hmax', length_app. split; [simpl; lia|].
    apply numbered_snoc; [done|]. rewrite Hpk. do 2 f_equal. lia.
  - cbn. split; [lia|]. intros k i. by rewrite lookup_nil.
Qed.

Lemma new_family_step_count (families : families_t)
    (rglnodes : gmap (list string) (list node)) (todo : list Migration)
    (st st' : new_fams) (hnode : list string) :
  new_family_step (float:=float) glottocode families rglnodes todo st hnode
  = Ok st' →
  st' = st
  ∨ (nf_maxid st' = nf_maxid st + 1
     ∧ ∃ attrs,
         nf_languoids st' = nf_languoids st ++ [(hnode, attrs)]
         ∧ attrs !! "pk" = Some (VInt (nf_maxid st + 1))).
Proof.
  clear unescape parse_float.
  intros Hrun.
  destruct (new_family_step_inv glottocode _ _ _ _ _ _ Hrun)
    as [-> | (_ & attrs & Hl & _ & Hpk & _)]; [by left|].
  right. split; [|eauto].
  unfold new_family_step in Hrun.
  destruct (bool_decide (is_Some (nf_branch_to_pk st !! hnode))).
  { injection Hrun as <-. rewrite <- (app_nil_r (nf_languoids st)) in Hl at 1.
    by apply app_inv_head in Hl. }
  apply bind_Ok in Hrun as (leafs & _ & Hrun).
  apply bind_Ok in Hrun as (u & _ & Hrun).
  apply bind_Ok in Hrun as (name & _ & Hrun).
  destruct (glottocode name (nf_session st)) as [id sess].
  apply bind_Ok in Hrun as (attrs' & _ & Hrun). by injection Hrun as <-.
Qed.

Lemma new_families_numbered (families : families_t)
    (rglnodes : gmap (list string) (list node)) (todo : list Migration)
    (keys : list (list string)) (st0 nf : new_fams) :
  nf_languoids st0 = [] →
  foldM (new_family_step (float:=float) glottocode families rglnodes todo)
    keys st0 = Ok nf →
  numbered (nf_maxid st0) (map snd (nf_languoids nf)).
Proof.
  clear unescape parse_float.
  intros Hnil Hrun.
  assert (Hinv :
    nf_maxid nf = nf_maxid st0 + Z.of_nat (length (nf_languoids nf))
    ∧ numbered (float:=float) (nf_maxid st0) (map snd (nf_languoids nf))).
  { eapply (foldM_invariant
              (λ st : new_fams,
                 nf_maxid st
                 = nf_maxid st0 + Z.of_nat (length (nf_languoids st))
                 ∧ numbered (float:=float) (nf_maxid st0)
                     (map snd (nf_languoids st)))); [| |exact Hrun].
    - intros t hnode t' _ [Hmax Hnum] Hstep.
      apply new_family_step_count in Hstep
        as [-> | (Hmax' & attrs & Hl & Hpk)]; [done|].
      rewrite Hl, Hmax', length_app, map_app. split; [simpl; lia|].
      apply numbered_snoc; [done|]. cbn [map snd].
      rewrite Hpk, length_map. do 2 f_equal. lia.
    - rewrite Hnil. cbn. split; [lia|]. intros k i. by rewrite lookup_nil. }
  apply Hinv.
Qed.

(** X14. The new nodes — the new languages, then the new families — are
    numbered from the highest pk of the database on: the k-th of them, from
    0, gets the pk [maxid + 1 + k]. *)
Theorem new_nodes_get_fresh_pks (inp : inputs) (r : report) :
  run unescape glottocode parse_float inp = Ok r →
  numbered (in_maxid inp) (r_new_languages r ++ map snd (r_new_families r)).
Proof.
  intros Hrun.
  destruct (run_parts _ _ _ _ _ Hrun)
    as (families & languages & nl & rglnodes & branch_to_pk & log0 & nf & up
        & ri & rc & Hnl & _ & Hnf & _ & _ & -> & -> & _).
  apply new_languages_numbered in Hnl as [Hmax Hnum].
  apply numbered_app; [done|]. rewrite <- Hmax.
  eapply new_families_numbered in Hnf; [exact Hnf | done].
Qed.

(** ** The updates *)

Lemma language_step_inv (codes ncodes : gmap string Z)
    (branch_to_pk : gmap (list string) Z)
    (risolate_names rcollapsed_names : gmap string string)
    (languages : languages_t)
    (out out' : list (gmap string (value (float:=float)))) (l : string) :
  language_step codes ncodes branch_to_pk risolate_names rcollapsed_names
    languages out l = Ok out' →
  ∃ i, out' = out ++ [i]
       ∧ language_update codes ncodes branch_to_pk risolate_names
           rcollapsed_names languages l i.
Proof.
  clear unescape glottocode parse_float session.
  unfold language_step. intros Hrun.
  apply bind_Ok in Hrun as (lang & Hlang%getitem_Ok & Hrun).
  apply bind_Ok in Hrun as (attrs & Ha & Hrun). injection Hrun as <-.
  eexists. split; [done|]. exists lang. split; [done|].
  set (kw := list_to_map [("status", VStr (l_status lang))]
             : gmap string value) in *.
  set (base := languoid (language_pk codes ncodes l) "language" kw) in *.
  assert (Hbase : base !! "pk" = Some (language_pk codes ncodes l)
                  ∧ base !! "level" = Some (VStr "language")
                  ∧ base !! "active" = Some (VBool true)
                  ∧ base !! "status" = Some (VStr (l_status lang))
                  ∧ base !! "father_pk" = Some VNone
                  ∧ base !! "hname" = None).
  { subst base. split_and!;
      try (by rewrite languoid_lookup_default);
      by apply languoid_lookup_kw. }
  destruct Hbase as (Hpk & Hlevel & Hactive & Hstatus & Hfather & Hhname).
  assert (Hattrs : attrs !! "pk" = Some (language_pk codes ncodes l)
                   ∧ attrs !! "level" = Some (VStr "language")
                   ∧ attrs !! "active" = Some (VBool true)
                   ∧ attrs !! "status" = Some (VStr (l_status lang))
                   ∧ attrs !! "hname" = None
                   ∧ match l_branch lang with
                     | Some (b :: bs) =>
                         ∃ father, branch_to_pk !! (b :: bs) = Some father
                                   ∧ attrs !! "father_pk"
                                     = Some (VInt father)
                     | _ => attrs !! "father_pk" = Some VNone
                     end).
  { destruct (l_branch lang) as [[|b bs]|]; cbn in Ha;
      try (injection Ha as <-; by split_and!).
    apply bind_Ok in Ha as (father & Hf%getitem_Ok & Ha). injection Ha as <-.
    rewrite !lookup_insert_ne by done. split_and!; try done.
    exists father. split; [done|]. apply lookup_insert_eq. }
  destruct Hattrs as (Hpk' & Hlevel' & Hactive' & Hstatus' & Hhname' & Hfa').
  assert (Hfa'' : ∀ (i : gmap string value),
            i !! "father_pk" = attrs !! "father_pk" →
            match l_branch lang with
            | Some (b :: bs) =>
                ∃ father, branch_to_pk !! (b :: bs) = Some father
                          ∧ i !! "father_pk" = Some (VInt father)
            | _ => i !! "father_pk" = Some VNone
            end).
  { intros i Hi. destruct (l_branch lang) as [[|b bs]|];
      by rewrite Hi. }
  destruct (rcollapsed_names !! l) as [nc|], (risolate_names !! l) as [ni|];
    cbn [fmap option_fmap option_map];
    (split_and!;
     [by rewrite !lookup_insert_ne | by rewrite !lookup_insert_ne
     |by rewrite !lookup_insert_ne | by rewrite !lookup_insert_ne
     |rewrite ?(lookup_insert_ne _ "hname") by done; apply lookup_insert_eq
     |apply Hfa''; by rewrite !lookup_insert_ne
     |rewrite ?lookup_insert_eq; try done;
      by rewrite !lookup_insert_ne]).
Qed.

Lemma language_loop (codes ncodes : gmap string Z)
    (branch_to_pk : gmap (list string) Z)
    (risolate_names rcollapsed_names : gmap string string)
    (languages : languages_t) (keys : list string)
    (out0 out : list (gmap string (value (float:=float)))) :
  foldM (language_step codes ncodes branch_to_pk risolate_names
           rcollapsed_names languages) keys out0 = Ok out →
  ∃ added, out = out0 ++ added
    ∧ Forall2 (language_update codes ncodes branch_to_pk risolate_names
                 rcollapsed_names languages) keys added.
Proof.
  clear unescape glottocode parse_float session.
  revert out0. induction keys as [|l keys IH]; intros out0.
  { intros [= <-]. exists []. by rewrite app_nil_r. }
  cbn [foldM]. intros (out1 & Hstep & Hrest)%bind_Ok.
  apply language_step_inv in Hstep as (i & -> & Hi).
  destruct (IH _ Hrest) as (added & -> & Hadded).
  exists (i :: added). rewrite <- app_assoc. split; [done|].
  by constructor.
Qed.

Lemma language_loop_returns (codes ncodes : gmap string Z)
    (branch_to_pk : gmap (list string) Z)
    (risolate_names rcollapsed_names : gmap string string)
    (languages : languages_t) (keys : list string)
    (out0 : list (gmap string (value (float:=float)))) :
  (∀ l, l ∈ keys →
     ∃ lang, od_get languages l = Some lang
             ∧ ∀ b bs, l_branch lang = Some (b :: bs) →
                 is_Some (branch_to_pk !! (b :: bs))) →
  ∃ out, foldM (language_step codes ncodes branch_to_pk risolate_names
                  rcollapsed_names languages) keys out0 = Ok out.
Proof.
  clear unescape glottocode parse_float session.
  revert out0. induction keys as [|l keys IH]; intros out0 Hkeys.
  { by eexists. }
  destruct (Hkeys l) as (lang & Hlang & Hbranch); [by left|].
  assert (Hstep : ∃ out1,
            language_step (float:=float) codes ncodes branch_to_pk
              risolate_names rcollapsed_names languages out0 l = Ok out1).
  { unfold language_step, od_getitem, getitem. unfold od_get in Hlang.
    rewrite Hlang. cbn [mbind res_bind].
    destruct (l_branch lang) as [[|b bs]|] eqn:Hb; cbn; try by eexists.
    destruct (Hbranch b bs eq_refl) as [father ->]. by eexists. }
  destruct Hstep as [out1 Hstep]. cbn [foldM]. rewrite Hstep.
  apply IH. intros l' Hl'. apply Hkeys. by right.
Qed.

(** X15. The loop over [languages] appends one update for each language,
    in the order of [languages]: it is an active language with the pk the
    database has for the code, or else the fresh one, the status and the
    comment of its entry, the pk of its branch as [father_pk] or [None]
    when it has no branch, and as [hname] the name of the family it was
    the only leaf of.  The loop returns when every key has an entry whose
    branch, if any, has a pk. *)
Theorem languages_are_updated_in_order (codes ncodes : gmap string Z)
    (branch_to_pk : gmap (list string) Z)
    (risolate_names rcollapsed_names : gmap string string)
    (languages : languages_t) (keys : list string) :
  ((∀ l, l ∈ keys →
      ∃ lang, od_get languages l = Some lang
              ∧ ∀ b bs, l_branch lang = Some (b :: bs) →
                  is_Some (branch_to_pk !! (b :: bs))) →
   ∃ out, foldM (language_step (float:=float) codes ncodes branch_to_pk
                   risolate_names rcollapsed_names languages) keys []
          = Ok out)
  ∧ ∀ out,
      foldM (language_step (float:=float) codes ncodes branch_to_pk
               risolate_names rcollapsed_names languages) keys [] = Ok out →
      Forall2 (language_update codes ncodes branch_to_pk risolate_names
                 rcollapsed_names languages) keys out.
Proof.
  clear unescape glottocode parse_float session.
  split; [apply language_loop_returns|].
  intros out (added & -> & Hadded)%language_loop. done.
Qed.

Lemma update_step_full (branch_to_pk : gmap (list string) Z)
    (lnames : gmap Z string) (st st' : updates (float:=float))
    (m : Migration) :
  update_step branch_to_pk lnames st m = Ok st' →
  ∃ i, up_languoids st' = up_languoids st ++ [i]
       ∧ family_update branch_to_pk lnames m i
       ∧ up_matches st' = up_matches st + count_matches [m]
       ∧ up_migrations st' = up_migrations st + count_migrations [m]
       ∧ up_nomatches st' = up_nomatches st + count_nomatches [m].
Proof.
  clear unescape glottocode parse_float session.
  unfold update_step, count_matches, count_migrations, count_nomatches.
  intros Hrun. cbn [List.filter].
  apply bind_Ok in Hrun as (name & Hname%getitem_Ok & Hrun).
  set (kw := list_to_map [("name", VStr name)] : gmap string value) in *.
  set (base := languoid (VInt (m_pk m)) "family" kw) in *.
  assert (Hbase : base !! "pk" = Some (VInt (m_pk m))
                  ∧ base !! "level" = Some (VStr "family")
                  ∧ base !! "status" = Some (VStr "established")
                  ∧ base !! "active" = Some (VBool true)
                  ∧ base !! "father_pk" = Some VNone
                  ∧ base !! "name" = Some (VStr name)
                  ∧ base !! "hname" = None
                  ∧ base !! "replacement" = None).
  { subst base. split_and!;
      try (by rewrite languoid_lookup_default);
      by apply languoid_lookup_kw. }
  destruct Hbase as (Hpk & Hlevel & Hstatus & Hactive & Hfather & Hnm
                     & Hhname & Hrepl).
  destruct (m_hid m) as [[|h hs]|] eqn:Hhid;
    cbn [truthy_opt truthy negb andb] in *.
  2: { change (default [] (Some (h :: hs))) with (h :: hs) in Hrun.
    apply bind_Ok in Hrun as (attrs & Ha & Hrun).
    apply bind_Ok in Hrun as (hl & Hhl & Hrun). injection Hrun as <-.
    cbn [up_languoids up_matches up_migrations up_nomatches length].
    eexists. split; [done|]. split; [|lia].
    exists name. unfold family_update. rewrite Hhid.
    assert (Hlast : last (h :: hs) = Some hl).
    { unfold last_item in Hhl. by destruct (last (h :: hs)); simplify_eq. }
    assert (Hattrs :
      attrs !! "pk" = Some (VInt (m_pk m))
      ∧ attrs !! "level" = Some (VStr "family")
      ∧ attrs !! "status" = Some (VStr "established")
      ∧ attrs !! "active" = Some (VBool true)
      ∧ attrs !! "name" = Some (VStr name)
      ∧ attrs !! "replacement" = None
      ∧ match hs with
        | [] => attrs !! "father_pk" = Some VNone
        | _ => ∃ father,
                 branch_to_pk !! removelast (h :: hs) = Some father
                 ∧ attrs !! "father_pk" = Some (VInt father)
        end).
    { destruct hs as [|h' hs'].
      - injection Ha as <-. by split_and!.
      - cbn [length Nat.ltb Nat.leb] in Ha.
        apply bind_Ok in Ha as (father & Hf%getitem_Ok & Ha).
        injection Ha as <-. rewrite !lookup_insert_ne by done.
        split_and!; try done. exists father. split; [done|].
        apply lookup_insert_eq. }
    destruct Hattrs as (Hpk' & Hlevel' & Hstatus' & Hactive' & Hnm' & Hrepl'
                        & Hfa').
    assert (Hfa'' : ∀ (i : gmap string value),
              i !! "father_pk" = attrs !! "father_pk" →
              match hs with
              | [] => i !! "father_pk" = Some VNone
              | _ => ∃ father,
                       branch_to_pk !! removelast (h :: hs) = Some father
                       ∧ i !! "father_pk" = Some (VInt father)
              end).
    { intros i Hi. destruct hs; by rewrite Hi. }
    split; [done|].
    destruct (default false (m_rename m));
      (split_and!;
       [by rewrite !lookup_insert_ne | by rewrite !lookup_insert_ne
       |by rewrite !lookup_insert_ne
       |exists hl; split_and!;
          [done | by rewrite !lookup_insert_ne | apply lookup_insert_eq
          |rewrite lookup_insert_ne by done;
           rewrite ?lookup_insert_eq; done
          |by rewrite !lookup_insert_ne
          |apply Hfa''; by rewrite !lookup_insert_ne]]). }
  all: destruct (m_pointer m) as [[|p ps]|] eqn:Hptr;
    cbn [truthy_opt truthy negb andb] in *.
  all: try change (default [] (Some (p :: ps))) with (p :: ps) in Hrun.
  all: try (apply bind_Ok in Hrun as (replacement & Hr%getitem_Ok & Hrun)).
  all: injection Hrun as <-;
    cbn [up_languoids up_matches up_migrations up_nomatches length];
    eexists; (split; [done|]); (split; [|lia]);
    exists name; unfold family_update; rewrite Hhid, Hptr;
    (split; [done|]);
    rewrite ?(lookup_insert_ne _ "replacement") by done;
    rewrite ?(lookup_insert_ne _ "active") by done;
    split_and!; try done; try apply lookup_insert_eq;
    try (rewrite lookup_insert_ne by done; apply lookup_insert_eq);
    try (exists replacement; split; [done | apply lookup_insert_eq]).
Qed.

Lemma counts_cons (m : Migration) (todo : list Migration) :
  count_matches (m :: todo) = count_matches [m] + count_matches todo
  ∧ count_migrations (m :: todo)
    = count_migrations [m] + count_migrations todo
  ∧ count_nomatches (m :: todo)
    = count_nomatches [m] + count_nomatches todo.
Proof.
  clear unescape glottocode parse_float session float.
  unfold count_matches, count_migrations, count_nomatches.
  cbn [List.filter].
  destruct (truthy_opt (m_hid m)), (truthy_opt (m_pointer m));
    cbn [negb andb length]; lia.
Qed.

Lemma counts_total (todo : list Migration) :
  count_matches todo + count_migrations todo + count_nomatches todo
  = Z.of_nat (length todo).
Proof.
  clear unescape glottocode parse_float session float.
  induction todo as [|m todo IH]; [done|].
  destruct (counts_cons m todo) as (-> & -> & ->).
  cbn [length]. rewrite Nat2Z.inj_succ, <- IH.
  unfold count_matches, count_migrations, count_nomatches.
  cbn [List.filter].
  destruct (truthy_opt (m_hid m)), (truthy_opt (m_pointer m));
    cbn [negb andb length]; lia.
Qed.

Lemma update_loop (branch_to_pk : gmap (list string) Z)
    (lnames : gmap Z string) (todo : list Migration)
    (st st' : updates (float:=float)) :
  foldM (update_step branch_to_pk lnames) todo st = Ok st' →
  ∃ added,
    up_languoids st' = up_languoids st ++ added
    ∧ Forall2 (family_update branch_to_pk lnames) todo added
    ∧ up_matches st' = up_matches st + count_matches todo
    ∧ up_migrations st' = up_migrations st + count_migrations todo
    ∧ up_nomatches st' = up_nomatches st + count_nomatches todo.
Proof.
  clear unescape glottocode parse_float session.
  revert st. induction todo as [|m todo IH]; intros st.
  { intros [= <-]. exists []. rewrite app_nil_r.
    unfold count_matches, count_migrations, count_nomatches. cbn.
    split_and!; [done | constructor | lia..]. }
  cbn [foldM]. intros (st1 & Hstep & Hrest)%bind_Ok.
  apply update_step_full in Hstep as (i & Hl & Hi & H1 & H2 & H3).
  destruct (IH _ Hrest) as (added & Hl' & Hadded & H1' & H2' & H3').
  destruct (counts_cons m todo) as (-> & -> & ->).
  exists (i :: added). rewrite Hl', Hl, <- app_assoc.
  split_and!; [done | by constructor | lia..].
Qed.

Lemma update_loop_returns (branch_to_pk : gmap (list string) Z)
    (lnames : gmap Z string) (todo : list Migration)
    (st : updates (float:=float)) :
  (∀ m, m ∈ todo →
     is_Some (lnames !! m_pk m)
     ∧ match m_hid m with
       | Some [_] => True
       | Some (h :: hs) => is_Some (branch_to_pk !! removelast (h :: hs))
       | _ => match m_pointer m with
              | Some (p :: ps) => is_Some (branch_to_pk !! (p :: ps))
              | _ => True
              end
       end) →
  ∃ st', foldM (update_step branch_to_pk lnames) todo st = Ok st'.
Proof.
  clear unescape glottocode parse_float session.
  revert st. induction todo as [|m todo IH]; intros st Htodo.
  { by eexists. }
  destruct (Htodo m) as [[name Hname] Hm]; [by left|].
  assert (Hstep : ∃ st1, update_step branch_to_pk lnames st m = Ok st1).
  { unfold update_step, getitem. rewrite Hname. cbn [mbind res_bind].
    destruct (m_hid m) as [[|h [|h' hs]]|];
      cbn [truthy_opt truthy default from_option id].
    2: by eexists.
    2: { cbn [length Nat.ltb Nat.leb]. destruct Hm as [father ->].
         cbn [mbind res_bind]. unfold last_item.
         destruct (last (h :: h' :: hs)) eqn:Hlast; [by eexists|].
         by apply last_None in Hlast. }
    all: destruct (m_pointer m) as [[|p ps]|];
      cbn [truthy_opt truthy default from_option id]; try by eexists.
    all: destruct Hm as [replacement ->]; by eexists. }
  destruct Hstep as [st1 Hstep]. cbn [foldM]. rewrite Hstep.
  apply IH. intros m' Hm'. apply Htodo. by right.
Qed.

(** X16. The loop over [todo] appends one update for each migration, in
    the order of [todo], with the migration's pk and the level family.  A
    matched node stays active, gets the last name of its branch as
    [hname], and as name when it is marked for renaming, and the pk of the
    branch above as [father_pk]; another node is made inactive and gets
    the pk of the branch it points to as [replacement].  The three counts
    add up to the number of migrations.  The loop returns when every pk
    has a name and every branch it looks up has a pk. *)
Theorem families_are_updated_in_order (branch_to_pk : gmap (list string) Z)
    (lnames : gmap Z string) (todo : list Migration) (log : list event) :
  ((∀ m, m ∈ todo →
      is_Some (lnames !! m_pk m)
      ∧ match m_hid m with
        | Some [_] => True
        | Some (h :: hs) => is_Some (branch_to_pk !! removelast (h :: hs))
        | _ => match m_pointer m with
               | Some (p :: ps) => is_Some (branch_to_pk !! (p :: ps))
               | _ => True
               end
        end) →
   ∃ up, foldM (update_step (float:=float) branch_to_pk lnames) todo
           (Updates [] log 0 0 0) = Ok up)
  ∧ ∀ up,
      foldM (update_step (float:=float) branch_to_pk lnames) todo
        (Updates [] log 0 0 0) = Ok up →
      Forall2 (family_update branch_to_pk lnames) todo (up_languoids up)
      ∧ up_matches up = count_matches todo
      ∧ up_migrations up = count_migrations todo
      ∧ up_nomatches up = count_nomatches todo
      ∧ up_matches up + up_migrations up + up_nomatches up
        = Z.of_nat (length todo).
Proof.
  clear unescape glottocode parse_float session.
  split; [apply update_loop_returns|].
  intros up (added & Hl & Hadded & H1 & H2 & H3)%update_loop.
  cbn in Hl, H1, H2, H3. rewrite Hl, H1, H2, H3.
  split_and!; try done. apply counts_total.
Qed.

Lemma retired_loop (languages : languages_t)
    (rows : list (Z * string * string))
    (out : list (gmap string (value (float:=float)))) :
  ∃ added,
    foldl (retired_step languages) out rows = out ++ added
    ∧ Forall2 retirement
        (List.filter (λ row, negb (od_mem languages row.1.2)) rows) added.
Proof.
  clear unescape glottocode parse_float session.
  revert out. induction rows as [|row rows IH]; intros out.
  { exists []. by rewrite app_nil_r. }
  cbn [foldl List.filter]. unfold retired_step at 2.
  destruct (od_mem languages row.1.2); cbn [negb]; [apply IH|].
  destruct (IH (out ++ [languoid (VInt row.1.1) "language"
                          (list_to_map
                             [("status", VStr "retired");
                              ("active", VBool false);
                              ("father_pk", VNone)])]))
    as (added & -> & Hadded).
  eexists (_ :: added). rewrite <- app_assoc. split; [done|].
  constructor; [|done]. unfold retirement. split_and!;
    try (by rewrite languoid_lookup_default);
    by apply languoid_lookup_kw.
Qed.

(** X17. The last loop retires the rows with a private code that is no
    key of [languages], and no other: it appends one instruction for each
    of them, in their order, an inactive language with the row's pk, the
    status retired and no father. *)
Theorem unused_private_codes_are_retired (languages : languages_t)
    (rows : list (Z * string * string)) :
  Forall2 retirement
    (List.filter (λ row, negb (od_mem languages row.1.2)) rows)
    (foldl (retired_step (float:=float) languages) [] rows).
Proof.
  clear unescape glottocode parse_float session.
  by destruct (retired_loop languages rows []) as (added & -> & Hadded).
Qed.

Lemma new_languages_ncodes (inp : inputs) (languages : languages_t)
    (keys : list string) (st nl : new_langs) :
  foldM (new_language_step glottocode parse_float inp languages) keys st
  = Ok nl →
  ∀ code, code ∈ keys ∨ is_Some (nl_ncodes st !! code) →
    is_Some (in_codes inp !! code) ∨ is_Some (nl_ncodes nl !! code).
Proof.
  clear unescape.
  revert st. induction keys as [|k keys IH]; intros st.
  { intros [= <-] code [[]%elem_of_nil | Hst]. by right. }
  cbn [foldM]. intros (st1 & Hstep & Hrest)%bind_Ok code Hcode.
  apply new_language_step_inv in Hstep
    as [[Hknown ->] | (_ & _ & Hn & _)].
  - destruct Hcode as [[-> | Hin]%elem_of_cons | Hst]; [by left |..];
      apply (IH _ Hrest); auto.
  - apply (IH _ Hrest). rewrite Hn.
    destruct (decide (code = k)) as [-> | Hne].
    + right. rewrite lookup_insert_eq. eauto.
    + rewrite lookup_insert_ne by done.
      destruct Hcode as [[-> | Hin]%elem_of_cons | Hst]; auto. done.
Qed.

Lemma numbered_has_pk (base : Z)
    (l : list (gmap string (value (float:=float)))) :
  numbered base l → Forall has_pk l.
Proof.
  clear unescape glottocode parse_float session.
  intros Hl. apply Forall_lookup. intros k i Hk. eexists. eauto.
Qed.

(** X18. Every instruction that [main] writes has an integer as pk: a
    language that is new to the database is given its pk before the
    updates of the languages look it up. *)
Theorem every_instruction_has_a_pk (inp : inputs)
    (out : list (gmap string value)) :
  main unescape glottocode parse_float inp = Ok out →
  Forall has_pk out.
Proof.
  intros (r & Hrun & ->)%main_run.
  destruct (run_parts _ _ _ _ _ Hrun)
    as (families & languages & nl & rglnodes & branch_to_pk & log0 & nf & up
        & ri & rc & Hnl & _ & Hnf & Hup & Hls & Hr1 & Hr2 & Hr3 & Hr4 & _).
  unfold languoids_of. rewrite Hr1, Hr2, Hr3, Hr4.
  rewrite !Forall_app. split_and!.
  - apply new_languages_numbered in Hnl as [_ Hnum].
    by eapply numbered_has_pk.
  - eapply new_families_numbered in Hnf; [|done].
    by eapply numbered_has_pk.
  - apply update_loop in Hup as (added & Hl & Hadded & _).
    cbn in Hl. rewrite Hl. apply Forall_lookup. intros k i Hk.
    destruct (Forall2_lookup_r _ _ _ _ _ Hadded Hk)
      as (m & _ & name & _ & Hpk & _).
    by exists (m_pk m).
  - apply language_loop in Hls as (added & Hl & Hadded).
    cbn in Hl. rewrite Hl. apply Forall_lookup. intros k i Hk.
    destruct (Forall2_lookup_r _ _ _ _ _ Hadded Hk)
      as (l & Hlk & lang & _ & Hpk & _).
    apply list_elem_of_lookup_2 in Hlk.
    unfold has_pk. rewrite Hpk. unfold language_pk.
    destruct (in_codes inp !! l) as [pk|] eqn:Hcodes; [by exists pk|].
    destruct (new_languages_ncodes _ _ _ _ _ Hnl l (or_introl Hlk))
      as [[pk Hc] | [pk Hc]]; [congruence|].
    rewrite Hc. by exists pk.
  - destruct (retired_loop languages (in_nocode_rows inp) [])
      as (added & -> & Hadded).
    apply Forall_lookup. intros k i Hk.
    destruct (Forall2_lookup_r _ _ _ _ _ Hadded Hk) as (row & _ & Hpk & _).
    by exists row.1.1.
Qed.

(** ** Lines that parse *)

Lemma app_cons (a : ascii) (s t : string) :
  String a s +:+ t = String a (s +:+ t).
Proof. done. Qed.

Lemma app_assoc_string (s t u : string) :
  s +:+ (t +:+ u) = (s +:+ t) +:+ u.
Proof.
  clear unescape glottocode parse_float session float.
  induction s as [|a s IH]; [done|]. by rewrite !app_cons, IH.
Qed.

Lemma lstrip_app_space (s t : string) (c : ascii) :
  PyStr.isspace c = true →
  PyStr.lstrip (s +:+ String c t)
  = match PyStr.lstrip s with
    | EmptyString => PyStr.lstrip t
    | u => u +:+ String c t
    end.
Proof.
  clear unescape glottocode parse_float session float.
  intros Hc. induction s as [|a s IH].
  - change (EmptyString +:+ String c t) with (String c t).
    cbn [PyStr.lstrip]. by rewrite Hc.
  - rewrite app_cons. cbn [PyStr.lstrip].
    destruct (PyStr.isspace a); [done|]. by rewrite app_cons.
Qed.

Lemma rstrip_app (s t : string) :
  PyStr.rstrip t ≠ EmptyString →
  PyStr.rstrip (s +:+ t) = s +:+ PyStr.rstrip t.
Proof.
  clear unescape glottocode parse_float session float.
  intros Ht. induction s as [|a s IH]; [done|].
  rewrite !app_cons. cbn [PyStr.rstrip]. rewrite IH.
  destruct (s +:+ PyStr.rstrip t) eqn:Hs; [|done].
  destruct s; [|done]. by destruct Ht.
Qed.

Lemma rstrip_app_space (s : string) (c : ascii) :
  PyStr.isspace c = true →
  PyStr.rstrip (s +:+ String c EmptyString) = PyStr.rstrip s.
Proof.
  clear unescape glottocode parse_float session float.
  intros Hc. induction s as [|a s IH].
  - change (EmptyString +:+ String c EmptyString) with (String c EmptyString).
    cbn [PyStr.rstrip]. by rewrite Hc.
  - rewrite app_cons. cbn [PyStr.rstrip]. by rewrite IH.
Qed.

Lemma lstrip_fixed (s : string) :
  PyStr.lstrip (PyStr.lstrip s) = PyStr.lstrip s.
Proof.
  clear unescape glottocode parse_float session float.
  induction s as [|a s IH]; [done|]. cbn [PyStr.lstrip].
  destruct (PyStr.isspace a) eqn:Ha; [done|].
  cbn [PyStr.lstrip]. by rewrite Ha.
Qed.

Lemma split_at (c : ascii) (u v : string) :
  PyStr.all_chars (λ a, negb (Ascii.eqb a c)) u = true →
  PyStr.split c (u +:+ String c v) = u :: PyStr.split c v.
Proof.
  clear unescape glottocode parse_float session float.
  induction u as [|a u IH]; intros Hu.
  - change (EmptyString +:+ String c v) with (String c v).
    cbn [PyStr.split]. by rewrite Ascii.eqb_refl.
  - cbn [PyStr.all_chars] in Hu. apply andb_true_iff in Hu as [Ha Hu].
    rewrite app_cons. cbn [PyStr.split].
    apply negb_true_iff in Ha. by rewrite Ha, IH.
Qed.

Lemma split_whole (c : ascii) (v : string) :
  PyStr.all_chars (λ a, negb (Ascii.eqb a c)) v = true →
  PyStr.split c v = [v].
Proof.
  clear unescape glottocode parse_float session float.
  induction v as [|a v IH]; intros Hv; [done|].
  cbn [PyStr.all_chars] in Hv. apply andb_true_iff in Hv as [Ha Hv].
  cbn [PyStr.split]. apply negb_true_iff in Ha. by rewrite Ha, IH.
Qed.

Lemma prefix_length (p s : string) :
  String.prefix p s = true → (String.length p ≤ String.length s)%nat.
Proof.
  clear unescape glottocode parse_float session float.
  revert s. induction p as [|a p IH]; intros s; [simpl; lia|].
  destruct s as [|b s]; [done|]. cbn [String.prefix String.length].
  destruct (ascii_dec a b); [|done]. intros Hp%IH. lia.
Qed.

Lemma replace_short (old new s : string) :
  (String.length s < String.length old)%nat →
  PyStr.replace old new s = s.
Proof.
  clear unescape glottocode parse_float session float.
  unfold PyStr.replace. induction s as [|a s IH]; intros Hlen; [done|].
  cbn [PyStr.replace_go].
  destruct (String.prefix old (String a s)) eqn:Hp.
  { apply prefix_length in Hp. lia. }
  rewrite IH; [done|]. cbn [String.length] in Hlen. lia.
Qed.

Lemma replace_absent (o : ascii) (new s : string) :
  PyStr.all_chars (λ a, negb (Ascii.eqb a o)) s = true →
  PyStr.replace (String o EmptyString) new s = s.
Proof.
  clear unescape glottocode parse_float session float.
  unfold PyStr.replace. induction s as [|a s IH]; intros Hs; [done|].
  cbn [PyStr.all_chars] in Hs. apply andb_true_iff in Hs as [Ha Hs].
  cbn [PyStr.replace_go String.prefix].
  destruct (ascii_dec o a) as [-> | Hne].
  { by rewrite Ascii.eqb_refl in Ha. }
  by rewrite IH.
Qed.

Lemma code_char_neq (c : ascii) :
  code_char c = true →
  Ascii.eqb c "[" = false ∧ Ascii.eqb c "]" = false
  ∧ Ascii.eqb c "092" = false ∧ Ascii.eqb c "034" = false
  ∧ Ascii.eqb c "039" = false.
Proof.
  clear unescape glottocode parse_float session float.
  unfold code_char, stripped_chars.
  intros Hc%negb_true_iff%bool_decide_eq_false.
  rewrite !not_elem_of_cons in Hc.
  destruct Hc as (? & ? & ? & ? & ? & _).
  by rewrite !Ascii.eqb_neq.
Qed.

Lemma leaf_code_plain (a b c : ascii) :
  code_char a = true → code_char b = true → code_char c = true →
  leaf_code (String a (String b (String c (String "]" EmptyString))))
  = String a (String b (String c EmptyString)).
Proof.
  clear unescape glottocode parse_float session float.
  intros (_ & Ha1 & Ha2 & Ha3 & Ha4)%code_char_neq
         (_ & Hb1 & Hb2 & Hb3 & Hb4)%code_char_neq
         (_ & Hc1 & Hc2 & Hc3 & Hc4)%code_char_neq.
  unfold leaf_code.
  assert (Hsplit :
    PyStr.split "]" (String a (String b (String c (String "]" EmptyString))))
    = [String a (String b (String c EmptyString)); EmptyString]).
  { cbn [PyStr.split]. by rewrite Ha1, Hb1, Hc1. }
  rewrite Hsplit. cbn [hd]. unfold backslash, dquote, squote.
  rewrite (replace_absent "092")
    by (cbn [PyStr.all_chars]; by rewrite Ha2, Hb2, Hc2).
  rewrite (replace_absent "034")
    by (cbn [PyStr.all_chars]; by rewrite Ha3, Hb3, Hc3).
  rewrite (replace_absent "039")
    by (cbn [PyStr.all_chars]; by rewrite Ha4, Hb4, Hc4).
  apply replace_short. simpl. lia.
Qed.

(** X19. A line of two blanks, a name without an opening bracket and, in
    brackets, a code of three characters that are no bracket, quote or
    backslash is read as a leaf: [leaf_line] returns the code and the name,
    stripped, with blanks for underscores and unescaped; the generator
    puts them into the family it is filling, and raises a [TypeError]
    when there is none. *)
Theorem leaf_line_is_read (name : string) (a b c : ascii) :
  PyStr.all_chars (λ x, negb (Ascii.eqb x "[")) name = true →
  code_char a = true → code_char b = true → code_char c = true →
  let code := String a (String b (String c EmptyString)) in
  let read := unescape (PyStr.replace "_" " " (PyStr.strip name)) in
  leaf_line unescape (leaf_text name a b c) = Ok (code, read)
  ∧ (∀ h leafs out,
       split_step unescape (Some (h, leafs), out) (leaf_text name a b c)
       = Ok (Some (h, <[code := read]> leafs), out))
  ∧ (∀ out, split_step unescape (None, out) (leaf_text name a b c)
            = Raise TypeError).
Proof.
  clear glottocode parse_float session float.
  intros Hname Ha Hb Hc code read.
  set (tail := String "[" (String a (String b (String c
                 (String "]" EmptyString))))).
  set (raw := String a (String b (String c (String "]" EmptyString)))).
  assert (Hraw : PyStr.split "[" raw = [raw]).
  { apply split_whole. subst raw. cbn [PyStr.all_chars].
    apply code_char_neq in Ha as [-> _], Hb as [-> _], Hc as [-> _]. done. }
  assert (Hrtail : PyStr.rstrip tail = tail) by done.
  assert (Hstrip :
    ∃ pre, PyStr.strip (leaf_text name a b c) = pre +:+ tail
           ∧ PyStr.all_chars (λ x, negb (Ascii.eqb x "[")) pre = true
           ∧ PyStr.strip pre = PyStr.strip name).
  { unfold PyStr.strip, leaf_text. cbn [PyStr.lstrip PyStr.isspace].
    change (PyStr.isspace " ") with true. cbn match.
    rewrite lstrip_app_space by done. fold tail.
    destruct (PyStr.lstrip name) as [|x u] eqn:Hu.
    - by exists EmptyString.
    - assert (Hfix : PyStr.lstrip (String x u) = String x u).
      { rewrite <- Hu. apply lstrip_fixed. }
      exists (String x u +:+ String " " EmptyString). split_and!.
      + change (String " " tail) with (String " " EmptyString +:+ tail).
        rewrite app_assoc_string.
        rewrite rstrip_app; [by rewrite Hrtail | by rewrite Hrtail].
      + rewrite all_chars_app, <- Hu, all_chars_lstrip by done. done.
      + rewrite lstrip_app_space, Hfix by done.
        by rewrite rstrip_app_space. }
  destruct Hstrip as (pre & Hstrip & Hpre & Hread).
  assert (Hleaf : leaf_line unescape (leaf_text name a b c)
                  = Ok (code, read)).
  { unfold leaf_line. rewrite Hstrip. unfold tail.
    rewrite split_at by done. fold raw. rewrite Hraw.
    unfold raw. rewrite leaf_code_plain by done.
    cbn [PyStr.nonempty assert mbind res_bind].
    unfold code_shape. cbn [String.length Nat.eqb orb assert mbind res_bind].
    by rewrite Hread. }
  assert (Hnonblank : PyStr.nonempty (PyStr.strip (leaf_text name a b c))
                      = true).
  { rewrite Hstrip. by destruct pre. }
  assert (Hstart : PyStr.startswith (leaf_text name a b c) "  " = true).
  { unfold PyStr.startswith, leaf_text. simpl. by destruct (name +:+ _). }
  split; [done|].
  split; intros; unfold split_step; rewrite Hnonblank, Hstart; cbn [negb];
    by rewrite Hleaf.
Qed.

(** ** The old classification *)

Lemma rglnodes_loop (l : list (node * list string))
    (acc : gmap (list string) (list node)) (t : list string) :
  foldl rglnodes_step acc l !! t
  = match nodes_with t l with
    | [] => acc !! t
    | ns => Some (default [] (acc !! t) ++ ns)
    end.
Proof.
  clear unescape glottocode parse_float session float.
  revert acc. induction l as [|[n t'] l IH]; intros acc; [done|].
  cbn [foldl]. rewrite IH. unfold nodes_with, rglnodes_step.
  cbn [List.filter fst snd].
  destruct (decide (t' = t)) as [-> | Hne].
  - rewrite bool_decide_eq_true_2 by done. cbn [map fst].
    destruct (acc !! t) as [ns|] eqn:Hacc; rewrite lookup_insert_eq;
      cbn [default from_option id];
      destruct (map fst (List.filter _ l)); try done.
    by rewrite <- app_assoc.
  - rewrite bool_decide_eq_false_2 by done.
    by destruct (acc !! t'); rewrite lookup_insert_ne.
Qed.

Lemma nodes_with_elem (t : list string) (l : list (node * list string))
    (n : node) :
  n ∈ nodes_with t l ↔ (n, t) ∈ l.
Proof.
  clear unescape glottocode parse_float session float.
  unfold nodes_with. rewrite list_elem_of_fmap. split.
  - intros ([n' t'] & -> & Hin). apply list_elem_of_In, filter_In in Hin
      as [Hin Ht]. apply bool_decide_eq_true in Ht. simpl in Ht. subst t'.
    by apply list_elem_of_In.
  - intros Hin. exists (n, t). split; [done|].
    apply list_elem_of_In, filter_In. split; [by apply list_elem_of_In|].
    by apply bool_decide_eq_true.
Qed.

Lemma nodes_with_NoDup (t : list string) (l : list (node * list string)) :
  NoDup l.*1 → NoDup (nodes_with t l).
Proof.
  clear unescape glottocode parse_float session float.
  unfold nodes_with. induction l as [|[n t'] l IH]; [done|].
  cbn [fmap list_fmap fst List.filter snd].
  intros [Hnotin Hnodup]%NoDup_cons.
  destruct (bool_decide (t' = t)); [|by apply IH].
  cbn [map fst]. apply NoDup_cons. split; [|by apply IH].
  intros Hin. apply Hnotin.
  apply (nodes_with_elem t l n) in Hin.
  apply list_elem_of_fmap. by exists (n, t).
Qed.

(** X20. The nodes of the old classification are grouped by their leafs:
    [rglnodes] has an entry for a tuple of leafs exactly when some node has
    these leafs, and the entry lists these nodes, each once. *)
Theorem old_nodes_are_grouped_by_leafs (glnodes : gmap node (list string))
    (t : list string) :
  let rglnodes := foldl rglnodes_step ∅ (map_to_list glnodes) in
  (rglnodes !! t = None ↔ ∀ n, glnodes !! n ≠ Some t)
  ∧ ∀ nodes, rglnodes !! t = Some nodes →
      nodes = nodes_with t (map_to_list glnodes)
      ∧ nodes ≠ [] ∧ NoDup nodes
      ∧ ∀ n, n ∈ nodes ↔ glnodes !! n = Some t.
Proof.
  clear unescape glottocode parse_float session float.
  intros rglnodes. subst rglnodes. rewrite rglnodes_loop, lookup_empty.
  assert (Helem : ∀ n, n ∈ nodes_with t (map_to_list glnodes)
                       ↔ glnodes !! n = Some t).
  { intros n. by rewrite nodes_with_elem, elem_of_map_to_list. }
  split.
  - destruct (nodes_with t (map_to_list glnodes)) as [|n0 ns] eqn:Hns.
    + split; [|done]. intros _ n Hn. apply Helem in Hn.
      by apply elem_of_nil in Hn.
    + split; [done|]. intros Hnone. destruct (Hnone n0).
      apply Helem. by left.
  - intros nodes Hnodes.
    assert (nodes = nodes_with t (map_to_list glnodes) ∧ nodes ≠ [])
      as [-> Hne].
    { destruct (nodes_with t (map_to_list glnodes)); [done|].
      injection Hnodes as <-. done. }
    split_and!; try done.
    apply nodes_with_NoDup, NoDup_fst_map_to_list.
Qed.

Lemma sorted_strings_nil (l : list string) :
  sorted_strings l = [] → l = [].
Proof.
  clear unescape glottocode parse_float session float.
  unfold sorted_strings. intros Hnil.
  apply Permutation_nil_r. rewrite <- Hnil.
  symmetry. apply merge_sort_Permutation.
Qed.

Lemma load_loop (inp : inputs (session:=session))
    (names : gmap string (list (list string)))
    (rows : list (Z * string * option string * option Z))
    (st : gmap node (list string) * list Migration) :
  let st' := foldl (load_step inp names) st rows in
  (∀ pk level name father t,
     st'.1 !! (pk, level, name, father) = Some t
     ↔ ((pk, name, level, father) ∈ rows ∧ in_closure inp pk ≠ []
        ∧ t = sorted_strings (in_closure inp pk))
       ∨ (¬ ((pk, name, level, father) ∈ rows ∧ in_closure inp pk ≠ [])
          ∧ st.1 !! (pk, level, name, father) = Some t))
  ∧ st'.2
    = st.2 ++ map (retire_empty names)
                (List.filter (λ row, negb (truthy (in_closure inp row.1.1.1)))
                   rows).
Proof.
  clear unescape glottocode parse_float float.
  revert st. induction rows as [|[[[pk0 name0] level0] father0] rows IH];
    intros st st'.
  { subst st'. cbn. split; [|by rewrite app_nil_r].
    intros. split; [|by intros [[[]%elem_of_nil _] | [_ ?]]].
    intros Ht. right. split; [|done]. by intros [[]%elem_of_nil _]. }
  subst st'. cbn [foldl List.filter].
  destruct (IH (load_step inp names st (pk0, name0, level0, father0)))
    as [IH1 IH2].
  assert (Hstep :
    load_step inp names st (pk0, name0, level0, father0)
    = match in_closure inp pk0 with
      | [] => (st.1, st.2 ++ [retire_empty names
                                (pk0, name0, level0, father0)])
      | _ => (<[(pk0, level0, name0, father0)
                := sorted_strings (in_closure inp pk0)]> st.1, st.2)
      end).
  { unfold load_step, retire_empty. cbn [fst snd].
    destruct (in_closure inp pk0); cbn [truthy]; [|done].
    by destruct (names !! name0) as [[|? [|? ?]]|]. }
  split.
  - intros pk level name father t. rewrite IH1, Hstep. clear IH1 IH2 Hstep.
    rewrite !elem_of_cons.
    destruct (decide ((pk0, name0, level0, father0)
                      = (pk, name, level, father))) as [Heq | Hneq].
    + injection Heq as -> -> -> ->.
      destruct (in_closure inp pk) as [|c cs] eqn:Hclosure; cbn [fst].
      * split.
        -- intros [(_ & ? & _) | [_ Hold]]; [done|]. right.
           split; [|done]. by intros [_ ?].
        -- intros [(_ & ? & _) | [_ Hold]]; [done|]. right.
           split; [|done]. by intros [_ ?].
      * rewrite lookup_insert_eq. split.
        -- intros [(_ & _ & ->) | [_ [= <-]]]; left; auto.
        -- intros [(_ & _ & ->) | [Hn _]].
           ++ destruct (decide ((pk, name, level, father) ∈ rows));
                [left; auto | right].
              split; [by intros [? _] | done].
           ++ destruct Hn. auto.
    + assert (Hother :
        (match in_closure inp pk0 with
         | [] => (st.1, st.2 ++ [retire_empty names
                                   (pk0, name0, level0, father0)])
         | _ => (<[(pk0, level0, name0, father0)
                   := sorted_strings (in_closure inp pk0)]> st.1, st.2)
         end).1 !! (pk, level, name, father)
        = st.1 !! (pk, level, name, father)).
      { destruct (in_closure inp pk0); cbn [fst]; [done|].
        apply lookup_insert_ne. congruence. }
      rewrite Hother. split.
      * intros [(? & ? & ?) | [Hn Hold]]; [left; auto|]. right.
        split; [|done]. intros [[? | ?] ?]; [congruence|]. by apply Hn.
      * intros [([? | ?] & ? & ?) | [Hn Hold]];
          [congruence | left; auto |].
        right. split; [|done]. intros [? ?]. apply Hn. auto.
  - rewrite IH2, Hstep. cbn [fst snd].
    destruct (in_closure inp pk0); cbn [truthy negb map snd]; [|done].
    by rewrite <- app_assoc.
Qed.

(** X21. Of the families of the old classification, those with leafs are
    kept, as nodes, with the sorted tuple of their leafs, which is not
    empty; each of the others is retired at once, in the order of the
    rows, with the one branch of its name as pointer when there is exactly
    one. *)
Theorem old_families_are_loaded (inp : inputs (session:=session))
    (names : gmap string (list (list string)))
    (rows : list (Z * string * option string * option Z)) :
  let st := foldl (load_step inp names) (∅, []) rows in
  (∀ pk level name father t,
     st.1 !! (pk, level, name, father) = Some t
     ↔ (pk, name, level, father) ∈ rows ∧ in_closure inp pk ≠ []
       ∧ t = sorted_strings (in_closure inp pk))
  ∧ (∀ n t, st.1 !! n = Some t → t ≠ [])
  ∧ st.2
    = map (retire_empty names)
        (List.filter (λ row, negb (truthy (in_closure inp row.1.1.1))) rows).
Proof.
  clear unescape glottocode parse_float float.
  intros st. destruct (load_loop inp names rows (∅, [])) as [Hnodes Htodo].
  fold st in Hnodes, Htodo.
  assert (Hiff : ∀ pk level name father t,
     st.1 !! (pk, level, name, father) = Some t
     ↔ (pk, name, level, father) ∈ rows ∧ in_closure inp pk ≠ []
       ∧ t = sorted_strings (in_closure inp pk)).
  { intros. rewrite Hnodes. cbn [fst]. rewrite lookup_empty.
    split; [by intros [? | [_ ?]] | by left]. }
  split_and!; [done | | done].
  intros [[[pk level] name] father] t (_ & Hne & ->)%Hiff Hnil.
  by apply sorted_strings_nil in Hnil.
Qed.

End More.

(** * Instances on the sample inputs *)


Lemma codes_well_formed_witness :
  well_formed_code "aaa"
  ∧ ∃ e, main no_escapes name_as_id text_float
           (Inputs false ∅ ∅ 0 ∅ long_code sample_lof (λ _, []) (λ _, [])
              [] tt) = Raise e.
Proof.
  destruct (codes_well_formed_or_fatal no_escapes name_as_id text_float
              sample_lff) as [Hgood _].
  destruct (codes_well_formed_or_fatal no_escapes name_as_id text_float
              long_code) as [_ Hbad].
  split.
  - apply (Hgood sample_families
             (["A"; "B"], "established", EmptyString)
             (<["aaa" := "x"]> (<["bbb" := "y"]> ∅)) "aaa").
    + apply from_ok_eq. vm_compute. reflexivity.
    + apply (list_elem_of_lookup_2 _ 0%nat). vm_compute. reflexivity.
    + exists "x". vm_compute. reflexivity.
  - apply (Hbad "  x [abcd]" "x " "abcd]").
    + apply (list_elem_of_lookup_2 _ 1%nat). vm_compute. reflexivity.
    + vm_compute. reflexivity.
    + vm_compute. reflexivity.
    + vm_compute. reflexivity.
    + intros [_ [Hlen|(t & Ht & _)]];
        [vm_compute in Hlen | vm_compute in Ht]; discriminate.
    + left. reflexivity.
Defined.

Lemma duplicate_leafset_witness :
  match_nodes (float:=string) twenty [old_one; old_two]
    {[twenty := ["A"]]} {[twenty := ["A"; "Unclassified A"]]} [] ∅
  = Ok ([Mig 1 (Some ["A"]) None None;
         Mig 2 (Some ["A"; "Unclassified A"]) None None], []).
Proof.
  refine (proj1 (proj2 (proj2 (duplicate_leafset_pairing (float:=string)
            twenty [old_one; old_two]
            {[twenty := ["A"]]} {[twenty := ["A"; "Unclassified A"]]} [] ∅
            ["A"] ["A"; "Unclassified A"] _ _) old_one old_two eq_refl)) _ _).
  - vm_compute. reflexivity.
  - vm_compute. reflexivity.
  - vm_compute. discriminate.
  - vm_compute. reflexivity.
Defined.

Lemma one_migration_per_node_witness :
  map m_pk [Mig 1 (Some ["A"]) None None;
            Mig 2 (Some ["A"; "Unclassified A"]) None None]
  ≡ₚ map n_pk [old_one; old_two].
Proof.
  refine (proj1 (match_nodes_one_migration_per_node (float:=string)
            twenty [old_one; old_two]
            {[twenty := ["A"]]} {[twenty := ["A"; "Unclassified A"]]} [] ∅
            _ [] _)).
  vm_compute. reflexivity.
Defined.

Lemma approximate_match_witness :
  match_nodes (float:=string) twenty [old_one; old_two]
    {[nineteen := ["A"]]} ∅ [list_to_set nineteen] ∅
  = Ok ([Mig 1 None None (Some ["A"]); Mig 2 None None (Some ["A"])], []).
Proof.
  refine (proj1 (approximate_match_first_within_tolerance (float:=string)
            twenty {[nineteen := ["A"]]} ∅ ∅ _ _)
            [list_to_set nineteen] [old_one; old_two] [] [] nineteen ["A"]
            _ _ _ _ _).
  - vm_compute. reflexivity.
  - vm_compute. lia.
  - reflexivity.
  - constructor.
  - apply approx_ok_spec. vm_compute. reflexivity.
  - unfold canonical. apply (bool_decide_unpack _). vm_compute. exact I.
  - vm_compute. reflexivity.
Defined.

Lemma fallback_by_name_witness :
  match_fallback (float:=string) ["aaa"; "bbb"] (list_to_set ["aaa"; "bbb"])
    {[["aaa"; "ccc"] := ["A"]]} [list_to_set ["aaa"; "ccc"]]
    {["Old One" := [["B"]]]} old_one
  = Ok (Mig 1 None None (Some ["B"]), []).
Proof.
  refine (proj1 (proj1 (proj2 (fallback_order (float:=string) ["aaa"; "bbb"]
            [old_one] {[["aaa"; "ccc"] := ["A"]]} ∅
            [list_to_set ["aaa"; "ccc"]] {["Old One" := [["B"]]]} _ _ _))
            old_one) ["B"] _).
  - vm_compute. reflexivity.
  - discriminate.
  - left. vm_compute. lia.
  - vm_compute. reflexivity.
Defined.

Lemma parse_families_idempotent_witness :
  parse_families no_escapes sample_lff sample_parsed.1 sample_parsed.2
  = Ok (sample_parsed.1, sample_parsed.2).
Proof.
  apply (parse_families_idempotent no_escapes sample_lff od_empty od_empty).
  rewrite <- surjective_pairing. apply from_ok_eq. vm_compute. reflexivity.
Defined.

Lemma ancestor_inclusion_witness :
  ∃ Lp Lb,
    od_get two_names_parsed.1 ["A"] = Some Lp
    ∧ od_get two_names_parsed.1 ["A"; "B"] = Some Lb
    ∧ dom ({["abc" := "x"]} : gmap string string) ⊆ dom Lb
    ∧ dom Lb ⊆ dom Lp.
Proof.
  destruct (ancestor_inclusion no_escapes two_names od_empty od_empty
              two_names_parsed.1 two_names_parsed.2) with
    (fams := two_names_families)
    (h := (["A"; "B"], "established", EmptyString))
    (L := ({["abc" := "x"]} : gmap string string))
    (p := ["A"])
    as (Lp & Lb & Hp & Hb & HL & Hsub & _).
  - intros b Lb p Hb. simpl in Hb. by rewrite lookup_empty in Hb.
  - rewrite <- surjective_pairing. apply from_ok_eq. vm_compute. reflexivity.
  - apply from_ok_eq. vm_compute. reflexivity.
  - apply (list_elem_of_lookup_2 _ 0%nat). vm_compute. reflexivity.
  - discriminate.
  - by exists ["B"].
  - by exists Lp, Lb.
Defined.

Lemma instructions_have_base_keys_witness :
  Forall has_base_keys sample_output.
Proof.
  apply (proj2 (instructions_have_base_keys no_escapes name_as_id text_float)
           sample_inputs).
  apply from_ok_eq. vm_compute. reflexivity.
Defined.

Lemma father_pk_witness :
  StronglySorted branch_le (map fst (r_new_families sample_run)).
Proof.
  refine (proj1 (proj2 (proj2 (proj2 (father_pk_is_assigned_before_use
            no_escapes name_as_id text_float sample_inputs sample_run _))))).
  apply from_ok_eq. vm_compute. reflexivity.
Defined.

Lemma blank_text_witness :
  Forall blank (PyStr.split newline blank_text)
  ∧ split_families no_escapes blank_text = Ok [None].
Proof.
  assert (H : Forall blank (PyStr.split newline blank_text)).
  { change (Forall blank [EmptyString; "  "]).
    by repeat (constructor; [reflexivity|]). }
  split; [exact H|].
  apply (blank_text_is_a_type_error no_escapes name_as_id text_float
           blank_text H).
Defined.

Lemma leaf_before_header_witness :
  split_families no_escapes leaf_first = Raise TypeError.
Proof.
  refine (proj1 (leaf_before_header_raises no_escapes leaf_first "  x [aaa]"
                   [] ["A"] _ _ _ _)).
  - vm_compute. reflexivity.
  - constructor.
  - vm_compute. reflexivity.
  - vm_compute. reflexivity.
Defined.

Lemma leaf_code_is_stripped_witness :
  PyStr.all_chars (λ a, negb (Ascii.eqb a "039")) (leaf_code "a'b]c") = true.
Proof.
  apply (leaf_code_is_stripped "a'b]c" "039").
  unfold stripped_chars. do 3 apply list_elem_of_further.
  apply list_elem_of_here.
Defined.

Lemma parse_families_merges_witness :
  od_wf sample_parsed.1 ∧ od_wf sample_parsed.2.
Proof.
  destruct (parse_families_merges no_escapes sample_lff od_empty od_empty
              sample_parsed.1 sample_parsed.2) as (Hf & Hl & _).
  - rewrite <- surjective_pairing. apply from_ok_eq. vm_compute. reflexivity.
  - split; [apply Hf | apply Hl]; apply od_wf_empty.
Defined.

Lemma languages_record_last_listing_witness :
  od_get two_names_parsed.2 "abc"
  = Some (Language (Some ["A"]) "established" "y" EmptyString).
Proof.
  refine (proj1 (languages_record_last_listing no_escapes two_names
                   od_empty od_empty two_names_parsed.1 two_names_parsed.2
                   two_names_families _ _)
            [Some (["A"; "B"], "established", EmptyString,
                   {["abc" := "x"]})]
            (["A"], "established", EmptyString) {["abc" := "y"]} []
            "abc" "y" _ _ _).
  - rewrite <- surjective_pairing. apply from_ok_eq. vm_compute. reflexivity.
  - apply from_ok_eq. vm_compute. reflexivity.
  - vm_compute. reflexivity.
  - vm_compute. reflexivity.
  - intros h' leafs' Hin. by apply elem_of_nil in Hin.
Defined.

Lemma names_index_witness :
  ∃ names, foldM names_step [["A"]; ["A"; "B"]] ∅ = Ok names
    ∧ ∀ name, names !! name
        = match ending_in name [["A"]; ["A"; "B"]] with
          | [] => None
          | bs => Some bs
          end.
Proof.
  apply (proj1 (names_index_the_branches [["A"]; ["A"; "B"]])).
  intros Hin.
  repeat (apply elem_of_cons in Hin as [Hin | Hin]; [discriminate|]).
  by apply elem_of_nil in Hin.
Defined.

Lemma one_family_wf : od_wf one_family.
Proof.
  split; [apply NoDup_singleton|]. intros k. cbn.
  rewrite list_elem_of_singleton. split.
  - intros ->. rewrite lookup_singleton_eq. eauto.
  - intros [v Hv]. by apply lookup_singleton_Some in Hv as [<- _].
Qed.

Lemma one_family_leaf (key : list string) (leafs : gmap string string) :
  od_get one_family key = Some leafs → size leafs = 1%nat →
  key ≠ [] ∧ ∀ code, is_Some (leafs !! code) →
              is_Some (od_get one_language code).
Proof.
  unfold od_get. cbn. intros [<- <-]%lookup_singleton_Some _.
  split; [done|]. intros code [v Hv].
  apply lookup_singleton_Some in Hv as [<- _].
  rewrite lookup_singleton_eq. eauto.
Qed.

Lemma collapse_removes_witness :
  ∃ co, foldM collapse_step (od_keys one_family)
          (Collapsed one_family one_language ∅ ∅) = Ok co
        ∧ od_wf (co_families co)
        ∧ od_keys (co_languages co) = od_keys one_language.
Proof.
  destruct (collapse_removes_one_leaf_families one_family one_language
              one_family_wf one_family_leaf)
    as (co & Hrun & _ & _ & Hwf & Hkeys).
  exists co. exact (conj Hrun (conj Hwf Hkeys)).
Defined.

Lemma collapse_reattaches_witness :
  co_isolate_names one_collapsed !! "A" = Some "aaa".
Proof.
  refine (proj2 (proj1 (proj2 (collapse_reattaches_the_leaf one_family
                                 one_language one_collapsed one_family_wf
                                 one_family_leaf _)) "A" "aaa") _).
  - apply from_ok_eq. vm_compute. reflexivity.
  - exists {["aaa" := "x"]}. split; [|apply dom_singleton_L].
    apply lookup_singleton_eq.
Defined.

Lemma match_nodes_provenance_witness :
  (∃ t, ({[nineteen := ["A"]]} : gmap (list string) (list string)) !! t
        = Some ["A"])
  ∨ (∃ n, n ∈ [old_one; old_two]
          ∧ (∅ : gmap string (list (list string))) !! n_name n
            = Some [["A"]]).
Proof.
  refine (proj2 (match_nodes_provenance (float:=string) twenty
                   [old_one; old_two] {[nineteen := ["A"]]} ∅
                   [list_to_set nineteen] ∅
                   [Mig 1 None None (Some ["A"]);
                    Mig 2 None None (Some ["A"])] [] _
                   (Mig 1 None None (Some ["A"])) _) ["A"] eq_refl).
  - vm_compute. reflexivity.
  - apply list_elem_of_here.
Defined.

Lemma rnodes_hold_every_family_witness :
  ∃ all, od_get one_family ["A"] = Some all
         ∧ (one_rnodes.1 !! known_leafs (in_codes sample_inputs) all
            = Some ["A"]
            ∨ one_rnodes.2 !! known_leafs (in_codes sample_inputs) all
              = Some ["A"]).
Proof.
  refine (proj2 (proj2 (rnodes_hold_every_family sample_inputs one_family
                          (od_keys one_family) one_rnodes.1 one_rnodes.2 _))
            ["A"] _).
  - rewrite <- surjective_pairing. apply from_ok_eq. vm_compute. reflexivity.
  - apply list_elem_of_here.
Defined.

Lemma one_rnodes_canonical (t : list string) :
  is_Some (({[ ["aaa"] := ["A"] ]} : gmap (list string) (list string)) !! t) →
  canonical t.
Proof.
  intros [v Hv]. apply lookup_singleton_Some in Hv as [<- _].
  split; [repeat constructor | apply NoDup_singleton].
Qed.

Lemma match_nodes_finds_witness :
  ∃ todo log,
    match_nodes (float:=string) ["bbb"] [old_one] {[ ["aaa"] := ["A"] ]} ∅
      (leafsets_of {[ ["aaa"] := ["A"] ]}) ∅ = Ok (todo, log).
Proof.
  apply (match_nodes_finds_its_branches (float:=string) ["bbb"] [old_one]
           {[ ["aaa"] := ["A"] ]} ∅ ∅ one_rnodes_canonical).
  left. vm_compute. reflexivity.
Defined.

Lemma branch_to_pk_witness :
  ∃ branch_to_pk,
    foldM branch_to_pk_step two_migrations ∅ = Ok branch_to_pk
    ∧ ∀ hid pk, branch_to_pk !! hid = Some pk
                ↔ (hid, pk) ∈ matches_of two_migrations.
Proof.
  apply (proj1 (branch_to_pk_is_the_matches two_migrations)).
  apply NoDup_singleton.
Defined.

Lemma new_nodes_get_fresh_pks_witness :
  numbered 20 (r_new_languages sample_run
               ++ map snd (r_new_families sample_run)).
Proof.
  apply (new_nodes_get_fresh_pks no_escapes name_as_id text_float
           sample_inputs sample_run).
  apply from_ok_eq. vm_compute. reflexivity.
Defined.

Lemma languages_are_updated_witness :
  ∃ out, foldM (language_step (float:=string) {["aaa" := 10]} ∅
                  {[ ["A"] := 1 ]} ∅ ∅ one_language) ["aaa"] [] = Ok out.
Proof.
  apply (proj1 (languages_are_updated_in_order (float:=string)
                  {["aaa" := 10]} ∅ {[ ["A"] := 1 ]} ∅ ∅ one_language
                  ["aaa"])).
  intros l ->%list_elem_of_singleton.
  exists (Language (Some ["A"]) "established" "x" EmptyString).
  split; [vm_compute; reflexivity|].
  intros b bs [= <- <-]. exists 1. vm_compute. reflexivity.
Defined.

Lemma families_are_updated_witness :
  ∃ up, foldM (update_step (float:=string) {[ ["A"] := 1 ]}
                 (list_to_map [(1, "Old One"); (2, "Old Two")]))
          two_migrations (Updates [] [] 0 0 0) = Ok up.
Proof.
  apply (proj1 (families_are_updated_in_order (float:=string)
                  {[ ["A"] := 1 ]}
                  (list_to_map [(1, "Old One"); (2, "Old Two")])
                  two_migrations [])).
  intros m Hm.
  apply elem_of_cons in Hm as [-> | Hm];
    [|apply list_elem_of_singleton in Hm as ->].
  - split; [exists "Old One"; vm_compute; reflexivity | exact I].
  - split; [exists "Old Two" | exists 1]; vm_compute; reflexivity.
Defined.

Lemma every_instruction_has_a_pk_witness :
  Forall has_pk sample_output.
Proof.
  apply (every_instruction_has_a_pk no_escapes name_as_id text_float
           sample_inputs).
  apply from_ok_eq. vm_compute. reflexivity.
Defined.

Lemma leaf_line_is_read_witness :
  leaf_line no_escapes (leaf_text "x" "a" "a" "a") = Ok ("aaa", "x").
Proof.
  refine (proj1 (leaf_line_is_read no_escapes "x" "a" "a" "a" _ _ _ _));
    vm_compute; reflexivity.
Defined.

(** * Where the specification and the code part *)

(** C1 as the specification words it fails on the sample inputs: the new
    family node of the branch [A, B], second in the list, has for father
    the old node of pk 1, matched to the branch [A], and no earlier
    instruction of the list has that pk; the update of the old node comes
    after the new nodes. *)
Lemma father_pk_not_always_earlier :
  ¬ (∀ out k i p,
       main no_escapes name_as_id text_float sample_inputs = Ok out →
       out !! k = Some i → i !! "father_pk" = Some (VInt p) →
       ∃ j i', (j < k)%nat ∧ out !! j = Some i'
               ∧ i' !! "pk" = Some (VInt p)).
Proof.
  intros Hclaim.
  assert (Hmain : main no_escapes name_as_id text_float sample_inputs
                  = Ok sample_output).
  { apply from_ok_eq. vm_compute. reflexivity. }
  assert (H1 : sample_output !! 1%nat = Some (sample_output !!! 1%nat)).
  { apply list_lookup_lookup_total_lt. vm_compute. lia. }
  assert (Hf : (sample_output !!! 1%nat) !! "father_pk" = Some (VInt 1)).
  { vm_compute. reflexivity. }
  destruct (Hclaim _ _ _ _ Hmain H1 Hf) as (j & i' & Hj & Hi' & Hpk).
  assert (j = 0%nat) as -> by lia.
  assert (Hbad : sample_output !! 0%nat ≫= (λ i, i !! "pk")
                 = Some (VInt 1)).
  { rewrite Hi'. exact Hpk. }
  vm_compute in Hbad. discriminate.
Qed.

(** C2 as the specification words it fails: the twenty leafs are one
    element off the leafset of the branch [A], which has all of them and
    one more, and yet both old nodes are pointed to the branch [X], whose
    leafset of nineteen comes first in the scan; it lacks two of the
    twenty leafs, above the tolerance of one, and is taken for having only
    one leaf that is none of the twenty. *)
Lemma approximate_match_not_always_that_branch :
  ¬ (∀ (rnodes : gmap (list string) (list string)) (t cp : list string)
       (todo : list Migration) (log : list (event (float:=string))),
       (∀ k, is_Some (rnodes !! k) → canonical k) →
       rnodes !! twenty = None → rnodes !! t = Some cp →
       (size ((list_to_set twenty : gset string) ∖ list_to_set t)
        + size ((list_to_set t : gset string) ∖ list_to_set twenty)
        ≤ 1)%nat →
       match_nodes twenty [old_one; old_two] rnodes ∅ (leafsets_of rnodes) ∅
       = Ok (todo, log) →
       todo = [Mig 1 None None (Some cp); Mig 2 None None (Some cp)]).
Proof.
  intros Hclaim.
  specialize (Hclaim two_candidates twenty_one ["A"]
                [Mig 1 None None (Some ["X"]); Mig 2 None None (Some ["X"])]
                []).
  assert (Hbad : [Mig 1 None None (Some ["X"]); Mig 2 None None (Some ["X"])]
                 = [Mig 1 None None (Some ["A"]);
                    Mig 2 None None (Some ["A"])]); [|discriminate].
  apply Hclaim.
  - intros k [v Hk]. unfold two_candidates in Hk.
    apply lookup_insert_Some in Hk as [[<- _] | [_ Hk]];
      [|apply lookup_singleton_Some in Hk as [<- _]];
      unfold canonical; apply (bool_decide_unpack _); vm_compute; exact I.
  - vm_compute. reflexivity.
  - vm_compute. reflexivity.
  - vm_compute. lia.
  - vm_compute. reflexivity.
Qed.

(** C7 as the specification words it fails on a text that lists one code
    under two names: the branch [A, B] keeps the name [x] for the code
    [abc], its prefix [A] ends with the name [y], so the leaf map of [A]
    holds the code but not the entry, neither that of the leafs parsed
    under [A, B] nor that of the leaf map of [A, B]. *)
Lemma ancestor_entries_not_included :
  ¬ (∀ families' languages' fams h L p,
       parse_families no_escapes two_names od_empty od_empty
       = Ok (families', languages') →
       split_families no_escapes two_names = Ok fams →
       Some (h, L) ∈ fams → p ≠ [] → p `prefix_of` h.1.1 →
       ∃ Lp, od_get families' p = Some Lp
             ∧ (L ⊆ Lp
                ∨ ∃ Lb, od_get families' h.1.1 = Some Lb ∧ Lb ⊆ Lp)).
Proof.
  intros Hclaim.
  assert (Hparse : parse_families no_escapes two_names od_empty od_empty
                   = Ok (two_names_parsed.1, two_names_parsed.2)).
  { rewrite <- surjective_pairing. apply from_ok_eq. vm_compute. reflexivity. }
  assert (Hsplit : split_families no_escapes two_names
                   = Ok two_names_families).
  { apply from_ok_eq. vm_compute. reflexivity. }
  assert (Hin : Some (["A"; "B"], "established", EmptyString,
                      ({["abc" := "x"]} : gmap string string))
                ∈ two_names_families).
  { apply (list_elem_of_lookup_2 _ 0%nat). vm_compute. reflexivity. }
  destruct (Hclaim _ _ _ _ _ ["A"] Hparse Hsplit Hin) as (Lp & Hp & Hsub).
  { discriminate. }
  { by exists ["B"]. }
  assert (Hy : Lp !! "abc" = Some "y").
  { unfold od_get in Hp.
    assert (Hlook : od_map two_names_parsed.1 !! ["A"]
                    ≫= (λ m, m !! "abc") = Some "y")
      by (vm_compute; reflexivity).
    rewrite Hp in Hlook. exact Hlook. }
  destruct Hsub as [Hsub|(Lb & Hb & Hsub)].
  - rewrite map_subseteq_spec in Hsub.
    specialize (Hsub "abc" "x" (lookup_singleton_eq _ _)). congruence.
  - assert (Hx : Lb !! "abc" = Some "x").
    { unfold od_get in Hb. simpl in Hb.
      assert (Hlook : od_map two_names_parsed.1 !! ["A"; "B"]
                      ≫= (λ m, m !! "abc") = Some "x")
        by (vm_compute; reflexivity).
      rewrite Hb in Hlook. exact Hlook. }
    rewrite map_subseteq_spec in Hsub.
    specialize (Hsub "abc" "x" Hx). congruence.
Qed.
